(** * A* coin collection on a grid (heuristic_search.py)

    A shallow embedding of the grid world, its states, the search nodes, the
    heuristics and the A* driver of [heuristic_search.py], together with the
    properties of the specification that concern them.

    Python values are modelled as follows.
    - [int] is [Z]; a [frozenset] of coin ids is a [gset Z].
    - A list used as an array is a [list], read with Python's indexing rules
      ([py_getitem]: negative indices wrap once, anything else out of range
      raises [IndexError]).
    - An exception is the [Raise] alternative of [result].
    - The nested [defaultdict] tables [visited[coins][x][y]] and
      [expanded[coins][x][y]] are finite maps keyed by the triple
      [(coins, x, y)]; reading a [defaultdict] creates the default entry, which
      no later read can tell apart from an absent one.
    - Console output and [time.sleep] are left out: they read the tables and
      the grid and change nothing. *)

From Stdlib Require Import ZArith Lia.
From stdpp Require Import base decidable option list sets gmap strings.
From stdpp Require Import relations sorting.

Local Open Scope Z_scope.

(** ** Exceptions *)

Inductive PyError : Type :=
  | AssertionError
  | IndexError.

Inductive result (A : Type) : Type :=
  | Ok (a : A)
  | Raise (e : PyError).

Arguments Ok {A} a.
Arguments Raise {A} e.

(** Sequencing: the first exception raised ends the computation. *)
Definition bind {A B : Type} (r : result A) (f : A → result B) : result B :=
  match r with
  | Ok a => f a
  | Raise e => Raise e
  end.

Notation "'let*' x ':=' c 'in' k" := (bind c (fun x => k))
  (at level 10, x pattern, c at level 200, k at level 200,
   format "'[v' 'let*'  x  ':='  c  'in' '/' k ']'").

(** [assert(b)] *)
Definition py_assert (b : bool) : result unit :=
  if b then Ok tt else Raise AssertionError.

(** [l[i]] on a Python list *)
Definition py_getitem {A : Type} (l : list A) (i : Z) : result A :=
  let n := Z.of_nat (length l) in
  let j := if i <? 0 then i + n else i in
  if (0 <=? j) && (j <? n) then
    match l !! Z.to_nat j with
    | Some a => Ok a
    | None => Raise IndexError
    end
  else Raise IndexError.

(** [range(n)] *)
Definition py_range (n : Z) : list Z := seqZ 0 n.

(** [for a in l: body], where the body either continues or returns early
    with a value ([Some]) and may raise. *)
Fixpoint for_return {A R : Type} (l : list A) (body : A → result (option R))
    : result (option R) :=
  match l with
  | [] => Ok None
  | a :: l' =>
      let* r := body a in
      match r with
      | Some v => Ok (Some v)
      | None => for_return l' body
      end
  end.

(** [for a in l: acc = body(acc, a)], where the body may raise. *)
Fixpoint for_fold {A S : Type} (l : list A) (body : S → A → result S)
    (acc : S) : result S :=
  match l with
  | [] => Ok acc
  | a :: l' => let* acc' := body acc a in for_fold l' body acc'
  end.

(** ** The standard library's [heapq]

    [heappush] and [heappop] as CPython defines them, over a list and the
    elements' [__lt__] only.  Both sift loops move along one root-to-leaf
    path, so the length of the heap bounds their number of rounds; the
    counter below is that bound and is never what stops a loop. *)

Module heapq.
Section heapq.
Context {A : Type} (lt : A → A → bool).

(** The [while pos > startpos] loop of [_siftdown], closed by
    [heap[pos] = newitem]. *)
Fixpoint siftdown_loop (rounds : nat) (heap : list A) (startpos pos : nat)
    (newitem : A) : list A :=
  match rounds with
  | O => <[pos := newitem]> heap
  | S rounds' =>
      if decide (startpos < pos)%nat then
        let parentpos := Nat.div2 (pos - 1) in
        match heap !! parentpos with
        | Some parent =>
            if lt newitem parent
            then siftdown_loop rounds' (<[pos := parent]> heap)
                   startpos parentpos newitem
            else <[pos := newitem]> heap
        | None => <[pos := newitem]> heap
        end
      else <[pos := newitem]> heap
  end.

Definition _siftdown (heap : list A) (startpos pos : nat) : list A :=
  match heap !! pos with
  | Some newitem => siftdown_loop pos heap startpos pos newitem
  | None => heap
  end.

(** [childpos] after "set childpos to index of smaller child" *)
Definition smaller_child (heap : list A) (endpos childpos : nat) : nat :=
  let rightpos := (childpos + 1)%nat in
  if decide (rightpos < endpos)%nat then
    match heap !! childpos, heap !! rightpos with
    | Some l, Some r => if lt l r then childpos else rightpos
    | _, _ => childpos
    end
  else childpos.

(** The [while childpos < endpos] loop of [_siftup]: the smaller child is
    moved up until a leaf is reached; returns the heap and the leaf. *)
Fixpoint siftup_loop (rounds : nat) (heap : list A) (endpos pos : nat)
    : list A * nat :=
  match rounds with
  | O => (heap, pos)
  | S rounds' =>
      let childpos := (2 * pos + 1)%nat in
      if decide (childpos < endpos)%nat then
        let childpos := smaller_child heap endpos childpos in
        match heap !! childpos with
        | Some c => siftup_loop rounds' (<[pos := c]> heap) endpos childpos
        | None => (heap, pos)
        end
      else (heap, pos)
  end.

Definition _siftup (heap : list A) (pos : nat) : list A :=
  match heap !! pos with
  | Some newitem =>
      let '(heap', leaf) := siftup_loop (length heap) heap (length heap) pos in
      _siftdown (<[leaf := newitem]> heap') pos leaf
  | None => heap
  end.

Definition heappush (heap : list A) (item : A) : list A :=
  _siftdown (heap ++ [item]) 0 (length heap).

(** [heappop] returns the popped item and the heap left; [None] stands for
    the [IndexError] of popping from an empty heap. *)
Definition heappop (heap : list A) : option (A * list A) :=
  match last heap with
  | None => None
  | Some lastelt =>
      let heap' := take (length heap - 1) heap in
      match heap' with
      | [] => Some (lastelt, [])
      | returnitem :: _ =>
          Some (returnitem, _siftup (<[0%nat := lastelt]> heap') 0)
      end
  end.
End heapq.
End heapq.

(** ** State *)

(** The field [grid] of the source, a reference to the grid, takes no part
    in [__tuple__], and so in none of the comparisons or in the hash; the
    functions that need the grid take it as an argument. *)
Module State.
Record t : Type := mk { x : Z; y : Z; coins_collected : gset Z }.

#[export] Instance eq_dec : EqDecision t.
Proof. solve_decision. Defined.

Definition has_collected_coin (s : t) (coin_id : Z) : bool :=
  bool_decide (coin_id ∈ coins_collected s).

(** [__eq__]: equality of the tuples [(x, y, coins_collected)] *)
Definition eq (s o : t) : bool :=
  bool_decide (x s = x o) && bool_decide (y s = y o)
  && bool_decide (coins_collected s = coins_collected o).

(** [__lt__]: Python compares the tuples at the first position where they
    differ; integers by [<], frozensets by proper inclusion. *)
Definition lt (s o : t) : bool :=
  if negb (bool_decide (x s = x o)) then x s <? x o
  else if negb (bool_decide (y s = y o)) then y s <? y o
  else if negb (bool_decide (coins_collected s = coins_collected o))
       then bool_decide (coins_collected s ⊂ coins_collected o)
  else false.

Definition gt (s o : t) : bool :=
  if negb (bool_decide (x s = x o)) then x s >? x o
  else if negb (bool_decide (y s = y o)) then y s >? y o
  else if negb (bool_decide (coins_collected s = coins_collected o))
       then bool_decide (coins_collected o ⊂ coins_collected s)
  else false.

Definition le (s o : t) : bool :=
  if negb (bool_decide (x s = x o)) then x s <=? x o
  else if negb (bool_decide (y s = y o)) then y s <=? y o
  else if negb (bool_decide (coins_collected s = coins_collected o))
       then bool_decide (coins_collected s ⊆ coins_collected o)
  else true.

Definition ge (s o : t) : bool :=
  if negb (bool_decide (x s = x o)) then x s >=? x o
  else if negb (bool_decide (y s = y o)) then y s >=? y o
  else if negb (bool_decide (coins_collected s = coins_collected o))
       then bool_decide (coins_collected o ⊆ coins_collected s)
  else true.
End State.

(** [[f(a) for a in l]], where [f] may raise. *)
Fixpoint list_comp {A B : Type} (l : list A) (f : A → result B)
    : result (list B) :=
  match l with
  | [] => Ok []
  | a :: l' => let* b := f a in let* bs := list_comp l' f in Ok (b :: bs)
  end.

(** ** Grid *)

(** What a grid cell holds: a one-character symbol or an [int], the id of the
    coin lying there. *)
Inductive cell : Type :=
  | Sym (s : string)
  | Int (n : Z).

#[export] Instance cell_eq_dec : EqDecision cell.
Proof. solve_decision. Defined.

Module Grid.
Record t : Type := mk { width : Z; height : Z; grid : list (list cell) }.

Definition AGENT_SYMBOL : cell := Sym "A".
Definition COIN_SYMBOL : cell := Sym "C".
Definition WALL_SYMBOL : cell := Sym "#".
Definition EMPTY_SYMBOL : cell := Sym " ".

(** [Grid(inv)]: [inv] is a list of rows, the grid is stored by columns. *)
Definition __init__ (inv : option (list (list cell))) : result t :=
  match inv with
  | Some inv =>
      let* row0 := py_getitem inv 0 in
      let width := Z.of_nat (length row0) in
      let height := Z.of_nat (length inv) in
      let* grid := list_comp (py_range width) (λ x,
                     list_comp (py_range height) (λ y,
                       let* row := py_getitem inv y in py_getitem row x)) in
      Ok (mk width height grid)
  | None => Ok (mk 0 0 [])
  end.

Definition is_within_boundaries (self : t) (x y : Z) : bool :=
  (x >=? 0) && (x <? width self) && (y >=? 0) && (y <? height self).

(** [self.grid[x][y]] *)
Definition cell_at (self : t) (x y : Z) : result cell :=
  let* col := py_getitem (grid self) x in py_getitem col y.

Definition lookup (self : t) (x y : Z) : result cell :=
  let* _ := py_assert (is_within_boundaries self x y) in
  cell_at self x y.

Definition is_wall (self : t) (x y : Z) : result bool :=
  let* c := lookup self x y in Ok (bool_decide (c = WALL_SYMBOL)).

(** [isinstance(self.lookup(x, y), int)] *)
Definition is_coin (self : t) (x y : Z) : result bool :=
  let* c := lookup self x y in
  Ok (match c with Int _ => true | Sym _ => false end).

(** [None] when the cell holds no coin.  After [is_coin] the cell is an
    [int]; the [Sym] branch of the inner match is there for totality. *)
Definition get_coin_id (self : t) (x y : Z) : result (option Z) :=
  let* _ := py_assert (is_within_boundaries self x y) in
  let* c := is_coin self x y in
  if c then
    let* v := cell_at self x y in
    Ok (match v with Int n => Some n | Sym _ => None end)
  else Ok None.

Definition get_initial_state (self : t) : result (option State.t) :=
  for_return (py_range (width self)) (λ x,
    for_return (py_range (height self)) (λ y,
      let* c := cell_at self x y in
      if bool_decide (c = AGENT_SYMBOL)
      then Ok (Some (State.mk x y ∅))
      else Ok None)).

Definition get_coin_locations (self : t) : result (list (Z * Z)) :=
  for_fold (py_range (width self)) (λ coins x,
    for_fold (py_range (height self)) (λ coins y,
      let* c := is_coin self x y in
      if c then Ok (coins ++ [(x, y)]) else Ok coins) coins) [].

(** The body of the two nested loops of [get_successor_states]. *)
Definition successor_step (self : t) (state : State.t) (i j : Z)
    (res : list State.t) : result (list State.t) :=
  if (bool_decide (i = 0) && bool_decide (j = 0))
     || negb (bool_decide (i * j = 0))
  then Ok res
  else
    let sx := State.x state + i in
    let sy := State.y state + j in
    if is_within_boundaries self sx sy then
      let* w := is_wall self sx sy in
      if negb w then
        let* c := is_coin self sx sy in
        let* coins := (if c then
                   let* v := cell_at self sx sy in
                   Ok (match v with
                       | Int n => {[n]} ∪ State.coins_collected state
                       | Sym _ => State.coins_collected state
                       end)
                 else Ok (State.coins_collected state)) in
        Ok (res ++ [State.mk sx sy coins])
      else Ok res
    else Ok res.

(** [range(-1, 2)] *)
Definition offsets : list Z := seqZ (-1) 3.

Definition get_successor_states (self : t) (state : State.t)
    : result (list State.t) :=
  for_fold offsets (λ res i,
    for_fold offsets (λ res j,
      successor_step self state i j res) res) [].
End Grid.

(** [State.has_collected_coin_at_location] reads the module-level variable
    [grid], not [self.grid]; the main program binds it to the grid that is
    searched, and it is an argument here. *)
Definition has_collected_coin_at_location (grid : Grid.t) (self : State.t)
    (x y : Z) : result bool :=
  let* c := Grid.is_coin grid x y in
  let* _ := py_assert c in
  let* id := Grid.get_coin_id grid x y in
  Ok (match id with
      | Some coin_id => State.has_collected_coin self coin_id
      | None => false
      end).

(** ** SearchNode *)

(** The key [(coins_collected, x, y)] of a state in the two tables. *)
Definition table_key (s : State.t) : gset Z * Z * Z :=
  (State.coins_collected s, State.x s, State.y s).

Module SearchNode.
#[warnings="-register-all"]
Inductive t : Type :=
  mk { state : State.t; parent : option t; h : Z; g : Z }.

(** [SearchNode(state, h, parent)] *)
Definition __init__ (state : State.t) (h : Z) (parent : option t) : t :=
  mk state parent h
     (match parent with None => 0 | Some p => g p + 1 end).

(** The states from a node up to the root, as the [while p != None] loop
    collects them. *)
Fixpoint ancestors (p : t) : list State.t :=
  match p with
  | mk s par _ _ =>
      s :: match par with Some q => ancestors q | None => [] end
  end.

Definition extract_plan (self : t) : list State.t :=
  reverse (ancestors self).

(** The parameter [val] is ignored by the source: the flag is set to
    [True]. *)
Definition set_flag (self : t) (flags : gset (gset Z * Z * Z))
    : gset (gset Z * Z * Z) :=
  {[table_key (state self)]} ∪ flags.

Definition check_if_flagged (self : t) (flags : gset (gset Z * Z * Z)) : bool :=
  bool_decide (table_key (state self) ∈ flags).

Definition get_f_value (self : t) : Z := h self + g self.

(** [__lt__]: the tuples [(f, g, state)] compared as Python compares
    tuples, at the first position where they differ. *)
Definition lt (self other : t) : bool :=
  if negb (bool_decide (get_f_value self = get_f_value other))
  then get_f_value self <? get_f_value other
  else if negb (bool_decide (g self = g other)) then g self <? g other
  else if negb (State.eq (state self) (state other))
       then State.lt (state self) (state other)
  else false.
End SearchNode.

(** ** SearchResult *)

Module SearchResult.
Record t : Type :=
  mk { expansions : Z; visited : Z; plan : option (list State.t) }.
End SearchResult.

(** ** A* *)

(** A heuristic is called on a state and returns an [int], or raises. *)
Definition Heuristic : Type := State.t → result Z.

(** The local variables of [astar_search] that the loop changes. *)
Record search_vars : Type := mk_vars {
  open_list : list SearchNode.t;
  expanded : gset (gset Z * Z * Z);
  visited : gmap (gset Z * Z * Z) Z;
  result_ : SearchResult.t
}.

Inductive loop_exit : Type :=
  | Continue
  | Break.

(** The body of [for succ in successors], on the variables it changes: the
    open list, the table [visited] and the result.  [visited[...]] is [None]
    exactly when the key has no entry. *)
Definition visit_successor (heuristic : Heuristic) (node : SearchNode.t)
    (expanded : gset (gset Z * Z * Z))
    (vars : list SearchNode.t * gmap (gset Z * Z * Z) Z * SearchResult.t)
    (succ : State.t)
    : result (list SearchNode.t * gmap (gset Z * Z * Z) Z * SearchResult.t) :=
  let '(open_list, visited, res) := vars in
  if bool_decide (table_key succ ∈ expanded) then Ok vars
  else
    match visited !! table_key succ with
    | None =>
        let res' := SearchResult.mk (SearchResult.expansions res)
                      (SearchResult.visited res + 1) (SearchResult.plan res) in
        let* hv := heuristic succ in
        Ok (heapq.heappush SearchNode.lt open_list
              (SearchNode.__init__ succ hv (Some node)),
            <[table_key succ := hv]> visited, res')
    | Some hv =>
        Ok (heapq.heappush SearchNode.lt open_list
              (SearchNode.__init__ succ hv (Some node)),
            visited, res)
    end.

(** One round of [while len(open_list) > 0], entered with a non-empty open
    list. *)
Definition astar_iteration (grid : Grid.t) (heuristic : Heuristic)
    (num_coins : Z) (vars : search_vars) : result (loop_exit * search_vars) :=
  match heapq.heappop SearchNode.lt (open_list vars) with
  | None => Raise IndexError
  | Some (node, open_list') =>
      if SearchNode.check_if_flagged node (expanded vars) then
        Ok (Continue,
            mk_vars open_list' (expanded vars) (visited vars) (result_ vars))
      else
        let res := SearchResult.mk
                     (SearchResult.expansions (result_ vars) + 1)
                     (SearchResult.visited (result_ vars))
                     (SearchResult.plan (result_ vars)) in
        if bool_decide
             (Z.of_nat (size (State.coins_collected (SearchNode.state node)))
              = num_coins)
        then
          Ok (Break,
              mk_vars open_list' (expanded vars) (visited vars)
                (SearchResult.mk (SearchResult.expansions res)
                   (SearchResult.visited res)
                   (Some (SearchNode.extract_plan node))))
        else
          let* successors :=
            Grid.get_successor_states grid (SearchNode.state node) in
          let* (open_list'', visited', res') :=
            for_fold successors
              (visit_successor heuristic node (expanded vars))
              (open_list', visited vars, res) in
          Ok (Continue,
              mk_vars open_list'' (SearchNode.set_flag node (expanded vars))
                visited' res')
  end.

(** The [while] loop.  [None] means that [rounds] rounds were not enough to
    leave the loop. *)
Fixpoint astar_loop (rounds : nat) (grid : Grid.t) (heuristic : Heuristic)
    (num_coins : Z) (vars : search_vars) : option (result SearchResult.t) :=
  match open_list vars with
  | [] => Some (Ok (result_ vars))
  | _ :: _ =>
      match rounds with
      | O => None
      | S rounds' =>
          match astar_iteration grid heuristic num_coins vars with
          | Raise e => Some (Raise e)
          | Ok (Break, vars') => Some (Ok (result_ vars'))
          | Ok (Continue, vars') =>
              astar_loop rounds' grid heuristic num_coins vars'
          end
      end
  end.

(** The variables on entry to the loop. *)
Definition astar_setup (grid : Grid.t) (heuristic : Heuristic)
    : result (Z * search_vars) :=
  let* initial_state := Grid.get_initial_state grid in
  let* coin_locations := Grid.get_coin_locations grid in
  let num_coins := Z.of_nat (length coin_locations) in
  match initial_state with
  | None =>
      (* every heuristic of the module, and [SearchNode.__init__] after the
         blind one, asserts [isinstance(state, State)] *)
      Raise AssertionError
  | Some initial_state =>
      let* h0 := heuristic initial_state in
      let root := SearchNode.__init__ initial_state h0 None in
      Ok (num_coins,
          mk_vars [root] ∅ {[table_key initial_state := SearchNode.h root]}
            (SearchResult.mk 0 0 None))
  end.

Definition astar_search (rounds : nat) (grid : Grid.t) (heuristic : Heuristic)
    : option (result SearchResult.t) :=
  match astar_setup grid heuristic with
  | Raise e => Some (Raise e)
  | Ok (num_coins, vars) => astar_loop rounds grid heuristic num_coins vars
  end.

(** ** Heuristics

    Every [__call__] below takes its coin locations from the module-level
    variable [grid], which the main program binds to the grid being
    searched; it is the argument [grid] here. *)

Definition BlindHeuristic : Heuristic := λ _, Ok 0.

Definition manhattan (state : State.t) (coin : Z * Z) : Z :=
  Z.abs (State.x state - coin.1) + Z.abs (State.y state - coin.2).

Definition ManhattanMaxHeuristic (grid : Grid.t) : Heuristic := λ state,
  let* coins := Grid.get_coin_locations grid in
  for_fold coins (λ maximum '(coin_x, coin_y),
    let* collected :=
      has_collected_coin_at_location grid state coin_x coin_y in
    if negb collected
    then Ok (Z.max maximum (manhattan state (coin_x, coin_y)))
    else Ok maximum) 0.

Definition ManhattanSumHeuristic (grid : Grid.t) : Heuristic := λ state,
  let* coins := Grid.get_coin_locations grid in
  for_fold coins (λ sum_dist '(coin_x, coin_y),
    let* collected :=
      has_collected_coin_at_location grid state coin_x coin_y in
    if negb collected
    then Ok (sum_dist + manhattan state (coin_x, coin_y))
    else Ok sum_dist) 0.

(** [<=] on tuples of two integers *)
Definition pair_le (a b : Z * Z) : bool :=
  if negb (bool_decide (a.1 = b.1)) then a.1 <=? b.1 else a.2 <=? b.2.

Fixpoint sort_insert (a : Z * Z) (l : list (Z * Z)) : list (Z * Z) :=
  match l with
  | [] => [a]
  | b :: l' => if pair_le a b then a :: l else b :: sort_insert a l'
  end.

(** [list.sort()] on tuples of two integers: the order is total and equal
    tuples are indistinguishable, so the sorted list does not depend on the
    sorting algorithm. *)
Definition py_sort (l : list (Z * Z)) : list (Z * Z) :=
  foldr sort_insert [] l.

Definition ManhattanOrderedSumHeuristic (grid : Grid.t) : Heuristic :=
  λ state,
  let* coins := Grid.get_coin_locations grid in
  let* (dist, c1_x, c1_y) :=
    for_fold coins (λ '(dist, c1_x, c1_y) '(coin_x, coin_y),
      let* collected :=
        has_collected_coin_at_location grid state coin_x coin_y in
      if negb collected then
        let Sum := manhattan state (coin_x, coin_y) in
        if Sum <? dist then Ok (Sum, coin_x, coin_y)
        else Ok (dist, c1_x, c1_y)
      else Ok (dist, c1_x, c1_y)) (32 ^ 32, 0, 0) in
  let* coins_not_collected :=
    for_fold coins (λ acc '(coin_x, coin_y),
      let* collected :=
        has_collected_coin_at_location grid state coin_x coin_y in
      if negb collected then Ok (acc ++ [(coin_x, coin_y)]) else Ok acc) [] in
  let coins_not_collected := py_sort coins_not_collected in
  let* dist_sum :=
    for_fold (py_range (Z.of_nat (length coins_not_collected) - 1))
      (λ dist_sum i,
        let* a := py_getitem coins_not_collected i in
        let* b := py_getitem coins_not_collected (i + 1) in
        Ok (dist_sum + (Z.abs (a.1 - b.1) + Z.abs (a.2 - b.2)))) 0 in
  Ok (Z.abs (State.x state - c1_x) + Z.abs (State.y state - c1_y)
      + dist_sum).

(** ** The grid of the main program *)

Definition sample_rows : list (list cell) :=
  let w := Sym "#" in let e := Sym " " in let a := Sym "A" in
  [ [w; w; w; w; w; w; w; w; w];
    [w; e; e; a; e; e; e; e; w];
    [w; e; w; e; w; e; w; w; w];
    [w; e; w; w; w; e; w; e; w];
    [w; e; w; e; w; e; e; Int 0; w];
    [w; e; e; e; w; e; w; w; w];
    [w; e; w; e; w; e; e; e; w];
    [w; e; w; e; w; w; w; e; w];
    [w; w; w; w; w; w; w; w; w] ].

Definition sample_grid : Grid.t :=
  match Grid.__init__ (Some sample_rows) with
  | Ok g => g
  | Raise _ => Grid.mk 0 0 []
  end.

(** ** Small examples *)

(** Two states on the same cell that hold different single coins. *)
Definition state_with_coin0 : State.t := State.mk 0 0 {[0]}.
Definition state_with_coin1 : State.t := State.mk 0 0 {[1]}.

(** A root node and a child of it with the same f-value. *)
Definition node_root : SearchNode.t :=
  SearchNode.__init__ (State.mk 0 0 ∅) 1 None.
Definition node_child : SearchNode.t :=
  SearchNode.__init__ (State.mk 1 0 ∅) 0 (Some node_root).

(** [a] leaves first an open list that holds [a] and [b] only, whichever
    was pushed first, and [b] stays. *)
Definition popped_first (a b : SearchNode.t) : Prop :=
  heapq.heappop SearchNode.lt
    (heapq.heappush SearchNode.lt (heapq.heappush SearchNode.lt [] a) b)
  = Some (a, [b])
  ∧ heapq.heappop SearchNode.lt
      (heapq.heappush SearchNode.lt (heapq.heappush SearchNode.lt [] b) a)
    = Some (a, [b]).

(** ** Well-formed grids

    The constructor and [load_from_file] store [width] columns of [height]
    cells each; [Grid_wf] says so. *)
Definition Grid_wf (g : Grid.t) : Prop :=
  Z.of_nat (length (Grid.grid g)) = Grid.width g
  ∧ Forall (λ col, Z.of_nat (length col) = Grid.height g) (Grid.grid g).

(** The grid has a cell that holds the agent's symbol. *)
Definition has_start_cell (g : Grid.t) : Prop :=
  ∃ x y, Grid.is_within_boundaries g x y = true
         ∧ Grid.cell_at g x y = Ok Grid.AGENT_SYMBOL.

(** A grid of one empty cell. *)
Definition grid_no_start : Grid.t := Grid.mk 1 1 [[Sym " "]].

(** The successor that the neighbour cell [(x + i, y + j)] gives, if any. *)
Definition neighbour_successor (g : Grid.t) (s : State.t) (i j : Z)
    : list State.t :=
  let sx := State.x s + i in
  let sy := State.y s + j in
  if Grid.is_within_boundaries g sx sy then
    match Grid.cell_at g sx sy with
    | Ok c =>
        if bool_decide (c = Grid.WALL_SYMBOL) then []
        else [State.mk sx sy
                match c with
                | Int n => {[n]} ∪ State.coins_collected s
                | Sym _ => State.coins_collected s
                end]
    | Raise _ => []
    end
  else [].

(** The coin cells of column [x], top down, and of the whole grid, column by
    column: the order in which [get_coin_locations] meets them. *)
Definition coin_cells_of_column (g : Grid.t) (x : Z) : list (Z * Z) :=
  py_range (Grid.height g) ≫= λ y,
    match Grid.cell_at g x y with
    | Ok (Int _) => [(x, y)]
    | _ => []
    end.

Definition coin_cells (g : Grid.t) : list (Z * Z) :=
  py_range (Grid.width g) ≫= coin_cells_of_column g.

(** A grid of one cell, which holds the agent; it has no coin. *)
Definition grid_start_only : Grid.t := Grid.mk 1 1 [[Sym "A"]].

(** ** Runs of the search loop *)

(** The key that the round entered with [vars] counts as an expansion: that
    of the popped node, unless the node is flagged in [expanded]. *)
Definition counted_key (vars : search_vars) : list (gset Z * Z * Z) :=
  match heapq.heappop SearchNode.lt (open_list vars) with
  | Some (node, _) =>
      if SearchNode.check_if_flagged node (expanded vars) then []
      else [table_key (SearchNode.state node)]
  | None => []
  end.

(** [run_to grid heuristic counted exit vars]: some rounds of the loop of
    [astar_search grid heuristic] lead to the variables [vars]; the rounds
    counted the keys [counted] as expansions, in this order; [exit] tells
    whether the last round left the loop by [break]. *)
Inductive run_to (grid : Grid.t) (heuristic : Heuristic)
    : list (gset Z * Z * Z) → loop_exit → search_vars → Prop :=
  | run_setup num_coins vars :
      astar_setup grid heuristic = Ok (num_coins, vars) →
      run_to grid heuristic [] Continue vars
  | run_round num_coins vars0 counted vars exit vars' :
      astar_setup grid heuristic = Ok (num_coins, vars0) →
      run_to grid heuristic counted Continue vars →
      open_list vars ≠ [] →
      astar_iteration grid heuristic num_coins vars = Ok (exit, vars') →
      run_to grid heuristic (counted ++ counted_key vars) exit vars'.

(** Loop variables whose open list holds one node that is already flagged
    in [expanded]. *)
Definition flagged_vars : search_vars :=
  mk_vars [node_root] {[table_key (SearchNode.state node_root)]}
    {[table_key (SearchNode.state node_root) := 1]}
    (SearchResult.mk 1 0 None).

(** The variables after one more round, and whether that round ends with
    the loop still running; they let concrete runs be written down without
    spelling out the tables. *)
Definition next_vars (grid : Grid.t) (heuristic : Heuristic) (num_coins : Z)
    (vars : search_vars) : search_vars :=
  match astar_iteration grid heuristic num_coins vars with
  | Ok (_, vars') => vars'
  | Raise _ => vars
  end.

Definition continues (grid : Grid.t) (heuristic : Heuristic) (num_coins : Z)
    (vars : search_vars) : bool :=
  match astar_iteration grid heuristic num_coins vars with
  | Ok (Continue, vars') => negb (bool_decide (open_list vars = []))
  | _ => false
  end.

(** The variables of the search of the sample grid with the blind heuristic
    on entry to the loop. *)
Definition sample_vars : search_vars :=
  mk_vars [SearchNode.__init__ (State.mk 3 1 ∅) 0 None] ∅
    {[table_key (State.mk 3 1 ∅) := 0]} (SearchResult.mk 0 0 None).

(** ** A bound on the number of rounds *)

(** The sets of integers made of elements of [l]. *)
Fixpoint subsets (l : list Z) : list (gset Z) :=
  match l with
  | [] => [∅]
  | a :: l' => subsets l' ++ (({[a]} ∪.) <$> subsets l')
  end.

(** The ids of the coins of the grid. *)
Definition grid_coin_ids (g : Grid.t) : list Z :=
  coin_cells g ≫= λ c,
    match Grid.cell_at g c.1 c.2 with
    | Ok (Int n) => [n]
    | _ => []
    end.

(** The keys [(coins, x, y)] with [coins] a set of coin ids of the grid and
    [(x, y)] within its boundaries: the keys of all the states that a search
    can meet. *)
Definition key_universe (g : Grid.t) : gset (gset Z * Z * Z) :=
  list_to_set
    (subsets (grid_coin_ids g) ≫= λ coins,
       py_range (Grid.width g) ≫= λ x,
         py_range (Grid.height g) ≫= λ y, [(coins, x, y)]).

(** Every round that stays in the loop makes this number smaller: it
    either drops a node of the open list, or flags a key of the universe
    and pushes at most four nodes for the one it pops. *)
Definition rounds_bound (g : Grid.t) (vars : search_vars) : nat :=
  (5 * size (key_universe g ∖ expanded vars) + length (open_list vars))%nat.

(** The states that a search of [g] can meet: on a cell of the grid, with
    coins of the grid. *)
Definition state_in_grid (g : Grid.t) (s : State.t) : Prop :=
  State.coins_collected s ⊆ list_to_set (grid_coin_ids g)
  ∧ Grid.is_within_boundaries g (State.x s) (State.y s) = true.


(** ** Orders and relations used by the properties *)

(** [<] on tuples of two integers. *)
Definition pair_lt (a b : Z * Z) : Prop :=
  a.1 < b.1 ∨ (a.1 = b.1 ∧ a.2 < b.2).

(** [t] is one of the successor states of [s]. *)
Definition successor_of (g : Grid.t) (s t : State.t) : Prop :=
  ∃ succs, Grid.get_successor_states g s = Ok succs ∧ t ∈ succs.

(** Whether the cell [c] holds a coin that the state has not collected. *)
Definition is_uncollected (g : Grid.t) (s : State.t) (c : Z * Z) : bool :=
  match Grid.cell_at g c.1 c.2 with
  | Ok (Int n) => negb (bool_decide (n ∈ State.coins_collected s))
  | _ => false
  end.

(** The coin cells whose coin the state has not collected, in the order of
    [get_coin_locations]. *)
Definition uncollected_cells (g : Grid.t) (s : State.t) : list (Z * Z) :=
  filter (λ c, is_uncollected g s c = true) (coin_cells g).

(** No two cells of the grid hold a coin with the same id. *)
Definition distinct_coin_ids (g : Grid.t) : Prop :=
  ∀ x y x' y' n,
    Grid.is_within_boundaries g x y = true →
    Grid.is_within_boundaries g x' y' = true →
    Grid.cell_at g x y = Ok (Int n) → Grid.cell_at g x' y' = Ok (Int n) →
    x = x' ∧ y = y'.

(** The length of the walk through the cells of [l], in the order of [l],
    with Manhattan distances. *)
Fixpoint path_length (l : list (Z * Z)) : Z :=
  match l with
  | a :: (b :: _) as l' =>
      Z.abs (a.1 - b.1) + Z.abs (a.2 - b.2) + path_length l'
  | _ => 0
  end.

(** The search nodes that a search from the initial state [s0] builds: the
    root, and the nodes made for a successor state of the state of a node
    built before. *)
Inductive node_from (g : Grid.t) (s0 : State.t) : SearchNode.t → Prop :=
  | node_from_root h :
      node_from g s0 (SearchNode.__init__ s0 h None)
  | node_from_child p s h :
      node_from g s0 p →
      successor_of g (SearchNode.state p) s →
      node_from g s0 (SearchNode.__init__ s h (Some p)).

(** Whether a search has returned a result with a plan, or a result
    without one. *)
Definition returned_plan (o : option (result SearchResult.t)) : bool :=
  match o with
  | Some (Ok r) =>
      match SearchResult.plan r with Some _ => true | None => false end
  | _ => false
  end.

Definition returned_no_plan (o : option (result SearchResult.t)) : bool :=
  match o with
  | Some (Ok r) =>
      match SearchResult.plan r with Some _ => false | None => true end
  | _ => false
  end.

(** A grid whose coin is walled off from the agent. *)
Definition walled_rows : list (list cell) :=
  let w := Sym "#" in let e := Sym " " in let a := Sym "A" in
  [ [w; w; w; w; w];
    [w; a; w; Int 0; w];
    [w; w; w; w; w] ].

Definition walled_grid : Grid.t :=
  match Grid.__init__ (Some walled_rows) with
  | Ok g => g
  | Raise _ => Grid.mk 0 0 []
  end.

(** ** The order of the open list *)

(** The invariant of [heapq], for an order [le] that the comparison of the
    items agrees with: every item is [le]-above its parent, the item at
    [(k - 1) // 2]. *)
Definition heap_ordered_by {A : Type} (le : A → A → Prop) (heap : list A)
    : Prop :=
  ∀ k c p, (0 < k)%nat → heap !! k = Some c →
           heap !! Nat.div2 (k - 1) = Some p → le p c.

(** The same for the order of a key: no item has a smaller key than its
    parent. *)
Definition heap_ordered {A : Type} (key : A → Z) (heap : list A) : Prop :=
  ∀ k c p, (0 < k)%nat → heap !! k = Some c →
           heap !! Nat.div2 (k - 1) = Some p → key p ≤ key c.

(** The invariant while an item is sifted through the heap: the position
    [pos] is a hole, the items around it are in order, and so are the
    items above and below the hole. *)
Definition hole_ordered_by {A : Type} (le : A → A → Prop) (heap : list A)
    (pos : nat) : Prop :=
  (∀ k c p, (0 < k)%nat → k ≠ pos → Nat.div2 (k - 1) ≠ pos →
            heap !! k = Some c → heap !! Nat.div2 (k - 1) = Some p →
            le p c)
  ∧ (∀ k c p, (0 < k)%nat → Nat.div2 (k - 1) = pos → (0 < pos)%nat →
              heap !! k = Some c → heap !! Nat.div2 (pos - 1) = Some p →
              le p c).

(** The order of the first two items of the tuples that [SearchNode.__lt__]
    compares: by f-value, and by [g] among nodes with the same f-value. *)
Definition fg_le (a b : SearchNode.t) : Prop :=
  SearchNode.get_f_value a < SearchNode.get_f_value b
  ∨ (SearchNode.get_f_value a = SearchNode.get_f_value b
     ∧ SearchNode.g a ≤ SearchNode.g b).

(** The items of a heap in the order in which [heappop] returns them when
    it is called until the heap is empty. *)
Fixpoint pop_all {A : Type} (lt : A → A → bool) (fuel : nat)
    (heap : list A) : list A :=
  match fuel with
  | O => []
  | S fuel' =>
      match heapq.heappop lt heap with
      | None => []
      | Some (item, rest) => item :: pop_all lt fuel' rest
      end
  end.

(** Four root nodes for states on one cell, all with f-value 0 and [g]
    0, and the open list that pushing them in this order builds. *)
Definition node_coins (coins : gset Z) : SearchNode.t :=
  SearchNode.__init__ (State.mk 0 0 coins) 0 None.

Definition four_nodes : list SearchNode.t :=
  foldl (heapq.heappush SearchNode.lt) []
    [node_coins {[0; 2]}; node_coins {[1]}; node_coins {[3]};
     node_coins {[0]}].

(** The walks of [k] moves on the grid that lead from [s] to another
    state. *)
Inductive walk (g : Grid.t) (s : State.t) : nat → State.t → Prop :=
  | walk_O : walk g s 0 s
  | walk_S k t u :
      walk g s k t → successor_of g t u → walk g s (S k) u.

(** What the open list [O] holds for the states on the border of the
    flagged ones [E]: a node for the initial state, until it is flagged,
    and for every state that is not flagged but is a successor of a
    flagged one, a node whose [g] is no more than the moves of any walk
    through that flagged state. *)
Definition frontier_ok (g : Grid.t) (s0 : State.t) (O : list SearchNode.t)
    (E : gset (gset Z * Z * Z)) : Prop :=
  (table_key s0 ∉ E →
   ∃ m, m ∈ O ∧ SearchNode.state m = s0 ∧ SearchNode.g m ≤ 0)
  ∧ (∀ k s t, walk g s0 k s → table_key s ∈ E →
              successor_of g s t → table_key t ∉ E →
              ∃ m, m ∈ O ∧ SearchNode.state m = t
                   ∧ SearchNode.g m ≤ Z.of_nat k + 1).

(** ** Heuristic instances and the module-level grid *)

(** The heuristic classes on integers. *)
Inductive heuristic_class : Type :=
  | Blind
  | ManhattanMax
  | ManhattanSum
  | ManhattanOrderedSum.

Module HeuristicInstance.
(** An instance holds what [Heuristic.__init__] stores: [self.grid] and
    [self.coin_locations]. *)
Record t : Type :=
  mk { class_ : heuristic_class; grid : Grid.t;
       coin_locations : list (Z * Z) }.

(** [Heuristic.__init__], which the constructor of each class calls. *)
Definition __init__ (cls : heuristic_class) (grid : Grid.t) : result t :=
  let* coin_locations := Grid.get_coin_locations grid in
  Ok (mk cls grid coin_locations).

End HeuristicInstance.


(** * Properties *)

(** ** The order on states *)

Section State_order.
Implicit Types s t u : State.t.

Lemma State_eq_spec s t : State.eq s t = true ↔ s = t.
Proof.
  unfold State.eq. destruct s, t; simpl.
  rewrite !andb_true_iff, !bool_decide_eq_true.
  split; [intros [[-> ->] ->]; done | intros [= -> -> ->]; done].
Qed.

Lemma State_lt_spec s t :
  State.lt s t = true ↔
    State.x s < State.x t
    ∨ (State.x s = State.x t ∧ State.y s < State.y t)
    ∨ (State.x s = State.x t ∧ State.y s = State.y t
       ∧ State.coins_collected s ⊂ State.coins_collected t).
Proof.
  unfold State.lt.
  repeat case_bool_decide; simpl;
    rewrite ?Z.ltb_lt, ?bool_decide_eq_true.
  all: try (intuition (done || lia)).
  exfalso.
  match goal with
  | H : _ ⊂ _, E : State.coins_collected _ = _ |- _ =>
      destruct H as [_ H]; apply H; by rewrite E
  end.
Qed.

Lemma State_lt_irrefl s : State.lt s s = false.
Proof.
  apply not_true_iff_false. rewrite State_lt_spec.
  intros [?|[[]|(_ & _ & [_ H])]]; try lia. by apply H.
Qed.

Lemma State_lt_trans s t u :
  State.lt s t = true → State.lt t u = true → State.lt s u = true.
Proof.
  rewrite !State_lt_spec.
  intros [?|[[]|(? & ? & ?)]] [?|[[]|(? & ? & ?)]];
    try (left; lia); try (right; left; lia).
  right; right. split; [lia|]. split; [lia|].
  eapply strict_trans_l; [done|]. by apply strict_include.
Qed.

Lemma State_lt_asym s t : State.lt s t = true → State.lt t s = false.
Proof.
  intros H. apply not_true_iff_false. intros H'.
  pose proof (State_lt_trans _ _ _ H H') as Hs.
  by rewrite State_lt_irrefl in Hs.
Qed.

(** C2 (as stated, refuted): two distinct states of which neither is less
    than the other.  They stand on the same cell and hold the coin sets
    [{0}] and [{1}], which [frozenset.__lt__] (proper inclusion) does not
    order. *)
Lemma State_lt_not_total :
  state_with_coin0 ≠ state_with_coin1
  ∧ State.lt state_with_coin0 state_with_coin1 = false
  ∧ State.lt state_with_coin1 state_with_coin0 = false.
Proof.
  split; [|split; by vm_compute].
  intros H. apply (f_equal State.coins_collected) in H. simpl in H.
  assert (Hin : (0:Z) ∈ ({[1]} : gset Z)) by (rewrite <- H; set_solver).
  set_solver.
Qed.

(** C2 (amended): [State.__lt__] is the lexicographic order on
    [(x, y, coins_collected)] with the integers compared by [<] and the coin
    sets by proper inclusion.  It is a strict partial order; of two
    distinct states that differ in [x] or [y], or whose coin sets are
    nested, exactly one is less than the other; two states on one cell
    whose coin sets are not nested are unordered.  [__gt__], [__le__],
    [__ge__] and [__eq__] agree with it. *)
Theorem State_lt_partial_order s t u :
  (State.lt s t = true ↔
     State.x s < State.x t
     ∨ (State.x s = State.x t ∧ State.y s < State.y t)
     ∨ (State.x s = State.x t ∧ State.y s = State.y t
        ∧ State.coins_collected s ⊂ State.coins_collected t))
  ∧ State.lt s s = false
  ∧ (State.lt s t = true → State.lt t u = true → State.lt s u = true)
  ∧ (s ≠ t →
     State.x s ≠ State.x t ∨ State.y s ≠ State.y t
     ∨ State.coins_collected s ⊆ State.coins_collected t
     ∨ State.coins_collected t ⊆ State.coins_collected s →
     State.lt s t = negb (State.lt t s))
  ∧ (State.x s = State.x t → State.y s = State.y t →
     State.coins_collected s ⊈ State.coins_collected t →
     State.coins_collected t ⊈ State.coins_collected s →
     State.lt s t = false ∧ State.lt t s = false)
  ∧ State.gt s t = State.lt t s
  ∧ State.le s t = State.lt s t || State.eq s t
  ∧ State.ge s t = State.le t s
  ∧ (State.eq s t = true ↔ s = t).
Proof.
  split; [apply State_lt_spec|].
  split; [apply State_lt_irrefl|].
  split; [apply State_lt_trans|].
  split.
  { intros Hne Hcmp.
    destruct (State.lt t s) eqn:Hts; simpl.
    - by apply State_lt_asym.
    - apply not_true_iff_false in Hts. rewrite State_lt_spec in Hts.
      apply State_lt_spec.
      destruct (Z.lt_trichotomy (State.x s) (State.x t)) as [?|[Hx|?]];
        [by left| |exfalso; apply Hts; left; lia].
      destruct (Z.lt_trichotomy (State.y s) (State.y t)) as [?|[Hy|?]];
        [right; by left| |exfalso; apply Hts; right; left; lia].
      right; right. split; [done|]. split; [done|].
      assert (Hc : State.coins_collected s ≠ State.coins_collected t).
      { intros Hc. apply Hne. destruct s, t; simpl in *. by subst. }
      destruct Hcmp as [?|[?|[Hsub|Hsub]]]; [done|done| |].
      + split; [done|]. intros Hsub'. apply Hc. by apply (anti_symm (⊆)).
      + exfalso. apply Hts. right; right. split; [done|]. split; [done|].
        split; [done|]. intros Hsub'. apply Hc. by apply (anti_symm (⊆)). }
  split.
  { intros Hx Hy Hst Hts. split; apply not_true_iff_false;
      rewrite State_lt_spec; intros [?|[[]|(_ & _ & [])]]; try lia; done. }
  split.
  { unfold State.gt, State.lt. rewrite !Z.gtb_ltb.
    rewrite (bool_decide_ext (State.x s = State.x t) (State.x t = State.x s))
      by done.
    rewrite (bool_decide_ext (State.y s = State.y t) (State.y t = State.y s))
      by done.
    rewrite (bool_decide_ext (State.coins_collected s = State.coins_collected t)
               (State.coins_collected t = State.coins_collected s)) by done.
    done. }
  split.
  { unfold State.le, State.lt, State.eq.
    repeat case_bool_decide; simpl; rewrite ?orb_false_r, ?orb_true_r; try done.
    all: try (apply eq_true_iff_eq; rewrite Z.leb_le, Z.ltb_lt; lia).
    - exfalso. match goal with H : ¬ _ ⊂ _ |- _ => apply H end.
      split; [done|]. intros ?.
      match goal with H : _ ≠ _ |- _ => apply H end.
      by apply (anti_symm (⊆)).
    - exfalso. match goal with H : ¬ _ ⊆ _ |- _ => apply H end.
      match goal with H : _ ⊂ _ |- _ => by destruct H end. }
  split.
  { unfold State.ge, State.le. rewrite !Z.geb_leb.
    rewrite (bool_decide_ext (State.x s = State.x t) (State.x t = State.x s))
      by done.
    rewrite (bool_decide_ext (State.y s = State.y t) (State.y t = State.y s))
      by done.
    rewrite (bool_decide_ext (State.coins_collected s = State.coins_collected t)
               (State.coins_collected t = State.coins_collected s)) by done.
    done. }
  apply State_eq_spec.
Qed.
End State_order.

(** ** The order on search nodes and the open list *)

Section SearchNode_order.
Implicit Types a b : SearchNode.t.

Lemma SearchNode_lt_spec a b :
  SearchNode.lt a b = true ↔
    SearchNode.get_f_value a < SearchNode.get_f_value b
    ∨ (SearchNode.get_f_value a = SearchNode.get_f_value b
       ∧ SearchNode.g a < SearchNode.g b)
    ∨ (SearchNode.get_f_value a = SearchNode.get_f_value b
       ∧ SearchNode.g a = SearchNode.g b
       ∧ State.lt (SearchNode.state a) (SearchNode.state b) = true).
Proof.
  unfold SearchNode.lt.
  do 2 (case_bool_decide; simpl; rewrite ?Z.ltb_lt; [|lia]).
  destruct (State.eq _ _) eqn:He; simpl.
  - apply State_eq_spec in He. rewrite He, State_lt_irrefl.
    intuition (done || lia).
  - intuition (done || lia).
Qed.

Lemma SearchNode_lt_asym a b :
  SearchNode.lt a b = true → SearchNode.lt b a = false.
Proof.
  intros H. apply not_true_iff_false. revert H.
  rewrite !SearchNode_lt_spec.
  intros [?|[[]|(? & ? & H)]] [?|[[]|(? & ? & H')]]; try lia.
  apply State_lt_asym in H. congruence.
Qed.

(** Pushing two nodes on an empty open list and popping once. *)
Lemma heappop_two a b :
  SearchNode.lt a b = true → popped_first a b.
Proof.
  intros Hab. pose proof (SearchNode_lt_asym _ _ Hab) as Hba.
  unfold popped_first, heapq.heappush, heapq._siftdown; simpl.
  rewrite Hab, Hba. done.
Qed.

(** C1 (as stated, refuted): [node_child] and [node_root] have the same
    f-value, 1, and [node_child] has the larger g (1 against 0); yet
    [node_root] is the one that compares less and that is popped first.
    Nor are the remaining ties broken by the order of the states in every
    open list: in [four_nodes] the node for the coins [{0}] compares less
    than the node for [{0, 2}], with the same f-value and the same g, and
    the latter is the one that is popped. *)
Lemma larger_g_not_popped_first :
  SearchNode.get_f_value node_child = SearchNode.get_f_value node_root
  ∧ SearchNode.g node_child > SearchNode.g node_root
  ∧ SearchNode.lt node_child node_root = false
  ∧ popped_first node_root node_child
  ∧ ¬ popped_first node_child node_root
  ∧ node_coins {[0]} ∈ four_nodes
  ∧ SearchNode.lt (node_coins {[0]}) (node_coins {[0; 2]}) = true
  ∧ heapq.heappop SearchNode.lt four_nodes
    = Some (node_coins {[0; 2]},
            [node_coins {[3]}; node_coins {[1]}; node_coins {[0]}]).
Proof.
  split; [done|]. split; [done|]. split; [done|].
  split; [by split|].
  split; [intros [H _]; vm_compute in H; discriminate H|].
  assert (Hfour : four_nodes
                  = [node_coins {[0; 2]}; node_coins {[1]}; node_coins {[3]};
                     node_coins {[0]}]) by reflexivity.
  split; [rewrite Hfour; do 3 right; left|].
  split; [reflexivity|]. rewrite Hfour. reflexivity.
Qed.
End SearchNode_order.

(** ** Loops *)

Lemma elem_of_py_range (n i : Z) : i ∈ py_range n ↔ 0 ≤ i < n.
Proof. unfold py_range. rewrite elem_of_seqZ. lia. Qed.

(** ** Reading a well-formed grid *)

Section grid_reading.
Context (g : Grid.t) (Hwf : Grid_wf g).

Lemma py_getitem_in_range {A : Type} (l : list A) (i : Z) :
  0 ≤ i < Z.of_nat (length l) →
  ∃ a, py_getitem l i = Ok a ∧ l !! Z.to_nat i = Some a.
Proof.
  intros H. unfold py_getitem.
  destruct (Z.ltb_spec i 0); [lia|].
  destruct (Z.leb_spec 0 i); [|lia].
  destruct (Z.ltb_spec i (Z.of_nat (length l))); [|lia]. simpl.
  destruct (lookup_lt_is_Some_2 l (Z.to_nat i)) as [a Ha]; [lia|].
  rewrite Ha. eauto.
Qed.

Lemma within_boundaries_spec (x y : Z) :
  Grid.is_within_boundaries g x y = true
  ↔ 0 ≤ x < Grid.width g ∧ 0 ≤ y < Grid.height g.
Proof.
  unfold Grid.is_within_boundaries.
  rewrite !andb_true_iff, !Z.geb_le, !Z.ltb_lt. lia.
Qed.

Lemma cell_at_in_bounds (x y : Z) :
  Grid.is_within_boundaries g x y = true → ∃ c, Grid.cell_at g x y = Ok c.
Proof.
  rewrite within_boundaries_spec. intros [Hx Hy].
  destruct Hwf as [Hw Hh]. unfold Grid.cell_at.
  destruct (py_getitem_in_range (Grid.grid g) x) as (col & -> & Hcol); [lia|].
  simpl. rewrite Forall_forall in Hh.
  destruct (py_getitem_in_range col y) as (c & -> & _); [|eauto].
  rewrite (Hh col); [lia|]. by eapply list_elem_of_lookup_2.
Qed.

Lemma lookup_in_bounds (x y : Z) :
  Grid.is_within_boundaries g x y = true →
  Grid.lookup g x y = Grid.cell_at g x y.
Proof. intros H. unfold Grid.lookup. by rewrite H. Qed.
End grid_reading.

Section more_loops.
Context {A R S : Type}.

Lemma for_return_total (l : list A) (body : A → result (option R)) :
  (∀ a, a ∈ l → ∃ r, body a = Ok r) → ∃ r, for_return l body = Ok r.
Proof.
  induction l as [|a l IH]; intros H; simpl; [eauto|].
  destruct (H a) as [[v|] ->]; [constructor|simpl; eauto|simpl].
  apply IH. intros b Hb. apply H. by constructor.
Qed.

Lemma for_return_inv (l : list A) (body : A → result (option R)) r :
  for_return l body = Ok r →
  match r with
  | None => ∀ a, a ∈ l → body a = Ok None
  | Some v =>
      ∃ l1 a l2, l = l1 ++ a :: l2
                 ∧ (∀ b, b ∈ l1 → body b = Ok None)
                 ∧ body a = Ok (Some v)
  end.
Proof.
  revert r. induction l as [|a l IH]; intros r; simpl.
  - intros [= <-]. intros a Ha. by apply not_elem_of_nil in Ha.
  - destruct (body a) as [[v|]|e] eqn:Ha; simpl; [| |done].
    + intros [= <-]. exists [], a, l. split; [done|]. split; [|done].
      intros b Hb. by apply not_elem_of_nil in Hb.
    + intros Hr. specialize (IH r Hr). destruct r as [v|].
      * destruct IH as (l1 & b & l2 & -> & Hl1 & Hb).
        exists (a :: l1), b, l2. split; [done|]. split; [|done].
        intros c [->|Hc]%elem_of_cons; auto.
      * intros b [->|Hb]%elem_of_cons; auto.
Qed.

(** A loop whose body keeps an invariant and never raises. *)
Lemma for_fold_inv (P : S → Prop) (l : list A) (body : S → A → result S)
    (acc : S) :
  P acc →
  (∀ acc a, a ∈ l → P acc →
     ∃ acc', body acc a = Ok acc' ∧ P acc') →
  ∃ r, for_fold l body acc = Ok r ∧ P r.
Proof.
  revert acc. induction l as [|a l IH]; intros acc Hacc H; simpl; [eauto|].
  destruct (H acc a) as (acc' & -> & Hacc'); [constructor|done|]. simpl.
  apply IH; [done|]. intros acc'' b Hb. apply H. by constructor.
Qed.
End more_loops.

(** A loop whose body appends to the list it accumulates. *)
Lemma for_fold_append {A B : Type} (l : list A)
    (body : list B → A → result (list B)) (f : A → list B) (acc : list B) :
  (∀ a acc, a ∈ l → body acc a = Ok (acc ++ f a)) →
  for_fold l body acc = Ok (acc ++ l ≫= f).
Proof.
  revert acc. induction l as [|a l IH]; intros acc H; simpl.
  - by rewrite app_nil_r.
  - rewrite (H a) by constructor. simpl. rewrite IH.
    + by rewrite <- app_assoc.
    + intros b acc' Hb. apply H. by constructor.
Qed.

Lemma py_range_prefix (n a : Z) (l1 l2 : list Z) :
  py_range n = l1 ++ a :: l2 → ∀ b, b ∈ l1 ↔ 0 ≤ b < a.
Proof.
  unfold py_range. intros Hl.
  assert (Hi : ∀ i c, (l1 ++ a :: l2) !! i = Some c → c = Z.of_nat i).
  { intros i c. rewrite <- Hl, lookup_seqZ. lia. }
  assert (Ha : a = Z.of_nat (length l1)).
  { apply Hi. by rewrite list_lookup_middle. }
  intros b. split.
  - intros (i & Hb)%list_elem_of_lookup_1.
    pose proof (lookup_lt_Some _ _ _ Hb).
    rewrite (Hi i b); [lia|]. by rewrite lookup_app_l.
  - intros Hb.
    destruct (lookup_lt_is_Some_2 l1 (Z.to_nat b)) as [c Hc]; [lia|].
    assert (c = b) as ->.
    { rewrite (Hi (Z.to_nat b) c); [lia|]. rewrite lookup_app_l; [done|lia]. }
    by eapply list_elem_of_lookup_2.
Qed.

(** ** Grid queries on a well-formed grid *)

Section grid_queries.
Context (g : Grid.t) (Hwf : Grid_wf g).

Lemma is_coin_in_bounds (x y : Z) :
  Grid.is_within_boundaries g x y = true →
  ∃ c, Grid.cell_at g x y = Ok c
       ∧ Grid.is_coin g x y
         = Ok (match c with Int _ => true | Sym _ => false end)
       ∧ Grid.is_wall g x y = Ok (bool_decide (c = Grid.WALL_SYMBOL)).
Proof.
  intros Hb. destruct (cell_at_in_bounds g Hwf x y Hb) as [c Hc].
  exists c. unfold Grid.is_coin, Grid.is_wall.
  rewrite lookup_in_bounds, Hc by done. done.
Qed.

Lemma get_coin_locations_eq :
  Grid.get_coin_locations g = Ok (coin_cells g).
Proof.
  unfold Grid.get_coin_locations, coin_cells.
  rewrite (for_fold_append _ _ (coin_cells_of_column g)); [done|].
  intros x acc Hx%elem_of_py_range. unfold coin_cells_of_column.
  apply for_fold_append. intros y acc' Hy%elem_of_py_range.
  destruct (is_coin_in_bounds x y) as (c & -> & -> & _).
  { apply within_boundaries_spec. lia. }
  simpl. destruct c; [by rewrite app_nil_r|done].
Qed.

Lemma elem_of_coin_cells (x y : Z) :
  (x, y) ∈ coin_cells g
  ↔ Grid.is_within_boundaries g x y = true
    ∧ ∃ n, Grid.cell_at g x y = Ok (Int n).
Proof.
  unfold coin_cells, coin_cells_of_column.
  rewrite list_elem_of_bind. setoid_rewrite list_elem_of_bind.
  setoid_rewrite elem_of_py_range. rewrite within_boundaries_spec.
  split.
  - intros (x' & (y' & Hin & Hy) & Hx).
    destruct (Grid.cell_at g x' y') as [[|n]|] eqn:Hc;
      try by apply not_elem_of_nil in Hin.
    apply list_elem_of_singleton in Hin as [= -> ->]. eauto.
  - intros ([Hx Hy] & n & Hc). exists x. split; [|done].
    exists y. split; [|done]. rewrite Hc. by apply list_elem_of_singleton.
Qed.

(** The inner loop of [get_initial_state] on column [x]. *)
Lemma initial_state_column (x : Z) :
  0 ≤ x < Grid.width g →
  ∃ r,
    for_return (py_range (Grid.height g)) (λ y,
      let* c := Grid.cell_at g x y in
      if bool_decide (c = Grid.AGENT_SYMBOL)
      then Ok (Some (State.mk x y ∅))
      else Ok None) = Ok r
    ∧ match r with
      | None => ∀ y, 0 ≤ y < Grid.height g →
                     Grid.cell_at g x y ≠ Ok Grid.AGENT_SYMBOL
      | Some s =>
          ∃ y, s = State.mk x y ∅ ∧ 0 ≤ y < Grid.height g
               ∧ Grid.cell_at g x y = Ok Grid.AGENT_SYMBOL
               ∧ ∀ y', 0 ≤ y' < y →
                       Grid.cell_at g x y' ≠ Ok Grid.AGENT_SYMBOL
      end.
Proof.
  intros Hx.
  set (body := λ y : Z, bind (Grid.cell_at g x y) _).
  assert (Hbody : ∀ y, 0 ≤ y < Grid.height g →
            ∃ c, Grid.cell_at g x y = Ok c
                 ∧ body y = if bool_decide (c = Grid.AGENT_SYMBOL)
                            then Ok (Some (State.mk x y ∅)) else Ok None).
  { intros y Hy. destruct (cell_at_in_bounds g Hwf x y) as [c Hc].
    { apply within_boundaries_spec. lia. }
    exists c. split; [done|]. unfold body. by rewrite Hc. }
  assert (Hnone : ∀ y, 0 ≤ y < Grid.height g → body y = Ok None →
            Grid.cell_at g x y ≠ Ok Grid.AGENT_SYMBOL).
  { intros y Hy Hn. destruct (Hbody y Hy) as (c & Hc & Hb).
    rewrite Hc. rewrite Hb in Hn. case_bool_decide; [done|]. congruence. }
  destruct (for_return_total (py_range (Grid.height g)) body) as [r Hr].
  { intros y Hy%elem_of_py_range. destruct (Hbody y Hy) as (c & _ & ->).
    case_bool_decide; eauto. }
  exists r. split; [done|].
  apply for_return_inv in Hr. destruct r as [s|].
  - destruct Hr as (l1 & y & l2 & Hl & Hl1 & Hy).
    assert (Hyr : 0 ≤ y < Grid.height g).
    { apply elem_of_py_range. rewrite Hl. apply elem_of_app. right.
      constructor. }
    destruct (Hbody y Hyr) as (c & Hc & Hb). rewrite Hb in Hy.
    case_bool_decide; [|done]. injection Hy as <-. subst c.
    exists y. split; [done|]. split; [done|]. split; [done|].
    intros y' Hy'. apply Hnone; [lia|]. apply Hl1.
    by apply (py_range_prefix _ _ _ _ Hl).
  - intros y Hy. apply Hnone; [done|]. apply Hr. by apply elem_of_py_range.
Qed.

Lemma get_initial_state_cases :
  ∃ r, Grid.get_initial_state g = Ok r
    ∧ match r with
      | None => ¬ has_start_cell g
      | Some s =>
          s = State.mk (State.x s) (State.y s) ∅
          ∧ Grid.is_within_boundaries g (State.x s) (State.y s) = true
          ∧ Grid.cell_at g (State.x s) (State.y s) = Ok Grid.AGENT_SYMBOL
          ∧ ∀ x' y', Grid.is_within_boundaries g x' y' = true →
              Grid.cell_at g x' y' = Ok Grid.AGENT_SYMBOL →
              State.x s < x' ∨ (State.x s = x' ∧ State.y s ≤ y')
      end.
Proof.
  unfold Grid.get_initial_state.
  set (body := λ x : Z, for_return _ _).
  destruct (for_return_total (py_range (Grid.width g)) body) as [r Hr].
  { intros x Hx%elem_of_py_range.
    destruct (initial_state_column x Hx) as (r & Hr & _). eauto. }
  exists r. split; [done|].
  apply for_return_inv in Hr. destruct r as [s|].
  - destruct Hr as (l1 & x & l2 & Hl & Hl1 & Hx).
    assert (Hxr : 0 ≤ x < Grid.width g).
    { apply elem_of_py_range. rewrite Hl. apply elem_of_app. right.
      constructor. }
    destruct (initial_state_column x Hxr) as (r & Hr & Hspec).
    unfold body in Hx. rewrite Hx in Hr. injection Hr as <-.
    destruct Hspec as (y & -> & Hy & Hc & Hfirst). simpl.
    split; [done|]. split; [apply within_boundaries_spec; lia|].
    split; [done|].
    intros x' y' [Hx' Hy']%within_boundaries_spec Hc'.
    destruct (Z.lt_trichotomy x x') as [?|[<-|Hlt]]; [by left| |].
    + right. split; [done|].
      destruct (Z.le_gt_cases y y') as [?|Hlt]; [done|].
      exfalso. by apply (Hfirst y'); [lia|].
    + exfalso. assert (Hin : x' ∈ l1)
        by (apply (py_range_prefix _ _ _ _ Hl); lia).
      apply Hl1 in Hin.
      destruct (initial_state_column x' Hx') as (r & Hr & Hspec).
      unfold body in Hin. rewrite Hin in Hr. injection Hr as <-.
      by apply (Hspec y').
  - intros (x & y & [Hx Hy]%within_boundaries_spec & Hc).
    assert (Hin : body x = Ok None) by (apply Hr; by apply elem_of_py_range).
    destruct (initial_state_column x Hx) as (r & Hr' & Hspec).
    unfold body in Hin. rewrite Hin in Hr'. injection Hr' as <-.
    by apply (Hspec y).
Qed.
End grid_queries.

(** ** The constructor builds well-formed grids *)

Lemma list_comp_length {A B : Type} (l : list A) (f : A → result B)
    (r : list B) :
  list_comp l f = Ok r → length r = length l.
Proof.
  revert r. induction l as [|a l IH]; intros r; simpl.
  - by intros [= <-].
  - destruct (f a); [|done]. simpl.
    destruct (list_comp l f) as [bs|]; [|done]. simpl.
    intros [= <-]. simpl. by rewrite (IH bs).
Qed.

Lemma list_comp_Forall {A B : Type} (P : B → Prop) (l : list A)
    (f : A → result B) (r : list B) :
  (∀ a b, f a = Ok b → P b) → list_comp l f = Ok r → Forall P r.
Proof.
  intros Hf. revert r. induction l as [|a l IH]; intros r; simpl.
  - intros [= <-]. constructor.
  - destruct (f a) as [b|] eqn:Hb; [|done]. simpl.
    destruct (list_comp l f) as [bs|]; [|done]. simpl.
    intros [= <-]. constructor; [by eapply Hf|by apply IH].
Qed.

Lemma Grid_init_wf (inv : option (list (list cell))) (g : Grid.t) :
  Grid.__init__ inv = Ok g → Grid_wf g.
Proof.
  unfold Grid.__init__. destruct inv as [inv|].
  2: { intros [= <-]. split; [done|constructor]. }
  destruct (py_getitem inv 0) as [row0|]; [|done]. cbn [bind].
  destruct (list_comp _ _) as [grid|] eqn:Hgrid; [|done]. cbn [bind].
  intros [= <-]. split; simpl.
  - apply list_comp_length in Hgrid. rewrite Hgrid.
    unfold py_range. rewrite length_seqZ. lia.
  - eapply list_comp_Forall; [|exact Hgrid]. simpl.
    intros x col Hcol%list_comp_length. rewrite Hcol.
    unfold py_range. rewrite length_seqZ. lia.
Qed.

(** ** The initial state *)

Lemma sample_grid_wf : Grid_wf sample_grid.
Proof. by apply (Grid_init_wf (Some sample_rows)). Qed.

Lemma grid_no_start_wf : Grid_wf grid_no_start.
Proof. split; [done|]. repeat constructor. Qed.

Lemma grid_no_start_has_none : ¬ has_start_cell grid_no_start.
Proof.
  intros (x & y & [Hx Hy]%within_boundaries_spec & Hc). simpl in *.
  assert (x = 0) as -> by lia. assert (y = 0) as -> by lia. discriminate Hc.
Qed.

(** C3 (as stated, refuted): on a well-formed grid of one empty cell, which
    has no start cell, [get_initial_state] raises nothing: it returns
    [None]. *)
Lemma get_initial_state_no_error :
  Grid_wf grid_no_start
  ∧ ¬ has_start_cell grid_no_start
  ∧ Grid.get_initial_state grid_no_start = Ok None.
Proof.
  split; [apply grid_no_start_wf|]. split; [apply grid_no_start_has_none|done].
Qed.

(** C3 (amended): on a grid without a start cell [get_initial_state] returns
    [None] and raises nothing; [astar_search] then ends with an
    [AssertionError] before its loop is entered.  On a grid with a start
    cell it returns the state at the first start cell in scanning order
    (columns left to right, each top down) with an empty set of collected
    coins. *)
Theorem get_initial_state_spec (g : Grid.t) (Hwf : Grid_wf g) :
  (¬ has_start_cell g →
     Grid.get_initial_state g = Ok None
     ∧ ∀ rounds heuristic,
         astar_search rounds g heuristic = Some (Raise AssertionError))
  ∧ (has_start_cell g →
     ∃ x y,
       Grid.get_initial_state g = Ok (Some (State.mk x y ∅))
       ∧ Grid.is_within_boundaries g x y = true
       ∧ Grid.cell_at g x y = Ok Grid.AGENT_SYMBOL
       ∧ ∀ x' y', Grid.is_within_boundaries g x' y' = true →
           Grid.cell_at g x' y' = Ok Grid.AGENT_SYMBOL →
           x < x' ∨ (x = x' ∧ y ≤ y')).
Proof.
  destruct (get_initial_state_cases g Hwf) as (r & Hr & Hspec).
  destruct r as [s|].
  - destruct Hspec as (Hs & Hb & Hc & Hfirst).
    split.
    { intros Hno. exfalso. apply Hno. by exists (State.x s), (State.y s). }
    intros _. exists (State.x s), (State.y s). by rewrite <- Hs.
  - split; [|done]. intros _. split; [done|].
    intros rounds heuristic. unfold astar_search, astar_setup.
    rewrite Hr, get_coin_locations_eq by done. done.
Qed.

Lemma sample_grid_has_start : has_start_cell sample_grid.
Proof. exists 3, 1. split; reflexivity. Qed.

(** The sample grid of the main program: its agent stands at [(3, 1)]. *)
Lemma get_initial_state_spec_witness :
  Grid_wf sample_grid
  ∧ has_start_cell sample_grid
  ∧ ∃ x y, Grid.get_initial_state sample_grid = Ok (Some (State.mk x y ∅))
           ∧ Grid.cell_at sample_grid x y = Ok Grid.AGENT_SYMBOL.
Proof.
  split; [apply sample_grid_wf|]. split; [apply sample_grid_has_start|].
  destruct (get_initial_state_spec sample_grid sample_grid_wf) as [_ H].
  destruct (H sample_grid_has_start) as (x & y & Hs & _ & Hc & _).
  exists x, y. split; [exact Hs | exact Hc].
Defined.

(** ** Successor states *)

Section successors.
Context (g : Grid.t) (Hwf : Grid_wf g).

Lemma successor_step_eq (s : State.t) (i j : Z) (res : list State.t) :
  Z.abs i + Z.abs j = 1 →
  Grid.successor_step g s i j res = Ok (res ++ neighbour_successor g s i j).
Proof.
  intros Hij. unfold Grid.successor_step, neighbour_successor.
  assert (i * j = 0) by nia.
  rewrite (bool_decide_eq_true_2 (i * j = 0)) by done.
  assert (bool_decide (i = 0) && bool_decide (j = 0) = false) as ->.
  { apply andb_false_iff. rewrite !bool_decide_eq_false. lia. }
  simpl.
  destruct (Grid.is_within_boundaries g _ _) eqn:Hb;
    [|by rewrite app_nil_r].
  destruct (is_coin_in_bounds g Hwf _ _ Hb) as (c & -> & -> & ->). simpl.
  case_bool_decide; simpl; [by rewrite app_nil_r|].
  destruct c; done.
Qed.

Lemma successor_step_skip (s : State.t) (i j : Z) (res : list State.t) :
  Z.abs i + Z.abs j ≠ 1 → -1 ≤ i ≤ 1 → -1 ≤ j ≤ 1 →
  Grid.successor_step g s i j res = Ok res.
Proof.
  intros Hij Hi Hj. unfold Grid.successor_step.
  destruct (decide (i = 0)) as [->|]; destruct (decide (j = 0)) as [->|].
  - done.
  - lia.
  - lia.
  - assert (i * j ≠ 0) by nia.
    rewrite (bool_decide_eq_false_2 (i * j = 0)) by done.
    by rewrite orb_true_r.
Qed.

Lemma get_successor_states_eq (s : State.t) :
  Grid.get_successor_states g s
  = Ok (neighbour_successor g s (-1) 0 ++ neighbour_successor g s 0 (-1)
        ++ neighbour_successor g s 0 1 ++ neighbour_successor g s 1 0).
Proof.
  unfold Grid.get_successor_states.
  change Grid.offsets with [-1; 0; 1]. cbn [for_fold].
  rewrite (successor_step_skip s (-1) (-1)) by lia. cbn [bind].
  rewrite (successor_step_eq s (-1) 0) by lia. cbn [bind].
  rewrite (successor_step_skip s (-1) 1) by lia. cbn [bind].
  rewrite (successor_step_eq s 0 (-1)) by lia. cbn [bind].
  rewrite (successor_step_skip s 0 0) by lia. cbn [bind].
  rewrite (successor_step_eq s 0 1) by lia. cbn [bind].
  rewrite (successor_step_skip s 1 (-1)) by lia. cbn [bind].
  rewrite (successor_step_eq s 1 0) by lia. cbn [bind].
  rewrite (successor_step_skip s 1 1) by lia. cbn [bind].
  by rewrite app_nil_l, <- !app_assoc.
Qed.

Lemma elem_of_neighbour_successor (s t : State.t) (i j : Z) :
  t ∈ neighbour_successor g s i j
  ↔ State.x t = State.x s + i ∧ State.y t = State.y s + j
    ∧ Grid.is_within_boundaries g (State.x t) (State.y t) = true
    ∧ ∃ c, Grid.cell_at g (State.x t) (State.y t) = Ok c
           ∧ c ≠ Grid.WALL_SYMBOL
           ∧ State.coins_collected t
             = match c with
               | Int n => {[n]} ∪ State.coins_collected s
               | Sym _ => State.coins_collected s
               end.
Proof.
  unfold neighbour_successor. split.
  - destruct (Grid.is_within_boundaries g _ _) eqn:Hb;
      [|by intros ?%not_elem_of_nil].
    destruct (Grid.cell_at g _ _) as [c|] eqn:Hc;
      [|by intros ?%not_elem_of_nil].
    case_bool_decide; [by intros ?%not_elem_of_nil|].
    intros ->%list_elem_of_singleton. simpl. eauto 10.
  - intros (Hx & Hy & Hb & c & Hc & Hw & Hcoins).
    rewrite <- Hx, <- Hy, Hb, Hc. rewrite bool_decide_eq_false_2 by done.
    apply list_elem_of_singleton. destruct t; simpl in *. by subst.
Qed.

Lemma NoDup_neighbour_successor (s : State.t) (i j : Z) :
  NoDup (neighbour_successor g s i j).
Proof.
  unfold neighbour_successor.
  repeat (case_match; try apply NoDup_nil_2); apply NoDup_singleton.
Qed.
Lemma elem_of_successors (s t : State.t) :
  t ∈ neighbour_successor g s (-1) 0 ++ neighbour_successor g s 0 (-1)
      ++ neighbour_successor g s 0 1 ++ neighbour_successor g s 1 0 ↔
  Z.abs (State.x t - State.x s) + Z.abs (State.y t - State.y s) = 1
  ∧ Grid.is_within_boundaries g (State.x t) (State.y t) = true
  ∧ ∃ c, Grid.cell_at g (State.x t) (State.y t) = Ok c
         ∧ c ≠ Grid.WALL_SYMBOL
         ∧ State.coins_collected t
           = match c with
             | Int n => {[n]} ∪ State.coins_collected s
             | Sym _ => State.coins_collected s
             end.
Proof.
  rewrite !elem_of_app, !elem_of_neighbour_successor.
  split.
  - intros [H|[H|[H|H]]]; destruct H as (Hx & Hy & Hb & Hc);
      (split; [lia|done]).
  - intros (Hd & Hb & Hc).
    assert (Hcases :
      (State.x t = State.x s + -1 ∧ State.y t = State.y s + 0)
      ∨ (State.x t = State.x s + 0 ∧ State.y t = State.y s + -1)
      ∨ (State.x t = State.x s + 0 ∧ State.y t = State.y s + 1)
      ∨ (State.x t = State.x s + 1 ∧ State.y t = State.y s + 0)) by lia.
    destruct Hcases as [[]|[[]|[[]|[]]]]; [left|right; left|
      right; right; left|right; right; right]; done.
Qed.
End successors.

(** C4: on a well-formed grid [get_successor_states] returns, without
    repetition, exactly the states [t] on a cell next to [s] along an axis
    (distance 1, so no diagonal) that is within the boundaries and not a
    wall, with the coins of [s] and, when the cell holds a coin, that
    coin's id; so the coins of [s] are among those of every successor. *)
Theorem get_successor_states_spec (g : Grid.t) (Hwf : Grid_wf g) (s : State.t) :
  ∃ succs,
    Grid.get_successor_states g s = Ok succs
    ∧ NoDup succs
    ∧ (∀ t, t ∈ succs ↔
         Z.abs (State.x t - State.x s) + Z.abs (State.y t - State.y s) = 1
         ∧ Grid.is_within_boundaries g (State.x t) (State.y t) = true
         ∧ Grid.is_wall g (State.x t) (State.y t) = Ok false
         ∧ ∃ c, Grid.cell_at g (State.x t) (State.y t) = Ok c
                ∧ State.coins_collected t
                  = match c with
                    | Int n => {[n]} ∪ State.coins_collected s
                    | Sym _ => State.coins_collected s
                    end)
    ∧ (∀ t, t ∈ succs →
         State.coins_collected s ⊆ State.coins_collected t).
Proof.
  eexists. split; [by apply get_successor_states_eq|].
  pose proof (elem_of_successors g s) as Hmem.
  split; [|split].
  - rewrite !NoDup_app. repeat split; try apply NoDup_neighbour_successor.
    all: intros t Ht; rewrite ?elem_of_app;
      rewrite elem_of_neighbour_successor in Ht by done;
      rewrite !elem_of_neighbour_successor by done; lia.
  - intros t. rewrite Hmem. split.
    + intros (Hd & Hb & c & Hc & Hw & Hcoins). split; [done|]. split; [done|].
      split; [|eauto].
      destruct (is_coin_in_bounds g Hwf _ _ Hb) as (c' & Hc' & _ & ->).
      rewrite Hc in Hc'. injection Hc' as <-.
      by rewrite bool_decide_eq_false_2.
    + intros (Hd & Hb & Hw & c & Hc & Hcoins). split; [done|]. split; [done|].
      exists c. split; [done|]. split; [|done].
      destruct (is_coin_in_bounds g Hwf _ _ Hb) as (c' & Hc' & _ & Hw').
      rewrite Hc in Hc'. injection Hc' as <-. rewrite Hw in Hw'.
      injection Hw' as Hw'. symmetry in Hw'.
      by apply bool_decide_eq_false in Hw'.
  - intros t (_ & _ & c & _ & _ & ->)%Hmem.
    destruct c; [done | apply union_subseteq_r].
Qed.

(** The successors of the initial state of the sample grid. *)
Lemma get_successor_states_spec_witness :
  Grid_wf sample_grid
  ∧ ∃ succs,
      Grid.get_successor_states sample_grid (State.mk 3 1 ∅) = Ok succs
      ∧ NoDup succs.
Proof.
  split; [apply sample_grid_wf|].
  destruct (get_successor_states_spec sample_grid sample_grid_wf
              (State.mk 3 1 ∅)) as (succs & Hs & Hnd & _).
  exists succs. split; [exact Hs | exact Hnd].
Defined.

(** ** Heuristics *)

Section heuristics.
Context (g : Grid.t) (Hwf : Grid_wf g).

Lemma has_collected_at_coin (s : State.t) (x y n : Z) :
  Grid.is_within_boundaries g x y = true →
  Grid.cell_at g x y = Ok (Int n) →
  has_collected_coin_at_location g s x y
  = Ok (bool_decide (n ∈ State.coins_collected s)).
Proof.
  intros Hb Hc. unfold has_collected_coin_at_location, Grid.get_coin_id.
  destruct (is_coin_in_bounds g Hwf x y Hb) as (c & Hc' & -> & _).
  rewrite Hc in Hc'. injection Hc' as <-. simpl.
  by rewrite Hb, Hc.
Qed.

Lemma uncollected_coin_dec (s : State.t) (l : list (Z * Z)) :
  (∀ x y n, (x, y) ∈ l → Grid.cell_at g x y = Ok (Int n) →
     n ∈ State.coins_collected s)
  ∨ (∃ x y n, (x, y) ∈ l ∧ Grid.cell_at g x y = Ok (Int n)
              ∧ n ∉ State.coins_collected s).
Proof.
  induction l as [|[cx cy] l [IH|(x & y & n & Hin & Hc & Hn)]].
  - left. by intros x y n ?%not_elem_of_nil.
  - destruct (Grid.cell_at g cx cy) as [[sym|n]|e] eqn:Hc.
    + left. intros x y n' [[= -> ->]|Hxy]%elem_of_cons Hc'; [congruence|].
      by eapply IH.
    + destruct (decide (n ∈ State.coins_collected s)) as [Hn|Hn].
      * left. intros x y n' [[= -> ->]|Hxy]%elem_of_cons Hc'.
        -- rewrite Hc in Hc'. by injection Hc' as <-.
        -- by eapply IH.
      * right. exists cx, cy, n. split; [constructor|done].
    + left. intros x y n' [[= -> ->]|Hxy]%elem_of_cons Hc'; [congruence|].
      by eapply IH.
  - right. exists x, y, n. split; [by constructor|done].
Qed.

(** The loop of [ManhattanMaxHeuristic] over a list of coin cells. *)
Lemma manhattan_max_loop (s : State.t) (l : list (Z * Z)) (acc : Z) :
  (∀ c, c ∈ l → c ∈ coin_cells g) →
  ∃ m,
    for_fold l (λ maximum '(coin_x, coin_y),
      let* collected :=
        has_collected_coin_at_location g s coin_x coin_y in
      if negb collected
      then Ok (Z.max maximum (manhattan s (coin_x, coin_y)))
      else Ok maximum) acc = Ok m
    ∧ acc ≤ m
    ∧ (∀ x y n, (x, y) ∈ l → Grid.cell_at g x y = Ok (Int n) →
         n ∉ State.coins_collected s → manhattan s (x, y) ≤ m)
    ∧ (m = acc
       ∨ ∃ x y n, (x, y) ∈ l ∧ Grid.cell_at g x y = Ok (Int n)
                  ∧ (n ∉ State.coins_collected s)
                  ∧ manhattan s (x, y) = m).
Proof.
  revert acc. induction l as [|[cx cy] l IH]; intros acc Hl.
  - exists acc. split; [done|]. split; [lia|]. split; [|by left].
    by intros x y n ?%not_elem_of_nil.
  - assert (Hc : (cx, cy) ∈ coin_cells g) by (apply Hl; constructor).
    apply elem_of_coin_cells in Hc as [Hb [n Hn]].
    cbn [for_fold]. rewrite (has_collected_at_coin s cx cy n) by done.
    cbn [bind].
    assert (Hl' : ∀ c, c ∈ l → c ∈ coin_cells g)
      by (intros c Hc; apply Hl; by constructor).
    case_bool_decide as Hin; cbn [negb bind].
    + destruct (IH acc Hl') as (m & -> & Hle & Hub & Hatt).
      exists m. split; [done|]. split; [done|]. split.
      * intros x y n' [[= -> ->]|Hxy]%elem_of_cons Hc' Hn'.
        -- rewrite Hn in Hc'. by injection Hc' as <-.
        -- by eapply Hub.
      * destruct Hatt as [->|(x & y & n' & ? & ? & ? & ?)]; [by left|].
        right. exists x, y, n'. split; [by constructor|done].
    + destruct (IH (Z.max acc (manhattan s (cx, cy))) Hl')
        as (m & -> & Hle & Hub & Hatt).
      exists m. split; [done|]. split; [lia|]. split.
      * intros x y n' [[= -> ->]|Hxy]%elem_of_cons Hc' Hn'; [lia|].
        by eapply Hub.
      * destruct Hatt as [->|(x & y & n' & ? & ? & ? & ?)].
        -- destruct (Z.max_spec acc (manhattan s (cx, cy))) as [[_ ->]|[_ ->]].
           ++ right. exists cx, cy, n. split; [constructor|done].
           ++ by left.
        -- right. exists x, y, n'. split; [by constructor|done].
Qed.
End heuristics.

(** C8: on a well-formed grid [ManhattanMaxHeuristic] returns a
    non-negative integer [m] that bounds the Manhattan distance from the
    state to every coin cell whose id the state has not collected; [m] is
    the distance to one of these cells, or there is none and [m = 0]. *)
Theorem ManhattanMaxHeuristic_spec (g : Grid.t) (Hwf : Grid_wf g) (s : State.t) :
  ∃ m,
    ManhattanMaxHeuristic g s = Ok m
    ∧ 0 ≤ m
    ∧ (∀ x y n, Grid.is_within_boundaries g x y = true →
         Grid.cell_at g x y = Ok (Int n) → n ∉ State.coins_collected s →
         Z.abs (State.x s - x) + Z.abs (State.y s - y) ≤ m)
    ∧ ((∃ x y n, Grid.is_within_boundaries g x y = true
                 ∧ Grid.cell_at g x y = Ok (Int n)
                 ∧ (n ∉ State.coins_collected s)
                 ∧ Z.abs (State.x s - x) + Z.abs (State.y s - y) = m)
       ∨ (m = 0
          ∧ ∀ x y n, Grid.is_within_boundaries g x y = true →
              Grid.cell_at g x y = Ok (Int n) → n ∈ State.coins_collected s)).
Proof.
  unfold ManhattanMaxHeuristic. rewrite get_coin_locations_eq by done.
  cbn [bind].
  destruct (manhattan_max_loop g Hwf s (coin_cells g) 0)
    as (m & -> & Hle & Hub & Hatt); [done|].
  exists m. split; [done|]. split; [done|].
  assert (Hub' : ∀ x y n, Grid.is_within_boundaries g x y = true →
            Grid.cell_at g x y = Ok (Int n) → n ∉ State.coins_collected s →
            Z.abs (State.x s - x) + Z.abs (State.y s - y) ≤ m).
  { intros x y n Hb Hc Hn. apply (Hub x y n); [|done|done].
    apply elem_of_coin_cells; eauto. }
  split; [done|].
  destruct Hatt as [->|(x & y & n & Hin & Hc & Hn & Hm)].
  - destruct (uncollected_coin_dec g s (coin_cells g))
      as [Hall|(x & y & n & Hin & Hc & Hn)].
    + right. split; [done|]. intros x y n Hb Hc.
      apply (Hall x y n); [|done]. apply elem_of_coin_cells; eauto.
    + left. apply elem_of_coin_cells in Hin as [Hb _].
      exists x, y, n. split; [done|]. split; [done|]. split; [done|].
      pose proof (Hub' x y n Hb Hc Hn). lia.
  - left. exists x, y, n. by apply elem_of_coin_cells in Hin as [Hb _].
Qed.

(** The estimate for the initial state of the sample grid. *)
Lemma ManhattanMaxHeuristic_spec_witness :
  Grid_wf sample_grid
  ∧ ∃ m, ManhattanMaxHeuristic sample_grid (State.mk 3 1 ∅) = Ok m ∧ 0 ≤ m.
Proof.
  split; [apply sample_grid_wf|].
  destruct (ManhattanMaxHeuristic_spec sample_grid sample_grid_wf
              (State.mk 3 1 ∅)) as (m & Hm & Hle & _).
  exists m. split; [exact Hm | exact Hle].
Defined.

(** C10: on a well-formed grid, for a state that has collected the id of
    every coin cell, [ManhattanOrderedSumHeuristic] returns [|x| + |y|], the
    Manhattan distance from the state to the default nearest-coin
    coordinates [(0, 0)], whatever the position is. *)
Theorem ManhattanOrderedSumHeuristic_all_collected (g : Grid.t)
    (Hwf : Grid_wf g) (s : State.t)
    (Hall : ∀ x y n, Grid.is_within_boundaries g x y = true →
              Grid.cell_at g x y = Ok (Int n) → n ∈ State.coins_collected s) :
  ManhattanOrderedSumHeuristic g s
  = Ok (Z.abs (State.x s) + Z.abs (State.y s)).
Proof.
  assert (Hcoll : ∀ x y, (x, y) ∈ coin_cells g →
            has_collected_coin_at_location g s x y = Ok true).
  { intros x y [Hb [n Hn]]%elem_of_coin_cells.
    rewrite (has_collected_at_coin g Hwf s x y n) by done.
    by rewrite bool_decide_eq_true_2 by eauto. }
  unfold ManhattanOrderedSumHeuristic.
  rewrite get_coin_locations_eq by done. cbn [bind].
  match goal with
  | |- bind (for_fold ?l ?body ?acc) _ = _ =>
      destruct (for_fold_inv (λ r, r = acc) l body acc) as (r & -> & ->)
  end; [done| |].
  { intros acc [x y] Hc ->. rewrite (Hcoll x y Hc). cbn. eauto. }
  cbn [bind].
  match goal with
  | |- bind (for_fold ?l ?body ?acc) _ = _ =>
      destruct (for_fold_inv (λ r, r = acc) l body acc) as (r & -> & ->)
  end; [done| |].
  { intros acc [x y] Hc ->. rewrite (Hcoll x y Hc). cbn. eauto. }
  cbn [bind].
  assert (Hsort : py_sort [] = []) by reflexivity. rewrite Hsort.
  assert (Hrange : py_range (Z.of_nat (length (@nil (Z * Z))) - 1) = [])
    by reflexivity.
  rewrite Hrange. cbn [for_fold bind].
  f_equal. lia.
Qed.

(** On the sample grid, at the coin's cell [(7, 4)] with the coin collected,
    the estimate is [7 + 4]. *)
Lemma ManhattanOrderedSumHeuristic_all_collected_witness :
  ManhattanOrderedSumHeuristic sample_grid (State.mk 7 4 {[0]}) = Ok 11.
Proof.
  apply (ManhattanOrderedSumHeuristic_all_collected sample_grid
           sample_grid_wf (State.mk 7 4 {[0]})).
  intros x y n Hb Hc.
  assert (Hin : (x, y) ∈ coin_cells sample_grid)
    by (apply elem_of_coin_cells; eauto).
  vm_compute in Hin. apply list_elem_of_singleton in Hin as [= -> ->].
  vm_compute in Hc. injection Hc as <-. simpl. by apply elem_of_singleton.
Defined.

(** ** The heap holds what was pushed and not yet popped *)

Section heap_facts.
Context {A : Type} (lt : A → A → bool).
Implicit Types heap : list A.

Lemma cons_insert_swap heap (j : nat) (v w : A) :
  (j < length heap)%nat → v :: <[j := w]> heap ≡ₚ w :: <[j := v]> heap.
Proof.
  revert j. induction heap as [|a heap IH]; intros [|j] Hj; simpl in *;
    try lia.
  - apply perm_swap.
  - rewrite (perm_swap a v), (perm_swap a w). f_equiv. apply IH. lia.
Qed.

Lemma insert_insert_swap heap (i j : nat) (v w : A) :
  i ≠ j → (i < length heap)%nat → (j < length heap)%nat →
  <[i := v]> (<[j := w]> heap) ≡ₚ <[i := w]> (<[j := v]> heap).
Proof.
  revert i j. induction heap as [|a heap IH]; intros [|i] [|j] Hij Hi Hj;
    simpl in *; try lia.
  - by apply cons_insert_swap; lia.
  - symmetry. by apply cons_insert_swap; lia.
  - f_equiv. apply IH; lia.
Qed.

(** Filling the hole at [i] with the item at [j] and putting [v] at [j] is
    putting [v] in the hole, up to the order of the items. *)
Lemma insert_move heap (i j : nat) (c v : A) :
  heap !! j = Some c → i ≠ j → (i < length heap)%nat →
  <[j := v]> (<[i := c]> heap) ≡ₚ <[i := v]> heap.
Proof.
  intros Hj Hij Hi. pose proof (lookup_lt_Some _ _ _ Hj).
  rewrite <- (list_insert_id heap j c) at 2 by done.
  rewrite list_insert_insert_ne by done.
  by apply insert_insert_swap.
Qed.

Lemma div2_pred_lt (pos : nat) : (0 < pos)%nat → (Nat.div2 (pos - 1) < pos)%nat.
Proof.
  intros H. destruct pos as [|[|p]]; [lia|simpl; lia|].
  replace (S (S p) - 1)%nat with (S p) by lia.
  pose proof (Nat.le_div2 p). lia.
Qed.

Lemma smaller_child_cases heap (endpos childpos : nat) :
  heapq.smaller_child lt heap endpos childpos = childpos
  ∨ heapq.smaller_child lt heap endpos childpos = (childpos + 1)%nat.
Proof.
  unfold heapq.smaller_child. repeat case_match; auto.
Qed.

(** The counters of the two sift loops are never what ends them: from
    [pos] rounds on for [_siftdown], and from [endpos - pos] rounds on for
    [_siftup], more rounds change nothing. *)
Lemma siftdown_loop_rounds (rounds extra : nat) heap (startpos pos : nat)
    (newitem : A) :
  (pos ≤ rounds)%nat →
  heapq.siftdown_loop lt (rounds + extra) heap startpos pos newitem
  = heapq.siftdown_loop lt rounds heap startpos pos newitem.
Proof.
  revert heap pos. induction rounds as [|rounds IH]; intros heap pos Hpos.
  - destruct extra as [|extra]; [done|]. simpl.
    case_decide; [lia|done].
  - simpl. case_decide as Hlt; [|done].
    destruct (heap !! Nat.div2 (pos - 1)); [|done].
    destruct (lt newitem a); [|done].
    apply IH. pose proof (div2_pred_lt pos). lia.
Qed.

Lemma siftup_loop_rounds (rounds extra : nat) heap (endpos pos : nat) :
  (endpos ≤ rounds + pos)%nat →
  heapq.siftup_loop lt (rounds + extra) heap endpos pos
  = heapq.siftup_loop lt rounds heap endpos pos.
Proof.
  revert heap pos. induction rounds as [|rounds IH]; intros heap pos Hpos.
  - destruct extra as [|extra]; [done|]. cbn [heapq.siftup_loop Nat.add].
    case_decide; [lia|done].
  - cbn [heapq.siftup_loop Nat.add]. case_decide as Hlt; [|done].
    destruct (heap !! heapq.smaller_child lt heap endpos (2 * pos + 1));
      [|done].
    apply IH.
    destruct (smaller_child_cases heap endpos (2 * pos + 1)); lia.
Qed.

Lemma siftdown_loop_perm (rounds : nat) heap (startpos pos : nat) (newitem : A) :
  (pos < length heap)%nat →
  heapq.siftdown_loop lt rounds heap startpos pos newitem
  ≡ₚ <[pos := newitem]> heap.
Proof.
  revert heap pos. induction rounds as [|rounds IH]; intros heap pos Hpos;
    simpl; [done|].
  case_decide as Hlt; [|done].
  pose proof (div2_pred_lt pos) as Hpar.
  destruct (heap !! Nat.div2 (pos - 1)) as [parent|] eqn:Hparent; [|done].
  destruct (lt newitem parent); [|done].
  rewrite IH by (rewrite length_insert; lia).
  apply insert_move; [done|lia|done].
Qed.

Lemma siftdown_perm heap (startpos pos : nat) :
  heapq._siftdown lt heap startpos pos ≡ₚ heap.
Proof.
  unfold heapq._siftdown. destruct (heap !! pos) as [newitem|] eqn:Hpos;
    [|done].
  rewrite siftdown_loop_perm by by eapply lookup_lt_Some.
  by rewrite list_insert_id.
Qed.

Lemma siftup_loop_perm (rounds : nat) heap (endpos pos : nat) heap' (leaf : nat) :
  (pos < length heap)%nat →
  heapq.siftup_loop lt rounds heap endpos pos = (heap', leaf) →
  (leaf < length heap')%nat
  ∧ ∀ v, <[leaf := v]> heap' ≡ₚ <[pos := v]> heap.
Proof.
  revert heap pos. induction rounds as [|rounds IH]; intros heap pos Hpos;
    cbn [heapq.siftup_loop].
  - by intros [= <- <-].
  - case_decide as Hlt; [|by intros [= <- <-]].
    destruct (heap !! heapq.smaller_child lt heap endpos (2 * pos + 1))
      as [c|] eqn:Hc; [|by intros [= <- <-]].
    intros Hloop. pose proof (lookup_lt_Some _ _ _ Hc) as Hchild.
    assert (Hlen : (heapq.smaller_child lt heap endpos (2 * pos + 1)
                    < length (<[pos := c]> heap))%nat)
      by by rewrite length_insert.
    destruct (IH _ _ Hlen Hloop) as [Hleaf Hperm].
    split; [done|]. intros v. rewrite Hperm.
    apply insert_move; [done| |done].
    destruct (smaller_child_cases heap endpos (2 * pos + 1)); lia.
Qed.

Lemma siftup_perm heap (pos : nat) : heapq._siftup lt heap pos ≡ₚ heap.
Proof.
  unfold heapq._siftup. destruct (heap !! pos) as [newitem|] eqn:Hpos;
    [|done].
  destruct (heapq.siftup_loop lt _ heap _ pos) as [heap' leaf] eqn:Hloop.
  destruct (siftup_loop_perm _ _ _ _ _ _ (lookup_lt_Some _ _ _ Hpos) Hloop)
    as [Hleaf Hperm].
  rewrite siftdown_perm, Hperm. by rewrite list_insert_id.
Qed.

Lemma heappush_perm heap (item : A) :
  heapq.heappush lt heap item ≡ₚ item :: heap.
Proof.
  unfold heapq.heappush. rewrite siftdown_perm.
  by rewrite Permutation_app_comm.
Qed.

Lemma heappop_None heap : heapq.heappop lt heap = None ↔ heap = [].
Proof.
  unfold heapq.heappop. split; [|by intros ->].
  destruct (last heap) eqn:Hlast; [|by apply last_None in Hlast].
  by destruct (take _ heap).
Qed.

Lemma heappop_perm heap (item : A) (rest : list A) :
  heapq.heappop lt heap = Some (item, rest) → heap ≡ₚ item :: rest.
Proof.
  unfold heapq.heappop.
  destruct (last heap) as [lastelt|] eqn:Hlast; [|done].
  apply last_Some in Hlast as [front ->].
  rewrite length_app. simpl.
  replace (length front + 1 - 1)%nat with (length front) by lia.
  rewrite take_app_length.
  destruct front as [|returnitem front].
  - by intros [= <- <-].
  - intros [= <- <-]. simpl. rewrite siftup_perm.
    f_equiv. by rewrite Permutation_app_comm.
Qed.
End heap_facts.

(** ** One round of the search loop *)

Section rounds.
Context (grid : Grid.t) (heuristic : Heuristic) (num_coins : Z).
Implicit Types vars : search_vars.
Implicit Types node : SearchNode.t.
Implicit Types E : gset (gset Z * Z * Z).
Implicit Types vis : gmap (gset Z * Z * Z) Z.

Lemma visit_successor_expanded node E acc succ :
  table_key succ ∈ E → visit_successor heuristic node E acc succ = Ok acc.
Proof.
  intros H. unfold visit_successor. destruct acc as [[ol vis] res].
  by rewrite bool_decide_eq_true_2.
Qed.

Lemma visit_successor_visited node E ol vis res succ hv :
  table_key succ ∉ E → vis !! table_key succ = Some hv →
  visit_successor heuristic node E (ol, vis, res) succ
  = Ok (heapq.heappush SearchNode.lt ol
          (SearchNode.__init__ succ hv (Some node)), vis, res).
Proof.
  intros H Hv. unfold visit_successor.
  by rewrite bool_decide_eq_false_2, Hv.
Qed.

Lemma visit_successor_new node E ol vis res succ hv :
  table_key succ ∉ E → vis !! table_key succ = None →
  heuristic succ = Ok hv →
  visit_successor heuristic node E (ol, vis, res) succ
  = Ok (heapq.heappush SearchNode.lt ol
          (SearchNode.__init__ succ hv (Some node)),
        <[table_key succ := hv]> vis,
        SearchResult.mk (SearchResult.expansions res)
          (SearchResult.visited res + 1) (SearchResult.plan res)).
Proof.
  intros H Hv Hh. unfold visit_successor.
  by rewrite bool_decide_eq_false_2, Hv, Hh.
Qed.

(** The loop over the successors: what it pushes and what it records. *)
Lemma visit_successors_spec node E (succs : list State.t) ol vis res ol' vis' res' :
  for_fold succs (visit_successor heuristic node E) (ol, vis, res)
  = Ok (ol', vis', res') →
  ∃ pushed,
    ol' ≡ₚ pushed ++ ol
    ∧ SearchNode.state <$> pushed
      = filter (λ s, table_key s ∉ E) succs
    ∧ (∀ n, n ∈ pushed →
         SearchNode.parent n = Some node
         ∧ SearchNode.g n = SearchNode.g node + 1
         ∧ vis' !! table_key (SearchNode.state n) = Some (SearchNode.h n))
    ∧ (∀ k hv, vis !! k = Some hv → vis' !! k = Some hv)
    ∧ (∀ k hv, vis !! k = None → vis' !! k = Some hv →
         ∃ s, s ∈ succs ∧ table_key s = k ∧ (k ∉ E) ∧ heuristic s = Ok hv)
    ∧ SearchResult.visited res'
      = SearchResult.visited res + Z.of_nat (size vis') - Z.of_nat (size vis)
    ∧ SearchResult.expansions res' = SearchResult.expansions res
    ∧ SearchResult.plan res' = SearchResult.plan res.
Proof.
  revert ol vis res.
  induction succs as [|succ succs IH]; intros ol vis res; cbn [for_fold].
  - intros [= <- <- <-]. exists []. split; [done|]. split; [done|].
    split; [by intros n ?%not_elem_of_nil|]. split; [done|].
    split; [congruence|]. split; [lia|done].
  - destruct (decide (table_key succ ∈ E)) as [HE|HE].
    { rewrite visit_successor_expanded by done. cbn [bind]. intros Hfold.
      destruct (IH _ _ _ Hfold)
        as (pushed & Hperm & Hst & Hn & Hold & Hnew & Hvis & Hexp & Hplan).
      exists pushed. rewrite filter_cons_False by (intros H; by apply H).
      split; [done|]. split; [done|]. split; [done|]. split; [done|].
      split; [|done].
      intros k hv Hk Hk'. destruct (Hnew k hv Hk Hk') as (s & ? & ?).
      exists s. split; [by constructor|done]. }
    destruct (vis !! table_key succ) as [hv|] eqn:Hv.
    + rewrite (visit_successor_visited _ _ _ _ _ _ hv) by done. cbn [bind].
      intros Hfold.
      destruct (IH _ _ _ Hfold)
        as (pushed & Hperm & Hst & Hn & Hold & Hnew & Hvis & Hexp & Hplan).
      exists (SearchNode.__init__ succ hv (Some node) :: pushed).
      rewrite filter_cons_True by done. split.
      { rewrite Hperm, heappush_perm. symmetry. apply Permutation_middle. }
      split; [by rewrite fmap_cons, Hst|].
      split.
      { intros n [->|Hin]%elem_of_cons; [|by apply Hn]. simpl. auto. }
      split; [done|]. split; [|done].
      intros k hv' Hk Hk'. destruct (Hnew k hv' Hk Hk') as (s & ? & ?).
      exists s. split; [by constructor|done].
    + destruct (heuristic succ) as [hv|e] eqn:Hh.
      2: { unfold visit_successor.
           rewrite bool_decide_eq_false_2, Hv, Hh by done. done. }
      rewrite (visit_successor_new _ _ _ _ _ _ hv) by done. cbn [bind].
      intros Hfold.
      destruct (IH _ _ _ Hfold)
        as (pushed & Hperm & Hst & Hn & Hold & Hnew & Hvis & Hexp & Hplan).
      assert (Hkey : vis' !! table_key succ = Some hv)
        by (apply Hold; by rewrite lookup_insert_eq).
      exists (SearchNode.__init__ succ hv (Some node) :: pushed).
      rewrite filter_cons_True by done. split.
      { rewrite Hperm, heappush_perm. symmetry. apply Permutation_middle. }
      split; [by rewrite fmap_cons, Hst|].
      split.
      { intros n [->|Hin]%elem_of_cons; [|by apply Hn]. simpl. auto. }
      split.
      { intros k hv' Hk. apply Hold. rewrite lookup_insert_ne; [done|].
        intros <-. congruence. }
      split.
      { intros k hv' Hk Hk'.
        destruct (decide (k = table_key succ)) as [->|Hne].
        - exists succ. rewrite Hkey in Hk'. injection Hk' as <-.
          split; [constructor|done].
        - destruct (Hnew k hv') as (s & ? & ?); [|done|].
          { by rewrite lookup_insert_ne. }
          exists s. split; [by constructor|done]. }
      split; [|done].
      rewrite Hvis. simpl. rewrite map_size_insert_None by done. lia.
Qed.

(** The three ways through a round that does not raise. *)
Lemma astar_iteration_cases vars exit vars' :
  astar_iteration grid heuristic num_coins vars = Ok (exit, vars') →
  ∃ node ol,
    heapq.heappop SearchNode.lt (open_list vars) = Some (node, ol)
    ∧ ((SearchNode.check_if_flagged node (expanded vars) = true
        ∧ exit = Continue
        ∧ vars' = mk_vars ol (expanded vars) (visited vars) (result_ vars))
       ∨ (SearchNode.check_if_flagged node (expanded vars) = false
          ∧ Z.of_nat (size (State.coins_collected (SearchNode.state node)))
            = num_coins
          ∧ exit = Break
          ∧ vars' = mk_vars ol (expanded vars) (visited vars)
                      (SearchResult.mk
                         (SearchResult.expansions (result_ vars) + 1)
                         (SearchResult.visited (result_ vars))
                         (Some (SearchNode.extract_plan node))))
       ∨ (SearchNode.check_if_flagged node (expanded vars) = false
          ∧ Z.of_nat (size (State.coins_collected (SearchNode.state node)))
            ≠ num_coins
          ∧ exit = Continue
          ∧ ∃ successors ol' vis' res',
              Grid.get_successor_states grid (SearchNode.state node)
              = Ok successors
              ∧ for_fold successors
                  (visit_successor heuristic node (expanded vars))
                  (ol, visited vars,
                   SearchResult.mk
                     (SearchResult.expansions (result_ vars) + 1)
                     (SearchResult.visited (result_ vars))
                     (SearchResult.plan (result_ vars)))
                = Ok (ol', vis', res')
              ∧ vars' = mk_vars ol'
                          (SearchNode.set_flag node (expanded vars))
                          vis' res')).
Proof.
  unfold astar_iteration.
  destruct (heapq.heappop _ _) as [[node ol]|]; [|done].
  intros H. exists node, ol. split; [done|].
  destruct (SearchNode.check_if_flagged _ _).
  { injection H as <- <-. by left. }
  right. case_bool_decide as Hgoal.
  { injection H as <- <-. by left. }
  right. split; [done|]. split; [done|].
  destruct (Grid.get_successor_states _ _) as [successors|]; [|done].
  cbn [bind] in H.
  destruct (for_fold _ _ _) as [[[ol' vis'] res']|] eqn:Hfold; [|done].
  cbn [bind] in H. injection H as <- <-.
  split; [done|]. by exists successors, ol', vis', res'.
Qed.
End rounds.

(** C7: in every round of the loop, (1) a popped node whose key is flagged
    in [expanded] is dropped: the round changes nothing but the open list,
    which has lost the node; (2) a round that expands a node pushes one new
    node for each successor that is not flagged in [expanded], already
    visited or not, with the value that [visited] holds for it as its
    [h]; entries of [visited] are never overwritten, a new entry is the
    heuristic's value for a successor, and the visited counter grows by the
    number of new entries; (3) for a successor that [visited] has an entry
    for, the body of the successor loop does not depend on the heuristic. *)
Theorem astar_iteration_spec (grid : Grid.t) (heuristic : Heuristic)
    (num_coins : Z) (vars : search_vars) (node : SearchNode.t)
    (ol : list SearchNode.t) :
  heapq.heappop SearchNode.lt (open_list vars) = Some (node, ol) →
  (SearchNode.check_if_flagged node (expanded vars) = true →
     astar_iteration grid heuristic num_coins vars
     = Ok (Continue,
           mk_vars ol (expanded vars) (visited vars) (result_ vars)))
  ∧ (∀ exit vars',
       SearchNode.check_if_flagged node (expanded vars) = false →
       Z.of_nat (size (State.coins_collected (SearchNode.state node)))
       ≠ num_coins →
       astar_iteration grid heuristic num_coins vars = Ok (exit, vars') →
       ∃ successors pushed,
         Grid.get_successor_states grid (SearchNode.state node)
         = Ok successors
         ∧ exit = Continue
         ∧ open_list vars' ≡ₚ pushed ++ ol
         ∧ SearchNode.state <$> pushed
           = filter (λ s, table_key s ∉ expanded vars) successors
         ∧ (∀ n, n ∈ pushed →
              SearchNode.parent n = Some node
              ∧ SearchNode.g n = SearchNode.g node + 1
              ∧ visited vars' !! table_key (SearchNode.state n)
                = Some (SearchNode.h n))
         ∧ (∀ k hv, visited vars !! k = Some hv →
              visited vars' !! k = Some hv)
         ∧ (∀ k hv, visited vars !! k = None →
              visited vars' !! k = Some hv →
              ∃ s, s ∈ successors ∧ table_key s = k
                   ∧ (k ∉ expanded vars) ∧ heuristic s = Ok hv)
         ∧ SearchResult.visited (result_ vars')
           = SearchResult.visited (result_ vars)
             + Z.of_nat (size (visited vars'))
             - Z.of_nat (size (visited vars))
         ∧ SearchResult.expansions (result_ vars')
           = SearchResult.expansions (result_ vars) + 1
         ∧ expanded vars'
           = {[table_key (SearchNode.state node)]} ∪ expanded vars)
  ∧ (∀ other_heuristic succ open_list vis res hv,
       table_key succ ∉ expanded vars →
       vis !! table_key succ = Some hv →
       visit_successor other_heuristic node (expanded vars)
         (open_list, vis, res) succ
       = Ok (heapq.heappush SearchNode.lt open_list
               (SearchNode.__init__ succ hv (Some node)), vis, res)).
Proof.
  intros Hpop. split; [|split].
  - intros Hflag. unfold astar_iteration. by rewrite Hpop, Hflag.
  - intros exit vars' Hflag Hgoal Hiter.
    apply astar_iteration_cases in Hiter
      as (node' & ol' & Hpop' & Hcases).
    rewrite Hpop in Hpop'. injection Hpop' as <- <-.
    destruct Hcases as [(Hf & _)|[(_ & Hg & _)|(_ & _ & -> & Hexp)]];
      [congruence|done|].
    destruct Hexp as (successors & ol' & vis' & res' & Hsucc & Hfold & ->).
    apply visit_successors_spec in Hfold
      as (pushed & Hperm & Hst & Hn & Hold & Hnew & Hvis & Hcount & _).
    exists successors, pushed. simpl in *.
    repeat (split; [done|]). done.
  - intros other_heuristic succ open_list vis res hv Hk Hv.
    by apply visit_successor_visited.
Qed.

(** A round entered with a flagged node on top of the open list. *)
Lemma astar_iteration_spec_witness :
  astar_iteration sample_grid BlindHeuristic 1 flagged_vars
  = Ok (Continue,
        mk_vars [] (expanded flagged_vars) (visited flagged_vars)
          (result_ flagged_vars)).
Proof.
  apply (astar_iteration_spec sample_grid BlindHeuristic 1 flagged_vars
           node_root []); reflexivity.
Defined.

(** ** Grids without coins *)

Lemma grid_start_only_wf : Grid_wf grid_start_only.
Proof. split; [done|]. repeat constructor. Qed.

Lemma grid_start_only_has_start : has_start_cell grid_start_only.
Proof. exists 0, 0. split; reflexivity. Qed.

Lemma grid_start_only_no_coin (x y n : Z) :
  Grid.is_within_boundaries grid_start_only x y = true →
  Grid.cell_at grid_start_only x y ≠ Ok (Int n).
Proof.
  intros [Hx Hy]%within_boundaries_spec. simpl in *.
  assert (x = 0) as -> by lia. assert (y = 0) as -> by lia. done.
Qed.

(** C6: on a well-formed grid with a start cell and no coin cell,
    [astar_search], with any heuristic that returns a value on the initial
    state, leaves its loop in the first round: it returns the plan made of
    the initial state alone (no move), one expansion and no visited
    state.  The heuristics of the module all return a value there. *)
Theorem astar_search_no_coins (g : Grid.t) (Hwf : Grid_wf g)
    (Hstart : has_start_cell g)
    (Hno_coin : ∀ x y n, Grid.is_within_boundaries g x y = true →
                  Grid.cell_at g x y ≠ Ok (Int n)) :
  ∃ initial_state,
    Grid.get_initial_state g = Ok (Some initial_state)
    ∧ (∀ (heuristic : Heuristic) (h0 : Z) (rounds : nat),
         heuristic initial_state = Ok h0 → (1 ≤ rounds)%nat →
         astar_search rounds g heuristic
         = Some (Ok (SearchResult.mk 1 0 (Some [initial_state]))))
    ∧ (∀ heuristic,
         heuristic ∈ [BlindHeuristic; ManhattanMaxHeuristic g;
                      ManhattanSumHeuristic g;
                      ManhattanOrderedSumHeuristic g] →
         ∃ h0, heuristic initial_state = Ok h0).
Proof.
  destruct (get_initial_state_cases g Hwf) as ([s0|] & Hinit & Hspec);
    [|done].
  destruct Hspec as (Hs0 & _). rewrite Hs0 in Hinit.
  exists (State.mk (State.x s0) (State.y s0) ∅). split; [done|].
  assert (Hcoins : coin_cells g = []).
  { apply elem_of_nil_inv. intros [cx cy] [Hb [n Hn]]%elem_of_coin_cells.
    by apply (Hno_coin cx cy n). }
  split.
  - intros heuristic h0 rounds Hh Hrounds.
    unfold astar_search, astar_setup.
    rewrite Hinit, get_coin_locations_eq, Hcoins by done. cbn [bind].
    rewrite Hh. cbn [bind length].
    destruct rounds as [|rounds]; [lia|]. reflexivity.
  - intros heuristic Hin. repeat apply elem_of_cons in Hin as [->|Hin];
      [| | | |by apply not_elem_of_nil in Hin].
    + by eexists.
    + unfold ManhattanMaxHeuristic.
      rewrite get_coin_locations_eq, Hcoins by done. by eexists.
    + unfold ManhattanSumHeuristic.
      rewrite get_coin_locations_eq, Hcoins by done. by eexists.
    + unfold ManhattanOrderedSumHeuristic.
      rewrite get_coin_locations_eq, Hcoins by done. by eexists.
Qed.

(** The search of the one-cell grid, with a heuristic that is not blind. *)
Lemma astar_search_no_coins_witness :
  ∃ initial_state,
    Grid.get_initial_state grid_start_only = Ok (Some initial_state)
    ∧ astar_search 1 grid_start_only
        (ManhattanOrderedSumHeuristic grid_start_only)
      = Some (Ok (SearchResult.mk 1 0 (Some [initial_state]))).
Proof.
  destruct (astar_search_no_coins grid_start_only grid_start_only_wf
              grid_start_only_has_start grid_start_only_no_coin)
    as (s0 & Hinit & Hsearch & Hreturns).
  exists s0. split; [exact Hinit|].
  destruct (Hreturns (ManhattanOrderedSumHeuristic grid_start_only))
    as [h0 Hh0]; [repeat constructor|].
  apply (Hsearch _ h0 1%nat); [exact Hh0|lia].
Defined.

(** ** Invariants of the search loop *)

Lemma astar_setup_inv (grid : Grid.t) (heuristic : Heuristic) (num_coins : Z)
    (vars : search_vars) :
  astar_setup grid heuristic = Ok (num_coins, vars) →
  ∃ initial_state h0 coin_locations,
    Grid.get_initial_state grid = Ok (Some initial_state)
    ∧ Grid.get_coin_locations grid = Ok coin_locations
    ∧ heuristic initial_state = Ok h0
    ∧ num_coins = Z.of_nat (length coin_locations)
    ∧ vars = mk_vars [SearchNode.__init__ initial_state h0 None] ∅
               {[table_key initial_state := h0]} (SearchResult.mk 0 0 None).
Proof.
  unfold astar_setup.
  destruct (Grid.get_initial_state grid) as [[s0|]|]; cbn [bind];
    [|by destruct (Grid.get_coin_locations grid)|done].
  destruct (Grid.get_coin_locations grid) as [coins|]; cbn [bind]; [|done].
  destruct (heuristic s0) as [h0|] eqn:Hh; cbn [bind]; [|done].
  intros [= <- <-]. by exists s0, h0, coins.
Qed.

Lemma counted_key_flagged (vars : search_vars) (node : SearchNode.t)
    (ol : list SearchNode.t) :
  heapq.heappop SearchNode.lt (open_list vars) = Some (node, ol) →
  counted_key vars
  = if SearchNode.check_if_flagged node (expanded vars) then []
    else [table_key (SearchNode.state node)].
Proof. intros H. unfold counted_key. by rewrite H. Qed.

Lemma run_invariant (grid : Grid.t) (heuristic : Heuristic)
    (counted : list (gset Z * Z * Z)) (exit : loop_exit) (vars : search_vars) :
  run_to grid heuristic counted exit vars →
  (∀ n, n ∈ open_list vars →
     is_Some (visited vars !! table_key (SearchNode.state n)))
  ∧ (∀ k, k ∈ expanded vars → is_Some (visited vars !! k))
  ∧ NoDup counted
  ∧ (exit = Continue → ∀ k, k ∈ counted → k ∈ expanded vars)
  ∧ (∀ k, k ∈ counted → is_Some (visited vars !! k))
  ∧ SearchResult.expansions (result_ vars) = Z.of_nat (length counted).
Proof.
  induction 1 as [num_coins vars Hsetup
                 |num_coins vars0 counted vars exit vars' Hsetup Hrun IH
                    Hopen Hiter].
  - apply astar_setup_inv in Hsetup
      as (s0 & h0 & coins & _ & _ & _ & _ & ->). simpl.
    split.
    { intros n ->%list_elem_of_singleton. simpl.
      rewrite lookup_singleton_eq. eauto. }
    split; [by intros k ?%not_elem_of_empty|].
    split; [apply NoDup_nil_2|].
    split; [by intros _ k ?%not_elem_of_nil|].
    split; [by intros k ?%not_elem_of_nil|done].
  - destruct IH as (Iopen & Iexp & Inodup & Icounted & Ivis & Icount).
    specialize (Icounted eq_refl).
    apply astar_iteration_cases in Hiter as (node & ol & Hpop & Hcases).
    pose proof (heappop_perm _ _ _ _ Hpop) as Hperm.
    assert (Hol : ∀ n, n ∈ ol → n ∈ open_list vars).
    { intros n Hn. rewrite Hperm. by constructor. }
    assert (Hnode : is_Some (visited vars !! table_key (SearchNode.state node))).
    { apply Iopen. rewrite Hperm. constructor. }
    rewrite (counted_key_flagged _ _ _ Hpop).
    destruct Hcases as [(Hflag & -> & ->)
                       |[(Hflag & Hgoal & -> & ->)
                        |(Hflag & Hgoal & -> & Hexp)]];
      rewrite Hflag; simpl.
    + rewrite app_nil_r. repeat (split; [by auto|]). done.
    + apply bool_decide_eq_false in Hflag.
      split; [by auto|]. split; [done|].
      split. { apply NoDup_app. repeat split; [done| |apply NoDup_singleton].
               intros k Hk ->%list_elem_of_singleton. by apply Hflag, Icounted. }
      split; [done|].
      split. { intros k [Hk| ->%list_elem_of_singleton]%elem_of_app; auto. }
      rewrite length_app, Icount. simpl. lia.
    + apply bool_decide_eq_false in Hflag.
      destruct Hexp as (successors & ol' & vis' & res' & _ & Hfold & ->).
      apply visit_successors_spec in Hfold
        as (pushed & Hperm' & _ & Hn & Hold & _ & _ & Hcount & _).
      simpl in *.
      assert (Hmono : ∀ k, is_Some (visited vars !! k) → is_Some (vis' !! k)).
      { intros k [hv Hk]. exists hv. by apply Hold. }
      split.
      { intros n. rewrite Hperm'. intros [Hin|Hin]%elem_of_app.
        - destruct (Hn n Hin) as (_ & _ & ->). eauto.
        - by apply Hmono, Iopen, Hol. }
      split.
      { unfold SearchNode.set_flag.
        intros k [->%elem_of_singleton|Hk]%elem_of_union; auto. }
      split. { apply NoDup_app. repeat split; [done| |apply NoDup_singleton].
               intros k Hk ->%list_elem_of_singleton. by apply Hflag, Icounted. }
      split.
      { intros _ k. unfold SearchNode.set_flag.
        intros [Hk| ->%list_elem_of_singleton]%elem_of_app;
          apply elem_of_union; [right; auto|left; by apply elem_of_singleton]. }
      split. { intros k [Hk| ->%list_elem_of_singleton]%elem_of_app; auto. }
      rewrite length_app, Hcount, Icount. simpl. lia.
Qed.

(** C5: at every point of every run of the loop of [astar_search], every
    key flagged in [expanded] has an entry in [visited], and the keys
    flagged after a round already had their entry before that round; the
    keys counted as expansions are pairwise distinct, each has an entry in
    [visited], and [result.expansions] is their number. *)
Theorem expanded_visited_and_counted_once (grid : Grid.t)
    (heuristic : Heuristic) (counted : list (gset Z * Z * Z))
    (exit : loop_exit) (vars : search_vars)
    (Hrun : run_to grid heuristic counted exit vars) :
  (∀ k, k ∈ expanded vars → is_Some (visited vars !! k))
  ∧ (∀ num_coins vars0 exit' vars',
       exit = Continue →
       astar_setup grid heuristic = Ok (num_coins, vars0) →
       astar_iteration grid heuristic num_coins vars = Ok (exit', vars') →
       ∀ k, k ∈ expanded vars' → is_Some (visited vars !! k))
  ∧ NoDup counted
  ∧ (∀ k, k ∈ counted → is_Some (visited vars !! k))
  ∧ SearchResult.expansions (result_ vars) = Z.of_nat (length counted).
Proof.
  destruct (run_invariant _ _ _ _ _ Hrun)
    as (Iopen & Iexp & Inodup & _ & Ivis & Icount).
  split; [done|]. split; [|done].
  intros num_coins vars0 exit' vars' -> _ Hiter k.
  apply astar_iteration_cases in Hiter as (node & ol & Hpop & Hcases).
  destruct Hcases as [(_ & _ & ->)|[(_ & _ & _ & ->)|(_ & _ & _ & Hexp)]];
    simpl; [by auto|by auto|].
  destruct Hexp as (successors & ol' & vis' & res' & _ & _ & ->). simpl.
  unfold SearchNode.set_flag.
  intros [->%elem_of_singleton|Hk]%elem_of_union; [|by auto].
  apply Iopen. rewrite (heappop_perm _ _ _ _ Hpop). constructor.
Qed.

Lemma continues_round (grid : Grid.t) (heuristic : Heuristic)
    (num_coins : Z) (vars : search_vars) :
  continues grid heuristic num_coins vars = true →
  open_list vars ≠ []
  ∧ astar_iteration grid heuristic num_coins vars
    = Ok (Continue, next_vars grid heuristic num_coins vars).
Proof.
  unfold continues, next_vars.
  destruct (astar_iteration grid heuristic num_coins vars) as [[[] v]|];
    [|done..].
  intros H%negb_true_iff%bool_decide_eq_false. done.
Qed.

Lemma sample_setup :
  astar_setup sample_grid BlindHeuristic = Ok (1, sample_vars).
Proof. reflexivity. Qed.

(** The first two rounds of the search of the sample grid with the blind
    heuristic. *)
Lemma expanded_visited_and_counted_once_witness :
  ∃ counted vars,
    run_to sample_grid BlindHeuristic counted Continue vars
    ∧ length counted = 2%nat
    ∧ NoDup counted
    ∧ SearchResult.expansions (result_ vars) = 2.
Proof.
  pose (vars1 := next_vars sample_grid BlindHeuristic 1 sample_vars).
  pose (vars2 := next_vars sample_grid BlindHeuristic 1 vars1).
  assert (H1 : continues sample_grid BlindHeuristic 1 sample_vars = true)
    by (vm_compute; reflexivity).
  assert (H2 : continues sample_grid BlindHeuristic 1 vars1 = true)
    by (vm_compute; reflexivity).
  apply continues_round in H1 as [Hopen1 Hiter1].
  apply continues_round in H2 as [Hopen2 Hiter2].
  pose proof (run_round _ _ _ _ _ _ _ _ sample_setup
                (run_round _ _ _ _ _ _ _ _ sample_setup
                   (run_setup _ _ _ _ sample_setup) Hopen1 Hiter1)
                Hopen2 Hiter2) as Hrun.
  destruct (expanded_visited_and_counted_once _ _ _ _ _ Hrun)
    as (_ & _ & Hnodup & _ & Hcount).
  assert (Hlen : length (([] ++ counted_key sample_vars) ++ counted_key vars1)
                 = 2%nat) by (vm_compute; reflexivity).
  eexists _, _. split; [exact Hrun|]. split; [exact Hlen|].
  split; [exact Hnodup|]. rewrite Hcount. exact (f_equal Z.of_nat Hlen).
Defined.

(** ** Termination of the search loop *)

Lemma elem_of_subsets (l : list Z) (X : gset Z) :
  X ⊆ list_to_set l → X ∈ subsets l.
Proof.
  revert X. induction l as [|a l IH]; intros X HX; simpl in *.
  - apply list_elem_of_singleton. apply (anti_symm (⊆)); [done|].
    apply empty_subseteq.
  - apply elem_of_app. destruct (decide (a ∈ X)) as [Ha|Ha].
    + right. apply list_elem_of_fmap. exists (X ∖ {[a]}). split.
      * apply set_eq. intros z. rewrite elem_of_union, elem_of_difference,
          elem_of_singleton. destruct (decide (z = a)) as [->|]; tauto.
      * apply IH. intros z [Hz Hza]%elem_of_difference.
        apply HX in Hz. apply elem_of_union in Hz as [Hz|Hz]; [done|done].
    + left. apply IH. intros z Hz. pose proof (HX z Hz) as Hz'.
      apply elem_of_union in Hz' as [->%elem_of_singleton|Hz']; done.
Qed.

Lemma elem_of_grid_coin_ids (g : Grid.t) (x y n : Z) :
  Grid.is_within_boundaries g x y = true →
  Grid.cell_at g x y = Ok (Int n) → n ∈ grid_coin_ids g.
Proof.
  intros Hb Hc. unfold grid_coin_ids. apply list_elem_of_bind.
  exists (x, y). simpl. rewrite Hc. split; [by apply list_elem_of_singleton|].
  apply elem_of_coin_cells. eauto.
Qed.

Lemma elem_of_key_universe (g : Grid.t) (s : State.t) :
  State.coins_collected s ⊆ list_to_set (grid_coin_ids g) →
  Grid.is_within_boundaries g (State.x s) (State.y s) = true →
  table_key s ∈ key_universe g.
Proof.
  intros Hc [Hx Hy]%within_boundaries_spec.
  unfold key_universe, table_key. apply elem_of_list_to_set.
  apply list_elem_of_bind. exists (State.coins_collected s).
  split; [|by apply elem_of_subsets].
  apply list_elem_of_bind. exists (State.x s).
  split; [|by apply elem_of_py_range].
  apply list_elem_of_bind. exists (State.y s).
  split; [|by apply elem_of_py_range].
  by apply list_elem_of_singleton.
Qed.

Section termination.
Context (g : Grid.t) (Hwf : Grid_wf g) (heuristic : Heuristic) (num_coins : Z).

Lemma successors_in_grid (s t : State.t) (succs : list State.t) :
  Grid.get_successor_states g s = Ok succs →
  state_in_grid g s → t ∈ succs → state_in_grid g t.
Proof.
  intros Hsuccs [Hs _] Ht.
  rewrite get_successor_states_eq in Hsuccs by done. injection Hsuccs as <-.
  apply elem_of_successors in Ht as (_ & Hb & c & Hc & _ & Hcoins).
  split; [|done]. rewrite Hcoins. destruct c as [sym|n]; [done|].
  apply union_subseteq. split; [|done].
  apply singleton_subseteq_l, elem_of_list_to_set.
  by eapply elem_of_grid_coin_ids.
Qed.

Lemma successors_length (s : State.t) (succs : list State.t) :
  Grid.get_successor_states g s = Ok succs → (length succs ≤ 4)%nat.
Proof.
  rewrite get_successor_states_eq by done. intros [= <-].
  assert (H : ∀ i j, (length (neighbour_successor g s i j) ≤ 1)%nat).
  { intros i j. unfold neighbour_successor. repeat case_match; simpl; lia. }
  rewrite !length_app.
  pose proof (H (-1) 0). pose proof (H 0 (-1)).
  pose proof (H 0 1). pose proof (H 1 0). lia.
Qed.

Lemma heappop_length (heap : list SearchNode.t) (node : SearchNode.t)
    (ol : list SearchNode.t) :
  heapq.heappop SearchNode.lt heap = Some (node, ol) →
  length heap = S (length ol).
Proof. intros H%heappop_perm. by rewrite H. Qed.

Lemma round_decreases (vars vars' : search_vars) :
  (∀ n, n ∈ open_list vars → state_in_grid g (SearchNode.state n)) →
  astar_iteration g heuristic num_coins vars = Ok (Continue, vars') →
  (∀ n, n ∈ open_list vars' → state_in_grid g (SearchNode.state n))
  ∧ (rounds_bound g vars' < rounds_bound g vars)%nat.
Proof.
  intros Hopen Hiter.
  apply astar_iteration_cases in Hiter as (node & ol & Hpop & Hcases).
  pose proof (heappop_perm _ _ _ _ Hpop) as Hperm.
  pose proof (heappop_length _ _ _ Hpop) as Hlen.
  assert (Hol : ∀ n, n ∈ ol → state_in_grid g (SearchNode.state n)).
  { intros n Hn. apply Hopen. rewrite Hperm. by constructor. }
  assert (Hnode : state_in_grid g (SearchNode.state node)).
  { apply Hopen. rewrite Hperm. constructor. }
  unfold rounds_bound.
  destruct Hcases as [(_ & _ & ->)|[(_ & _ & ? & _)|(Hflag & _ & _ & Hexp)]];
    [simpl; split; [done|lia]|done|].
  destruct Hexp as (succs & ol' & vis' & res' & Hsuccs & Hfold & ->).
  apply visit_successors_spec in Hfold as (pushed & Hperm' & Hst & _).
  simpl. split.
  - intros n. rewrite Hperm'. intros [Hin|Hin]%elem_of_app; [|by apply Hol].
    apply (successors_in_grid (SearchNode.state node) _ succs);
      [done|done|].
    assert (Hn : SearchNode.state n ∈ SearchNode.state <$> pushed)
      by (apply list_elem_of_fmap; eauto).
    rewrite Hst in Hn. by apply list_elem_of_filter in Hn as [_ Hn].
  - apply bool_decide_eq_false in Hflag.
    assert (Hpushed : (length pushed ≤ 4)%nat).
    { rewrite <- (length_fmap SearchNode.state), Hst.
      etrans; [apply length_filter|]. by eapply successors_length. }
    assert (Hsize :
      (size (key_universe g ∖ SearchNode.set_flag node (expanded vars))
       < size (key_universe g ∖ expanded vars))%nat).
    { apply subset_size. unfold SearchNode.set_flag.
      destruct Hnode as [Hc Hb].
      pose proof (elem_of_key_universe g _ Hc Hb) as Hu.
      split.
      - intros k [Hk Hk']%elem_of_difference. apply elem_of_difference.
        split; [done|]. intros Hin. apply Hk'. apply elem_of_union. by right.
      - intros Hsub.
        assert (Hin : table_key (SearchNode.state node)
                      ∈ key_universe g ∖ expanded vars)
          by (by apply elem_of_difference).
        apply Hsub in Hin. apply elem_of_difference in Hin as [_ Hin].
        apply Hin, elem_of_union. left. by apply elem_of_singleton. }
    rewrite Hperm', length_app. lia.
Qed.

Lemma astar_loop_terminates (n : nat) (vars : search_vars) :
  (∀ n, n ∈ open_list vars → state_in_grid g (SearchNode.state n)) →
  (rounds_bound g vars ≤ n)%nat →
  ∃ r, ∀ rounds, (n ≤ rounds)%nat →
         astar_loop rounds g heuristic num_coins vars = Some r.
Proof.
  revert vars. induction n as [|n IH]; intros vars Hopen Hbound.
  - exists (Ok (result_ vars)). intros rounds _.
    unfold rounds_bound in Hbound.
    destruct (open_list vars) as [|node ol] eqn:Hol; [|simpl in Hbound; lia].
    destruct rounds; simpl; by rewrite Hol.
  - destruct (open_list vars) as [|node ol] eqn:Hol.
    { exists (Ok (result_ vars)). intros rounds _.
      destruct rounds; simpl; by rewrite Hol. }
    rewrite <- Hol in Hopen.
    destruct (astar_iteration g heuristic num_coins vars)
      as [[[] vars']|e] eqn:Hiter.
    + destruct (round_decreases _ _ Hopen Hiter) as [Hopen' Hlt].
      destruct (IH vars' Hopen') as [r Hr]; [lia|].
      exists r. intros [|rounds] Hrounds; [lia|].
      simpl. rewrite Hol, Hiter. apply Hr. lia.
    + exists (Ok (result_ vars')). intros [|rounds] Hrounds; [lia|].
      simpl. by rewrite Hol, Hiter.
    + exists (Raise e). intros [|rounds] Hrounds; [lia|].
      simpl. by rewrite Hol, Hiter.
Qed.

Lemma astar_loop_more_rounds (n m : nat) (vars : search_vars)
    (r : result SearchResult.t) :
  astar_loop n g heuristic num_coins vars = Some r → (n ≤ m)%nat →
  astar_loop m g heuristic num_coins vars = Some r.
Proof.
  revert m vars. induction n as [|n IH]; intros m vars; simpl.
  - destruct (open_list vars) eqn:Hol; [|done].
    intros [= <-] _. destruct m; simpl; by rewrite Hol.
  - destruct (open_list vars) eqn:Hol.
    { intros [= <-] _. destruct m; simpl; by rewrite Hol. }
    intros Hloop Hm. destruct m as [|m]; [lia|]. simpl. rewrite Hol.
    destruct (astar_iteration g heuristic num_coins vars)
      as [[[] vars']|e]; [|done..].
    apply IH; [done|lia].
Qed.
End termination.

(** On a well-formed grid, [astar_search] with a given heuristic function
    comes to an end, and the bound [rounds] on the number of rounds has no
    part in what it returns. *)
Lemma astar_search_deterministic (g : Grid.t) (Hwf : Grid_wf g)
    (heuristic : Heuristic) :
  ∃ r rounds0,
    (∀ rounds, (rounds0 ≤ rounds)%nat →
       astar_search rounds g heuristic = Some r)
    ∧ (∀ rounds r', astar_search rounds g heuristic = Some r' → r' = r).
Proof.
  assert (Hex : ∃ r rounds0, ∀ rounds, (rounds0 ≤ rounds)%nat →
                  astar_search rounds g heuristic = Some r).
  { unfold astar_search.
    destruct (astar_setup g heuristic) as [[num_coins vars]|e] eqn:Hsetup;
      [|by exists (Raise e), 0%nat].
    apply astar_setup_inv in Hsetup
      as (s0 & h0 & coins & Hinit & _ & _ & _ & ->).
    destruct (get_initial_state_cases g Hwf) as (r0 & Hr0 & Hspec).
    rewrite Hinit in Hr0. injection Hr0 as <-.
    destruct Hspec as (Hs0 & Hb & _).
    destruct (astar_loop_terminates g Hwf heuristic num_coins
                (rounds_bound g
                   (mk_vars [SearchNode.__init__ s0 h0 None] ∅
                      {[table_key s0 := h0]} (SearchResult.mk 0 0 None)))
                (mk_vars [SearchNode.__init__ s0 h0 None] ∅
                   {[table_key s0 := h0]} (SearchResult.mk 0 0 None)))
      as [r Hr]; [|done|by eauto].
    simpl. intros n ->%list_elem_of_singleton. split; [|done].
    rewrite Hs0. simpl. apply empty_subseteq. }
  destruct Hex as (r & rounds0 & Hr). exists r, rounds0. split; [done|].
  intros rounds r' Hr'.
  specialize (Hr (Nat.max rounds rounds0) (Nat.le_max_r _ _)).
  unfold astar_search in *.
  destruct (astar_setup g heuristic) as [[num_coins vars]|e]; [|congruence].
  apply (astar_loop_more_rounds _ _ _ _ (Nat.max rounds rounds0)) in Hr';
    [congruence|apply Nat.le_max_l].
Qed.

(** The search of the sample grid with the Manhattan-max heuristic. *)
Lemma astar_search_deterministic_witness :
  Grid_wf sample_grid
  ∧ ∃ r rounds0,
      ∀ rounds, (rounds0 ≤ rounds)%nat →
        astar_search rounds sample_grid (ManhattanMaxHeuristic sample_grid)
        = Some r.
Proof.
  split; [apply sample_grid_wf|].
  destruct (astar_search_deterministic sample_grid sample_grid_wf
              (ManhattanMaxHeuristic sample_grid)) as (r & rounds0 & Hr & _).
  exists r, rounds0. exact Hr.
Defined.

(** * Further properties *)

(** ** The constructor *)

Lemma py_getitem_Raise {A : Type} (l : list A) (i : Z) (e : PyError) :
  py_getitem l i = Raise e → e = IndexError.
Proof.
  unfold py_getitem. repeat case_match; (done || by intros [= <-]).
Qed.

Lemma py_getitem_nonneg {A : Type} (l : list A) (i : Z) (a : A) :
  0 ≤ i → py_getitem l i = Ok a ↔ l !! Z.to_nat i = Some a.
Proof.
  intros Hi. unfold py_getitem.
  destruct (Z.ltb_spec i 0); [lia|].
  destruct (Z.leb_spec 0 i); [|lia]. simpl.
  destruct (Z.ltb_spec i (Z.of_nat (length l))).
  - destruct (l !! Z.to_nat i); split; (done || by intros [= <-]).
  - split; [done|]. intros Hl%lookup_lt_Some. lia.
Qed.

Lemma list_comp_lookup {A B : Type} (l : list A) (f : A → result B)
    (r : list B) (i : nat) (a : A) :
  list_comp l f = Ok r → l !! i = Some a →
  ∃ b, r !! i = Some b ∧ f a = Ok b.
Proof.
  revert r i. induction l as [|a' l IH]; intros r i; simpl; [done|].
  destruct (f a') as [b'|] eqn:Hb; [|done]. simpl.
  destruct (list_comp l f) as [bs|]; [|done]. simpl.
  intros [= <-]. destruct i as [|i]; simpl.
  - intros [= <-]. eauto.
  - by apply IH.
Qed.

Lemma list_comp_Raise {A B : Type} (l : list A) (f : A → result B)
    (e : PyError) :
  list_comp l f = Raise e → ∃ a, a ∈ l ∧ f a = Raise e.
Proof.
  induction l as [|a l IH]; simpl; [done|].
  destruct (f a) as [b|e'] eqn:Hb; simpl.
  - destruct (list_comp l f) as [bs|e'] eqn:Hbs; [done|]. simpl.
    intros [= <-]. destruct IH as (a' & Ha' & He); [done|].
    exists a'. split; [by constructor|done].
  - intros [= <-]. exists a. split; [constructor|done].
Qed.

Lemma py_range_lookup (n : Z) (i : Z) :
  0 ≤ i < n → py_range n !! Z.to_nat i = Some i.
Proof.
  intros Hi. unfold py_range. rewrite lookup_seqZ_lt by lia. f_equal. lia.
Qed.

(** X1: [Grid(inv)] raises nothing but [IndexError], and only when [inv] is
    empty or one of its rows is shorter than the first.  When it returns,
    the grid is well formed, as wide as the first row and as high as
    [inv], every row is at least as long as the first, and the cell
    [(x, y)] of the grid is the item [x] of the row [y] of [inv]. *)
Theorem Grid_init_spec (inv : list (list cell)) :
  (∀ e, Grid.__init__ (Some inv) = Raise e →
     e = IndexError
     ∧ (inv = []
        ∨ ∃ row0 row, head inv = Some row0 ∧ row ∈ inv
                      ∧ (length row < length row0)%nat))
  ∧ (∀ g, Grid.__init__ (Some inv) = Ok g →
       Grid_wf g
       ∧ ∃ row0,
           head inv = Some row0
           ∧ Grid.width g = Z.of_nat (length row0)
           ∧ Grid.height g = Z.of_nat (length inv)
           ∧ Forall (λ row, (length row0 ≤ length row)%nat) inv
           ∧ ∀ x y, Grid.is_within_boundaries g x y = true →
               ∃ row c, inv !! Z.to_nat y = Some row
                        ∧ row !! Z.to_nat x = Some c
                        ∧ Grid.cell_at g x y = Ok c).
Proof.
  split.
  - intros e He. unfold Grid.__init__ in He.
    destruct inv as [|row0 rest].
    { injection He as <-. split; [done|by left]. }
    change (py_getitem (row0 :: rest) 0) with (Ok (A:=list cell) row0) in He.
    cbn [bind] in He.
    destruct (list_comp _ _) as [grid|e'] eqn:Hgrid; [done|].
    cbn [bind] in He. injection He as <-.
    apply list_comp_Raise in Hgrid as (x & Hx%elem_of_py_range & Hcol).
    apply list_comp_Raise in Hcol as (y & Hy%elem_of_py_range & Hcell).
    destruct (py_getitem_in_range (row0 :: rest) y) as (row & Hrow & Hlook);
      [done|].
    rewrite Hrow in Hcell. cbn [bind] in Hcell.
    split; [by eapply py_getitem_Raise|]. right.
    exists row0, row. split; [done|].
    split; [by eapply list_elem_of_lookup_2|].
    destruct (decide (length row0 ≤ length row)%nat) as [Hle|]; [|lia].
    destruct (py_getitem_in_range row x) as (c & Hc & _); [lia|].
    congruence.
  - intros g Hg. split; [by apply (Grid_init_wf (Some inv))|].
    unfold Grid.__init__ in Hg.
    destruct inv as [|row0 rest]; [done|].
    change (py_getitem (row0 :: rest) 0) with (Ok (A:=list cell) row0) in Hg.
    cbn [bind] in Hg.
    destruct (list_comp _ _) as [grid|] eqn:Hgrid; [|done].
    cbn [bind] in Hg. injection Hg as <-.
    exists row0. split; [done|]. split; [done|]. split; [done|].
    assert (Hcells : ∀ x y, 0 ≤ x < Z.of_nat (length row0) →
              0 ≤ y < Z.of_nat (length (row0 :: rest)) →
              ∃ col row c, grid !! Z.to_nat x = Some col
                           ∧ col !! Z.to_nat y = Some c
                           ∧ (row0 :: rest) !! Z.to_nat y = Some row
                           ∧ row !! Z.to_nat x = Some c).
    { intros x y Hx Hy.
      destruct (list_comp_lookup _ _ _ _ _ Hgrid (py_range_lookup _ x Hx))
        as (col & Hcol & Hcomp).
      destruct (list_comp_lookup _ _ _ _ _ Hcomp (py_range_lookup _ y Hy))
        as (c & Hc & Hget).
      destruct (py_getitem (row0 :: rest) y) as [row|] eqn:Hrow; [|done].
      cbn [bind] in Hget.
      apply py_getitem_nonneg in Hrow; [|lia].
      apply py_getitem_nonneg in Hget; [|lia].
      by exists col, row, c. }
    split.
    + apply Forall_forall. intros row Hrow.
      apply list_elem_of_lookup_1 in Hrow as [i Hi].
      pose proof (lookup_lt_Some _ _ _ Hi) as Hlt.
      destruct (decide (length row0 ≤ length row)%nat) as [|Hshort];
        [done|exfalso].
      destruct (Hcells (Z.of_nat (length row)) (Z.of_nat i))
        as (_ & row' & c & _ & _ & Hrow' & Hc); [lia|lia|].
      rewrite Nat2Z.id in Hrow', Hc. rewrite Hi in Hrow'.
      injection Hrow' as <-. apply lookup_lt_Some in Hc. lia.
    + intros x y [Hx Hy]%within_boundaries_spec. simpl in Hx, Hy.
      destruct (Hcells x y Hx Hy) as (col & row & c & Hcol & Hc & Hrow & Hrc).
      exists row, c. split; [done|]. split; [done|].
      unfold Grid.cell_at. simpl.
      apply py_getitem_nonneg in Hcol; [|lia]. rewrite Hcol. cbn [bind].
      apply py_getitem_nonneg; [lia|done].
Qed.

(** ** The accessors and the coin locations *)

(** X2: on a well-formed grid the accessors [lookup], [is_wall], [is_coin]
    and [get_coin_id] return a value exactly for the coordinates within the
    boundaries, and raise an [AssertionError] for all others: they never
    raise an [IndexError] and never read a cell through a negative index.
    [get_coin_id] returns an id exactly where [is_coin] is true. *)
Theorem Grid_accessors_spec (g : Grid.t) (Hwf : Grid_wf g) (x y : Z) :
  if Grid.is_within_boundaries g x y then
    ∃ c, Grid.cell_at g x y = Ok c
         ∧ Grid.lookup g x y = Ok c
         ∧ Grid.is_wall g x y = Ok (bool_decide (c = Grid.WALL_SYMBOL))
         ∧ Grid.is_coin g x y
           = Ok (match c with Int _ => true | Sym _ => false end)
         ∧ Grid.get_coin_id g x y
           = Ok (match c with Int n => Some n | Sym _ => None end)
  else
    Grid.lookup g x y = Raise AssertionError
    ∧ Grid.is_wall g x y = Raise AssertionError
    ∧ Grid.is_coin g x y = Raise AssertionError
    ∧ Grid.get_coin_id g x y = Raise AssertionError.
Proof.
  destruct (Grid.is_within_boundaries g x y) eqn:Hb.
  - destruct (is_coin_in_bounds g Hwf x y Hb) as (c & Hc & Hcoin & Hwall).
    exists c. split; [done|].
    split; [by rewrite lookup_in_bounds|]. split; [done|]. split; [done|].
    unfold Grid.get_coin_id. rewrite Hb, Hcoin. cbn [py_assert bind].
    destruct c; [done|]. by rewrite Hc.
  - unfold Grid.is_wall, Grid.is_coin, Grid.get_coin_id, Grid.lookup.
    by rewrite Hb.
Qed.

(** The wall in the corner of the sample grid. *)
Lemma Grid_accessors_spec_witness :
  Grid.is_wall sample_grid 0 0 = Ok true
  ∧ Grid.get_coin_id sample_grid 7 4 = Ok (Some 0)
  ∧ Grid.lookup sample_grid (-1) 0 = Raise AssertionError.
Proof.
  pose proof (Grid_accessors_spec sample_grid sample_grid_wf 0 0) as H1.
  pose proof (Grid_accessors_spec sample_grid sample_grid_wf 7 4) as H2.
  pose proof (Grid_accessors_spec sample_grid sample_grid_wf (-1) 0) as H3.
  cbn in H1, H2, H3.
  destruct H1 as (c1 & [= <-] & _ & H1 & _).
  destruct H2 as (c2 & [= <-] & _ & _ & _ & H2).
  destruct H3 as (H3 & _).
  split; [exact H1|]. split; [exact H2 | exact H3].
Defined.

Lemma StronglySorted_py_range (n : Z) : StronglySorted Z.lt (py_range n).
Proof.
  unfold py_range. generalize 0.
  induction n as [|n Hn IH|n Hn _] using (Z.succ_pred_induction 0);
    intros m.
  - constructor.
  - rewrite seqZ_cons by lia. constructor.
    + replace (Z.pred (Z.succ n)) with n by lia. apply IH.
    + apply Forall_forall. intros k Hk%elem_of_seqZ. lia.
  - rewrite seqZ_nil by lia. constructor.
Qed.

Lemma StronglySorted_bind {A B : Type} (RA : relation A) (RB : relation B)
    (f : A → list B) (l : list A) :
  StronglySorted RA l →
  (∀ a, a ∈ l → StronglySorted RB (f a)) →
  (∀ a a' b b', RA a a' → b ∈ f a → b' ∈ f a' → RB b b') →
  StronglySorted RB (l ≫= f).
Proof.
  intros Hl Hf Hcross. induction Hl as [|a l Hl IH Ha]; simpl.
  - constructor.
  - apply StronglySorted_app_2.
    + intros b b' Hb (a' & Hb' & Ha')%list_elem_of_bind.
      rewrite Forall_forall in Ha. eapply Hcross; [by apply Ha|done|done].
    + apply Hf. constructor.
    + apply IH. intros a' Ha'. apply Hf. by constructor.
Qed.

Lemma StronglySorted_NoDup {A : Type} (R : relation A) (l : list A) :
  (∀ a, ¬ R a a) → StronglySorted R l → NoDup l.
Proof.
  intros Hirr. induction 1 as [|a l Hl IH Ha]; constructor; [|done].
  intros Hin. rewrite Forall_forall in Ha. by apply (Hirr a), Ha.
Qed.

Lemma coin_cells_sorted (g : Grid.t) : StronglySorted pair_lt (coin_cells g).
Proof.
  unfold coin_cells.
  apply (StronglySorted_bind Z.lt); [apply StronglySorted_py_range| |].
  - intros x _. unfold coin_cells_of_column.
    apply (StronglySorted_bind Z.lt); [apply StronglySorted_py_range| |].
    + intros y _. repeat case_match; repeat constructor.
    + intros y y' b b' Hy Hb Hb'.
      repeat case_match; try by apply not_elem_of_nil in Hb.
      all: try by apply not_elem_of_nil in Hb'.
      apply list_elem_of_singleton in Hb as ->.
      apply list_elem_of_singleton in Hb' as ->. right. simpl. lia.
  - intros x x' b b' Hx (y & Hb & _)%list_elem_of_bind
      (y' & Hb' & _)%list_elem_of_bind.
    repeat case_match; try by apply not_elem_of_nil in Hb.
    all: try by apply not_elem_of_nil in Hb'.
    apply list_elem_of_singleton in Hb as ->.
    apply list_elem_of_singleton in Hb' as ->. by left.
Qed.

(** X3: on a well-formed grid [get_coin_locations] returns the cells for
    which [is_coin] is true, each once, in increasing order of [(x, y)]
    (column after column, each from the top). *)
Theorem get_coin_locations_spec (g : Grid.t) (Hwf : Grid_wf g) :
  ∃ coins,
    Grid.get_coin_locations g = Ok coins
    ∧ StronglySorted pair_lt coins
    ∧ NoDup coins
    ∧ ∀ x y, (x, y) ∈ coins ↔ Grid.is_coin g x y = Ok true.
Proof.
  exists (coin_cells g). split; [by apply get_coin_locations_eq|].
  pose proof (coin_cells_sorted g) as Hsorted.
  split; [done|]. split.
  { eapply StronglySorted_NoDup; [|done]. intros a. unfold pair_lt. lia. }
  intros x y. rewrite elem_of_coin_cells. split.
  - intros [Hb [n Hn]].
    destruct (is_coin_in_bounds g Hwf x y Hb) as (c & Hc & -> & _).
    rewrite Hn in Hc. by injection Hc as <-.
  - intros Hcoin. destruct (Grid.is_within_boundaries g x y) eqn:Hb.
    + split; [done|].
      destruct (is_coin_in_bounds g Hwf x y Hb) as (c & Hc & Hcoin' & _).
      rewrite Hcoin in Hcoin'. destruct c as [|n]; [done|]. eauto.
    + unfold Grid.is_coin, Grid.lookup in Hcoin. by rewrite Hb in Hcoin.
Qed.

(** The sample grid has its one coin at [(7, 4)]. *)
Lemma get_coin_locations_spec_witness :
  ∃ coins,
    Grid.get_coin_locations sample_grid = Ok coins
    ∧ NoDup coins ∧ (7, 4) ∈ coins.
Proof.
  destruct (get_coin_locations_spec sample_grid sample_grid_wf)
    as (coins & Hcoins & _ & Hnd & Hmem).
  exists coins. split; [exact Hcoins|]. split; [exact Hnd|].
  apply Hmem. reflexivity.
Defined.

(** ** The Manhattan heuristics *)

Section manhattan.
Context (g : Grid.t) (Hwf : Grid_wf g) (s : State.t).

Lemma elem_of_uncollected_cells (x y : Z) :
  (x, y) ∈ uncollected_cells g s
  ↔ Grid.is_within_boundaries g x y = true
    ∧ ∃ n, Grid.cell_at g x y = Ok (Int n) ∧ n ∉ State.coins_collected s.
Proof.
  unfold uncollected_cells, is_uncollected.
  rewrite list_elem_of_filter, elem_of_coin_cells. simpl. split.
  - intros [Hun [Hb [n Hn]]]. split; [done|]. exists n. split; [done|].
    rewrite Hn in Hun. by apply negb_true_iff, bool_decide_eq_false in Hun.
  - intros [Hb (n & Hn & Hnot)]. split; [|eauto]. rewrite Hn.
    by apply negb_true_iff, bool_decide_eq_false.
Qed.

Lemma has_collected_is_uncollected (c : Z * Z) :
  c ∈ coin_cells g →
  has_collected_coin_at_location g s c.1 c.2
  = Ok (negb (is_uncollected g s c)).
Proof.
  destruct c as [x y]. intros [Hb [n Hn]]%elem_of_coin_cells. simpl.
  rewrite (has_collected_at_coin g Hwf s x y n) by done.
  unfold is_uncollected. simpl. by rewrite Hn, negb_involutive.
Qed.

(** A loop that folds [op] over the distances to the uncollected coins. *)
Lemma manhattan_fold_loop (op : Z → Z → Z) (l : list (Z * Z)) (acc : Z) :
  (∀ c, c ∈ l → c ∈ coin_cells g) →
  for_fold l (λ acc '(coin_x, coin_y),
    let* collected :=
      has_collected_coin_at_location g s coin_x coin_y in
    if negb collected
    then Ok (op acc (manhattan s (coin_x, coin_y)))
    else Ok acc) acc
  = Ok (foldl op acc
          (manhattan s <$> filter (λ c, is_uncollected g s c = true) l)).
Proof.
  revert acc. induction l as [|[cx cy] l IH]; intros acc Hl; [done|].
  cbn [for_fold].
  pose proof (has_collected_is_uncollected (cx, cy)
                ltac:(apply Hl; constructor)) as Hcoll.
  simpl in Hcoll. rewrite Hcoll. cbn [bind]. rewrite negb_involutive.
  assert (Hl' : ∀ c, c ∈ l → c ∈ coin_cells g)
    by (intros c Hc; apply Hl; by constructor).
  destruct (is_uncollected g s (cx, cy)) eqn:Hun; cbn [bind].
  - rewrite filter_cons_True by done. by rewrite IH.
  - rewrite filter_cons_False by (by rewrite Hun). by rewrite IH.
Qed.

Lemma manhattan_max_fold :
  ManhattanMaxHeuristic g s
  = Ok (foldl Z.max 0 (manhattan s <$> uncollected_cells g s)).
Proof.
  unfold ManhattanMaxHeuristic. rewrite get_coin_locations_eq by done.
  cbn [bind]. by apply (manhattan_fold_loop Z.max).
Qed.

Lemma manhattan_sum_fold :
  ManhattanSumHeuristic g s
  = Ok (foldl Z.add 0 (manhattan s <$> uncollected_cells g s)).
Proof.
  unfold ManhattanSumHeuristic. rewrite get_coin_locations_eq by done.
  cbn [bind]. by apply (manhattan_fold_loop Z.add).
Qed.
End manhattan.

Lemma manhattan_nonneg (s : State.t) (c : Z * Z) : 0 ≤ manhattan s c.
Proof. unfold manhattan. lia. Qed.

Lemma foldl_max_spec (l : list Z) (acc : Z) :
  acc ≤ foldl Z.max acc l
  ∧ (∀ d, d ∈ l → d ≤ foldl Z.max acc l)
  ∧ (∀ b, acc ≤ b → (∀ d, d ∈ l → d ≤ b) → foldl Z.max acc l ≤ b).
Proof.
  revert acc. induction l as [|d l IH]; intros acc; simpl.
  - split; [lia|]. split; [by intros d ?%not_elem_of_nil|]. auto.
  - destruct (IH (Z.max acc d)) as (Hacc & Hmem & Hle).
    split; [lia|]. split.
    + intros d' [->|Hd']%elem_of_cons; [lia|by apply Hmem].
    + intros b Hb Hl. apply Hle.
      * pose proof (Hl d ltac:(constructor)). lia.
      * intros d' Hd'. apply Hl. by constructor.
Qed.

Lemma foldl_max_attained (l : list Z) (acc : Z) :
  foldl Z.max acc l = acc ∨ foldl Z.max acc l ∈ l.
Proof.
  revert acc. induction l as [|d l IH]; intros acc; simpl; [by left|].
  destruct (IH (Z.max acc d)) as [->|Hin].
  - destruct (Z.max_spec acc d) as [[_ ->]|[_ ->]];
      [right; constructor|by left].
  - right. by constructor.
Qed.

Lemma foldl_add_spec (l : list Z) (acc : Z) :
  (∀ d, d ∈ l → 0 ≤ d) →
  acc ≤ foldl Z.add acc l
  ∧ (∀ d, d ∈ l → acc + d ≤ foldl Z.add acc l)
  ∧ (∀ b, (∀ d, d ∈ l → d ≤ b) →
       foldl Z.add acc l ≤ acc + Z.of_nat (length l) * b).
Proof.
  revert acc. induction l as [|d l IH]; intros acc Hpos; simpl.
  - split; [lia|]. split; [by intros d ?%not_elem_of_nil|]. intros; lia.
  - assert (Hd : 0 ≤ d) by (apply Hpos; constructor).
    destruct (IH (acc + d)) as (Hacc & Hmem & Hle).
    { intros d' Hd'. apply Hpos. by constructor. }
    split; [lia|]. split.
    + intros d' [->|Hd']%elem_of_cons; [lia|].
      pose proof (Hmem d' Hd'). lia.
    + intros b Hb.
      pose proof (Hb d ltac:(constructor)).
      pose proof (Hle b ltac:(intros d' Hd'; apply Hb; by constructor)).
      lia.
Qed.

Lemma foldl_add_foldr (l : list Z) (acc : Z) :
  foldl Z.add acc l = acc + foldr Z.add 0 l.
Proof.
  revert acc. induction l as [|d l IH]; intros acc; simpl; [lia|].
  rewrite IH. lia.
Qed.

(** X4: on a well-formed grid [ManhattanSumHeuristic] returns the sum, and
    [ManhattanMaxHeuristic] the maximum, of the Manhattan distances from the
    state to the coin cells whose coin it has not collected: the value of
    [ManhattanMaxHeuristic] is at least each of these distances, it is one
    of them when there is such a cell, and 0 when there is none.  So the
    maximum is at most the sum, and the sum is at most the maximum times
    the number of these cells. *)
Theorem ManhattanSum_and_Max (g : Grid.t) (Hwf : Grid_wf g) (s : State.t) :
  ∃ total maximum,
    ManhattanSumHeuristic g s = Ok total
    ∧ ManhattanMaxHeuristic g s = Ok maximum
    ∧ total = foldr Z.add 0 (manhattan s <$> uncollected_cells g s)
    ∧ 0 ≤ maximum ≤ total
    ∧ total ≤ Z.of_nat (length (uncollected_cells g s)) * maximum
    ∧ (∀ c, c ∈ uncollected_cells g s → manhattan s c ≤ maximum)
    ∧ (uncollected_cells g s = [] → maximum = 0)
    ∧ (uncollected_cells g s ≠ [] →
       ∃ c, c ∈ uncollected_cells g s ∧ maximum = manhattan s c).
Proof.
  exists (foldl Z.add 0 (manhattan s <$> uncollected_cells g s)),
         (foldl Z.max 0 (manhattan s <$> uncollected_cells g s)).
  split; [by apply manhattan_sum_fold|].
  split; [by apply manhattan_max_fold|].
  set (l := manhattan s <$> uncollected_cells g s).
  assert (Hpos : ∀ d, d ∈ l → 0 ≤ d).
  { intros d (c & -> & _)%list_elem_of_fmap. apply manhattan_nonneg. }
  destruct (foldl_max_spec l 0) as (Hmax0 & Hmax_mem & Hmax_le).
  destruct (foldl_add_spec l 0 Hpos) as (Hadd0 & Hadd_mem & Hadd_le).
  split.
  { by rewrite foldl_add_foldr. }
  split; [split; [done|]|].
  { apply Hmax_le; [done|]. intros d Hd. pose proof (Hadd_mem d Hd). lia. }
  split.
  { pose proof (Hadd_le _ Hmax_mem) as H. unfold l in *.
    rewrite length_fmap in H. lia. }
  split.
  { intros c Hc. apply Hmax_mem, list_elem_of_fmap. eauto. }
  split.
  { unfold l. by intros ->. }
  intros Hne.
  destruct (foldl_max_attained l 0) as [Hzero|Hin].
  - destruct (uncollected_cells g s) as [|c cells] eqn:Hcells; [done|].
    exists c. split; [constructor|].
    assert (Hc : manhattan s c ∈ l) by (unfold l; simpl; constructor).
    pose proof (Hmax_mem _ Hc). pose proof (Hpos _ Hc). lia.
  - apply list_elem_of_fmap in Hin as (c & Hc & Hin). eauto.
Qed.

(** The sample grid, from its initial state: both are [4 + 3]. *)
Lemma ManhattanSum_and_Max_witness :
  ∃ total maximum,
    ManhattanSumHeuristic sample_grid (State.mk 3 1 ∅) = Ok total
    ∧ ManhattanMaxHeuristic sample_grid (State.mk 3 1 ∅) = Ok maximum
    ∧ 0 ≤ maximum ≤ total.
Proof.
  destruct (ManhattanSum_and_Max sample_grid sample_grid_wf (State.mk 3 1 ∅))
    as (total & maximum & Hsum & Hmax & _ & Hle & _).
  exists total, maximum. split; [exact Hsum|]. split; [exact Hmax|exact Hle].
Defined.

(** The Manhattan-max estimates of a state and of one of its successor
    states. *)
Lemma manhattan_max_move (g : Grid.t) (Hwf : Grid_wf g)
    (Hids : distinct_coin_ids g) (s t : State.t)
    (Hmove : successor_of g s t) :
  ∃ m m',
    ManhattanMaxHeuristic g s = Ok m
    ∧ ManhattanMaxHeuristic g t = Ok m'
    ∧ m ≤ m' + 1 ∧ m' ≤ m + 1.
Proof.
  destruct Hmove as (succs & Hsuccs & Ht).
  rewrite get_successor_states_eq in Hsuccs by done. injection Hsuccs as <-.
  apply elem_of_successors in Ht as (Hdist & Hbt & c & Hc & _ & Hcoins).
  exists (foldl Z.max 0 (manhattan s <$> uncollected_cells g s)),
         (foldl Z.max 0 (manhattan t <$> uncollected_cells g t)).
  split; [by apply manhattan_max_fold|].
  split; [by apply manhattan_max_fold|].
  destruct (foldl_max_spec (manhattan s <$> uncollected_cells g s) 0)
    as (Hs0 & Hs_mem & Hs_le).
  destruct (foldl_max_spec (manhattan t <$> uncollected_cells g t) 0)
    as (Ht0 & Ht_mem & Ht_le).
  split.
  - apply Hs_le; [lia|].
    intros d ([x y] & -> & Hxy)%list_elem_of_fmap.
    apply elem_of_uncollected_cells in Hxy as (Hb & n & Hn & Hnot).
    destruct (decide (n ∈ State.coins_collected t)) as [Hin|Hnin].
    + rewrite Hcoins in Hin. destruct c as [sym|n']; [done|].
      apply elem_of_union in Hin as [->%elem_of_singleton|Hin]; [|done].
      destruct (Hids x y (State.x t) (State.y t) n' Hb Hbt Hn Hc)
        as [-> ->].
      unfold manhattan in *. simpl in *. lia.
    + assert (Hd : manhattan t (x, y)
                   ≤ foldl Z.max 0 (manhattan t <$> uncollected_cells g t)).
      { apply Ht_mem, list_elem_of_fmap. exists (x, y). split; [done|].
        apply elem_of_uncollected_cells. eauto. }
      unfold manhattan in *. simpl in *. lia.
  - apply Ht_le; [lia|].
    intros d ([x y] & -> & Hxy)%list_elem_of_fmap.
    apply elem_of_uncollected_cells in Hxy as (Hb & n & Hn & Hnot).
    assert (Hnot' : n ∉ State.coins_collected s).
    { intros Hin. apply Hnot. rewrite Hcoins.
      destruct c; [done|]. apply elem_of_union. by right. }
    assert (Hd : manhattan s (x, y)
                 ≤ foldl Z.max 0 (manhattan s <$> uncollected_cells g s)).
    { apply Hs_mem, list_elem_of_fmap. exists (x, y). split; [done|].
      apply elem_of_uncollected_cells. eauto. }
    unfold manhattan in *. simpl in *. lia.
Qed.

(** X5: on a well-formed grid whose coins have pairwise distinct ids,
    [ManhattanMaxHeuristic] is consistent: along a move from a state to one
    of its successor states the estimate drops by at most one, the cost of
    the move (and it grows by at most one). *)
Theorem ManhattanMaxHeuristic_consistent (g : Grid.t) (Hwf : Grid_wf g)
    (Hids : distinct_coin_ids g) (s t : State.t)
    (Hmove : successor_of g s t) :
  ∃ m m',
    ManhattanMaxHeuristic g s = Ok m
    ∧ ManhattanMaxHeuristic g t = Ok m'
    ∧ m ≤ m' + 1 ∧ m' ≤ m + 1.
Proof. by apply manhattan_max_move. Qed.

Lemma sample_grid_distinct_ids : distinct_coin_ids sample_grid.
Proof.
  intros x y x' y' n Hb Hb' Hc Hc'.
  assert (H : (x, y) ∈ coin_cells sample_grid)
    by (apply elem_of_coin_cells; eauto).
  assert (H' : (x', y') ∈ coin_cells sample_grid)
    by (apply elem_of_coin_cells; eauto).
  vm_compute in H, H'.
  apply list_elem_of_singleton in H as [= -> ->].
  by apply list_elem_of_singleton in H' as [= -> ->].
Qed.

(** The first move to the right on the sample grid. *)
Lemma ManhattanMaxHeuristic_consistent_witness :
  ∃ m m',
    ManhattanMaxHeuristic sample_grid (State.mk 3 1 ∅) = Ok m
    ∧ ManhattanMaxHeuristic sample_grid (State.mk 4 1 ∅) = Ok m'
    ∧ m ≤ m' + 1.
Proof.
  assert (Hmove : successor_of sample_grid (State.mk 3 1 ∅) (State.mk 4 1 ∅)).
  { eexists. split; [by apply get_successor_states_eq, sample_grid_wf|].
    apply elem_of_successors. split; [reflexivity|]. split; [reflexivity|].
    exists (Sym " "). split; [reflexivity|]. split; [discriminate|].
    reflexivity. }
  destruct (ManhattanMaxHeuristic_consistent sample_grid sample_grid_wf
              sample_grid_distinct_ids _ _ Hmove)
    as (m & m' & Hm & Hm' & Hle & _).
  exists m, m'. split; [exact Hm|]. split; [exact Hm'|exact Hle].
Defined.

(** ** The ordered-sum heuristic *)

Lemma StronglySorted_filter {A : Type} (R : relation A) (P : A → Prop)
    `{!∀ a, Decision (P a)} (l : list A) :
  StronglySorted R l → StronglySorted R (filter P l).
Proof.
  induction 1 as [|a l Hl IH Ha].
  - constructor.
  - rewrite filter_cons. case_decide; [|done]. constructor; [done|].
    rewrite Forall_forall in *. intros b [_ Hb]%list_elem_of_filter. auto.
Qed.

(** Sorting a list of tuples that is in increasing order changes nothing. *)
Lemma py_sort_sorted (l : list (Z * Z)) :
  StronglySorted pair_lt l → py_sort l = l.
Proof.
  unfold py_sort. induction 1 as [|a l Hl IH Ha]; simpl; [done|].
  rewrite IH. destruct l as [|b l]; [done|]. simpl.
  apply Forall_cons_1 in Ha as [Hab _].
  assert (pair_le a b = true) as ->; [|done].
  unfold pair_le, pair_lt in *. case_bool_decide; simpl; apply Z.leb_le; lia.
Qed.

Lemma for_fold_fmap {A B S : Type} (f : A → B) (l : list A)
    (body : S → B → result S) (acc : S) :
  for_fold (f <$> l) body acc = for_fold l (λ acc a, body acc (f a)) acc.
Proof.
  revert acc. induction l as [|a l IH]; intros acc; simpl; [done|].
  destruct (body acc (f a)); simpl; [apply IH|done].
Qed.

Lemma for_fold_ext {A S : Type} (l : list A) (body body' : S → A → result S)
    (acc : S) :
  (∀ acc a, a ∈ l → body acc a = body' acc a) →
  for_fold l body acc = for_fold l body' acc.
Proof.
  revert acc. induction l as [|a l IH]; intros acc H; simpl; [done|].
  rewrite (H acc a) by constructor.
  destruct (body' acc a); simpl; [|done].
  apply IH. intros acc' b Hb. apply H. by constructor.
Qed.

Lemma py_getitem_cons {A : Type} (a : A) (l : list A) (i : Z) :
  0 ≤ i → py_getitem (a :: l) (1 + i) = py_getitem l i.
Proof.
  intros Hi. unfold py_getitem. cbn [length].
  destruct (Z.ltb_spec (1 + i) 0); [lia|].
  destruct (Z.ltb_spec i 0); [lia|].
  destruct (Z.leb_spec 0 (1 + i)); [|lia].
  destruct (Z.leb_spec 0 i); [|lia]. simpl.
  replace (Z.to_nat (1 + i)) with (S (Z.to_nat i)) by lia. simpl.
  destruct (Z.ltb_spec (1 + i) (Z.of_nat (S (length l))));
    destruct (Z.ltb_spec i (Z.of_nat (length l))); (done || lia).
Qed.

(** The loop that adds up the distances between neighbours in the list. *)
Lemma path_length_loop (l : list (Z * Z)) (acc : Z) :
  for_fold (py_range (Z.of_nat (length l) - 1))
    (λ dist_sum i,
      let* a := py_getitem l i in
      let* b := py_getitem l (i + 1) in
      Ok (dist_sum + (Z.abs (a.1 - b.1) + Z.abs (a.2 - b.2)))) acc
  = Ok (acc + path_length l).
Proof.
  revert acc. induction l as [|a l IH]; intros acc.
  { simpl. f_equal. lia. }
  destruct l as [|b l].
  { simpl. f_equal. lia. }
  unfold py_range in *.
  replace (Z.of_nat (length (a :: b :: l)) - 1)
    with (Z.of_nat (length (b :: l))) by (simpl; lia).
  rewrite seqZ_cons by (simpl; lia). cbn [for_fold].
  change (py_getitem (a :: b :: l) 0) with (Ok (A:=Z * Z) a).
  replace (0 + 1) with (1 + 0) by lia. rewrite py_getitem_cons by lia.
  change (py_getitem (b :: l) 0) with (Ok (A:=Z * Z) b).
  cbn [bind].
  replace (Z.succ 0) with (1 + 0) by lia.
  rewrite <- fmap_add_seqZ, for_fold_fmap.
  replace (Z.pred (Z.of_nat (length (b :: l))))
    with (Z.of_nat (length (b :: l)) - 1) by lia.
  erewrite for_fold_ext; [rewrite IH|].
  - f_equal. cbn [path_length]. lia.
  - intros acc' i Hi%elem_of_seqZ. cbn beta.
    rewrite py_getitem_cons by lia.
    replace (1 + i + 1) with (1 + (i + 1)) by lia.
    by rewrite py_getitem_cons by lia.
Qed.

Lemma path_length_nonneg (l : list (Z * Z)) : 0 ≤ path_length l.
Proof.
  induction l as [|a [|b l] IH]; simpl in *; lia.
Qed.

Section ordered_sum.
Context (g : Grid.t) (Hwf : Grid_wf g) (s : State.t).

(** The loop that looks for the nearest uncollected coin. *)
Lemma nearest_coin_loop (l : list (Z * Z)) (acc : Z * Z * Z) :
  (∀ c, c ∈ l → c ∈ coin_cells g) →
  ∃ r,
    for_fold l (λ '(dist, c1_x, c1_y) '(coin_x, coin_y),
      let* collected :=
        has_collected_coin_at_location g s coin_x coin_y in
      if negb collected then
        let Sum := manhattan s (coin_x, coin_y) in
        if Sum <? dist then Ok (Sum, coin_x, coin_y)
        else Ok (dist, c1_x, c1_y)
      else Ok (dist, c1_x, c1_y)) acc = Ok r
    ∧ (r = acc
       ∨ ∃ c, c ∈ filter (λ c, is_uncollected g s c = true) l
              ∧ r = (manhattan s c, c.1, c.2))
    ∧ r.1.1 ≤ acc.1.1
    ∧ ∀ c, c ∈ filter (λ c, is_uncollected g s c = true) l →
           r.1.1 ≤ manhattan s c.
Proof.
  revert acc. induction l as [|[cx cy] l IH]; intros [[dist c1x] c1y] Hl.
  { eexists. split; [done|]. split; [by left|]. split; [done|].
    by intros c ?%not_elem_of_nil. }
  assert (Hl' : ∀ c, c ∈ l → c ∈ coin_cells g)
    by (intros c Hc; apply Hl; by constructor).
  cbn [for_fold].
  pose proof (has_collected_is_uncollected g Hwf s (cx, cy)
                ltac:(apply Hl; constructor)) as Hcoll.
  simpl in Hcoll. rewrite Hcoll. cbn [bind]. rewrite negb_involutive.
  destruct (is_uncollected g s (cx, cy)) eqn:Hun.
  - rewrite filter_cons_True by done. cbv zeta in IH |- *.
    destruct (Z.ltb_spec (manhattan s (cx, cy)) dist) as [Hlt|Hge];
      cbn [bind].
    + destruct (IH (manhattan s (cx, cy), cx, cy) Hl')
        as (r & -> & Hr & Hle & Hmin).
      exists r. split; [done|]. simpl in *. split.
      { right. destruct Hr as [->|(c & Hc & ->)].
        - exists (cx, cy). split; [constructor|done].
        - exists c. split; [by constructor|done]. }
      split; [lia|].
      intros c [->|Hc]%elem_of_cons; [done|by apply Hmin].
    + destruct (IH (dist, c1x, c1y) Hl') as (r & -> & Hr & Hle & Hmin).
      exists r. split; [done|]. simpl in *. split.
      { destruct Hr as [->|(c & Hc & ->)]; [by left|].
        right. exists c. split; [by constructor|done]. }
      split; [done|].
      intros c [->|Hc]%elem_of_cons; [lia|by apply Hmin].
  - rewrite filter_cons_False by (by rewrite Hun). cbn [bind].
    by apply IH.
Qed.

(** The loop that collects the uncollected coin cells. *)
Lemma uncollected_loop (l : list (Z * Z)) (acc : list (Z * Z)) :
  (∀ c, c ∈ l → c ∈ coin_cells g) →
  for_fold l (λ acc '(coin_x, coin_y),
    let* collected :=
      has_collected_coin_at_location g s coin_x coin_y in
    if negb collected then Ok (acc ++ [(coin_x, coin_y)]) else Ok acc) acc
  = Ok (acc ++ filter (λ c, is_uncollected g s c = true) l).
Proof.
  revert acc. induction l as [|[cx cy] l IH]; intros acc Hl.
  { simpl. by rewrite app_nil_r. }
  assert (Hl' : ∀ c, c ∈ l → c ∈ coin_cells g)
    by (intros c Hc; apply Hl; by constructor).
  cbn [for_fold].
  pose proof (has_collected_is_uncollected g Hwf s (cx, cy)
                ltac:(apply Hl; constructor)) as Hcoll.
  simpl in Hcoll. rewrite Hcoll. cbn [bind]. rewrite negb_involutive.
  destruct (is_uncollected g s (cx, cy)) eqn:Hun; cbn [bind].
  - rewrite filter_cons_True by done. rewrite IH by done.
    by rewrite <- app_assoc.
  - rewrite filter_cons_False by (by rewrite Hun). by apply IH.
Qed.
End ordered_sum.

(** X6: on a well-formed grid, for a state whose uncollected coins are all
    nearer than [32 ** 32], [ManhattanOrderedSumHeuristic] returns the
    distance from the state to a nearest uncollected coin cell plus the
    length of the walk through the uncollected coin cells in the order of
    [get_coin_locations] (sorting them changes nothing: they are met in
    increasing order); with no uncollected coin it returns [|x| + |y|].
    The result is never negative. *)
Theorem ManhattanOrderedSumHeuristic_spec (g : Grid.t) (Hwf : Grid_wf g)
    (s : State.t)
    (Hnear : ∀ c, c ∈ uncollected_cells g s → manhattan s c < 32 ^ 32) :
  ∃ v,
    ManhattanOrderedSumHeuristic g s = Ok v
    ∧ 0 ≤ v
    ∧ (uncollected_cells g s = [] →
       v = Z.abs (State.x s) + Z.abs (State.y s))
    ∧ (uncollected_cells g s ≠ [] →
       ∃ c1, c1 ∈ uncollected_cells g s
             ∧ (∀ c, c ∈ uncollected_cells g s →
                  manhattan s c1 ≤ manhattan s c)
             ∧ v = manhattan s c1 + path_length (uncollected_cells g s)).
Proof.
  unfold ManhattanOrderedSumHeuristic.
  rewrite get_coin_locations_eq by done. cbn [bind].
  destruct (nearest_coin_loop g Hwf s (coin_cells g) (32 ^ 32, 0, 0))
    as ([[dist c1x] c1y] & Hloop & Hr & _ & Hmin); [done|].
  cbv zeta in Hloop. rewrite Hloop. cbn [bind].
  rewrite (uncollected_loop g Hwf s (coin_cells g) []) by done.
  cbn [bind app]. fold (uncollected_cells g s) in *.
  rewrite py_sort_sorted
    by (apply StronglySorted_filter, coin_cells_sorted).
  rewrite path_length_loop. cbn [bind].
  pose proof (path_length_nonneg (uncollected_cells g s)) as Hpath.
  eexists. split; [done|]. split; [lia|]. split.
  - intros Hnil. rewrite Hnil in *.
    destruct Hr as [[= -> -> ->]|(c & Hc & _)];
      [simpl; lia|by apply not_elem_of_nil in Hc].
  - intros Hne. destruct Hr as [[= -> -> ->]|(c1 & Hc1 & [= -> -> ->])].
    + exfalso. destruct (uncollected_cells g s) as [|c l] eqn:Hl; [done|].
      pose proof (Hmin c ltac:(constructor)) as Hle.
      pose proof (Hnear c ltac:(constructor)) as Hlt.
      simpl in Hle. lia.
    + exists c1. split; [done|]. split; [exact Hmin|].
      unfold manhattan. lia.
Qed.

(** The sample grid, from its initial state, with its one coin. *)
Lemma ManhattanOrderedSumHeuristic_spec_witness :
  ManhattanOrderedSumHeuristic sample_grid (State.mk 3 1 ∅) = Ok 7.
Proof.
  assert (Hcells : uncollected_cells sample_grid (State.mk 3 1 ∅) = [(7, 4)])
    by (vm_compute; reflexivity).
  destruct (ManhattanOrderedSumHeuristic_spec sample_grid sample_grid_wf
              (State.mk 3 1 ∅)) as (v & Hv & _ & _ & Hsome).
  { intros c. rewrite Hcells. intros ->%list_elem_of_singleton.
    vm_compute. reflexivity. }
  rewrite Hv. f_equal.
  destruct Hsome as (c1 & Hc1 & _ & ->); [by rewrite Hcells|].
  rewrite Hcells in *. apply list_elem_of_singleton in Hc1 as ->.
  reflexivity.
Defined.

(** ** What the search returns *)

(** A search that returns a result went through a run of the loop that
    ended by [break] or with an empty open list. *)
Lemma astar_loop_run (g : Grid.t) (heuristic : Heuristic) (num_coins : Z)
    (vars0 : search_vars) (rounds : nat)
    (counted : list (gset Z * Z * Z)) (vars : search_vars)
    (r : SearchResult.t) :
  astar_setup g heuristic = Ok (num_coins, vars0) →
  run_to g heuristic counted Continue vars →
  astar_loop rounds g heuristic num_coins vars = Some (Ok r) →
  ∃ counted' exit vars',
    run_to g heuristic counted' exit vars'
    ∧ r = result_ vars'
    ∧ (exit = Break ∨ (exit = Continue ∧ open_list vars' = [])).
Proof.
  intros Hsetup. revert counted vars.
  induction rounds as [|rounds IH]; intros counted vars Hrun; simpl.
  - destruct (open_list vars) eqn:Hol; [|done].
    intros [= <-]. exists counted, Continue, vars. auto.
  - destruct (open_list vars) eqn:Hol.
    { intros [= <-]. exists counted, Continue, vars. auto. }
    destruct (astar_iteration g heuristic num_coins vars)
      as [[[] vars']|e] eqn:Hiter; [| |done].
    + apply (IH (counted ++ counted_key vars)).
      eapply run_round; [done|done| |done]. by rewrite Hol.
    + intros [= <-].
      exists (counted ++ counted_key vars), Break, vars'.
      split; [|auto]. eapply run_round; [done|done| |done]. by rewrite Hol.
Qed.

Lemma astar_search_run (g : Grid.t) (heuristic : Heuristic) (rounds : nat)
    (r : SearchResult.t) :
  astar_search rounds g heuristic = Some (Ok r) →
  ∃ num_coins vars0 counted exit vars,
    astar_setup g heuristic = Ok (num_coins, vars0)
    ∧ run_to g heuristic counted exit vars
    ∧ r = result_ vars
    ∧ (exit = Break ∨ (exit = Continue ∧ open_list vars = [])).
Proof.
  unfold astar_search.
  destruct (astar_setup g heuristic) as [[num_coins vars0]|] eqn:Hsetup;
    [|done].
  intros Hloop.
  destruct (astar_loop_run _ _ _ _ _ [] vars0 _ Hsetup
              (run_setup _ _ _ _ Hsetup) Hloop)
    as (counted & exit & vars & Hrun & Hr & Hexit).
  by exists num_coins, vars0, counted, exit, vars.
Qed.

Lemma pushed_node_init (n node : SearchNode.t) :
  SearchNode.parent n = Some node →
  SearchNode.g n = SearchNode.g node + 1 →
  n = SearchNode.__init__ (SearchNode.state n) (SearchNode.h n) (Some node).
Proof. destruct n. simpl. by intros -> ->. Qed.

Lemma extract_plan_child (p : SearchNode.t) (s : State.t) (h : Z) :
  SearchNode.extract_plan (SearchNode.__init__ s h (Some p))
  = SearchNode.extract_plan p ++ [s].
Proof.
  unfold SearchNode.extract_plan. simpl. by rewrite reverse_cons.
Qed.

(** The plan of a node built by a search: a walk from the initial state to
    the state of the node, of as many moves as the node's [g]. *)
Lemma node_from_plan (g : Grid.t) (s0 : State.t) (n : SearchNode.t) :
  node_from g s0 n →
  head (SearchNode.extract_plan n) = Some s0
  ∧ last (SearchNode.extract_plan n) = Some (SearchNode.state n)
  ∧ Z.of_nat (length (SearchNode.extract_plan n)) = SearchNode.g n + 1
  ∧ ∀ i s t, SearchNode.extract_plan n !! i = Some s →
             SearchNode.extract_plan n !! S i = Some t →
             successor_of g s t.
Proof.
  induction 1 as [h|p s h Hp IH Hmove].
  - split; [done|]. split; [done|]. split; [done|].
    intros [|i] s t; simpl; done.
  - destruct IH as (Hhead & Hlast & Hlen & Hsteps).
    rewrite extract_plan_child.
    destruct (SearchNode.extract_plan p) as [|s1 l] eqn:Hplan; [done|].
    split; [done|]. split; [by rewrite last_snoc|].
    split; [rewrite length_app; simpl in *; lia|].
    intros i s' t Hs' Ht.
    destruct (decide (S i < length (s1 :: l))%nat) as [Hlt|Hge].
    + rewrite lookup_app_l in Hs' by lia. rewrite lookup_app_l in Ht by lia.
      by eapply Hsteps.
    + pose proof (lookup_lt_Some _ _ _ Ht) as Hi.
      rewrite length_app in Hi. simpl in Hi.
      assert (S i = length (s1 :: l)) as Hi' by (simpl in *; lia).
      rewrite Hi', lookup_app_r in Ht by lia.
      rewrite Nat.sub_diag in Ht. injection Ht as <-.
      rewrite lookup_app_l in Hs' by lia.
      rewrite last_lookup in Hlast.
      replace (pred (length (s1 :: l))) with i in Hlast by lia.
      rewrite Hs' in Hlast. by injection Hlast as ->.
Qed.

(** The nodes of the open list come from the initial state; the plan is set
    by the [break] only, from such a node with as many coins as the grid
    has coin cells. *)
Lemma run_nodes (g : Grid.t) (heuristic : Heuristic)
    (counted : list (gset Z * Z * Z)) (exit : loop_exit) (vars : search_vars) :
  run_to g heuristic counted exit vars →
  ∃ s0 coins,
    Grid.get_initial_state g = Ok (Some s0)
    ∧ Grid.get_coin_locations g = Ok coins
    ∧ (∀ n, n ∈ open_list vars → node_from g s0 n)
    ∧ match exit with
      | Continue => SearchResult.plan (result_ vars) = None
      | Break =>
          ∃ node, node_from g s0 node
                  ∧ size (State.coins_collected (SearchNode.state node))
                    = length coins
                  ∧ SearchResult.plan (result_ vars)
                    = Some (SearchNode.extract_plan node)
      end.
Proof.
  induction 1 as [num_coins vars Hsetup
                 |num_coins vars0 counted vars exit vars' Hsetup Hrun IH
                    Hopen Hiter].
  - apply astar_setup_inv in Hsetup
      as (s0 & h0 & coins & Hinit & Hcoins & _ & _ & ->).
    exists s0, coins. split; [done|]. split; [done|]. simpl.
    split; [|done]. intros n ->%list_elem_of_singleton. constructor.
  - destruct IH as (s0 & coins & Hinit & Hcoins & Hnodes & Hplan).
    exists s0, coins. split; [done|]. split; [done|].
    apply astar_setup_inv in Hsetup
      as (s0' & h0 & coins' & Hinit' & Hcoins' & _ & -> & _).
    rewrite Hcoins in Hcoins'. injection Hcoins' as <-.
    apply astar_iteration_cases in Hiter as (node & ol & Hpop & Hcases).
    pose proof (heappop_perm _ _ _ _ Hpop) as Hperm.
    assert (Hol : ∀ n, n ∈ ol → node_from g s0 n).
    { intros n Hn. apply Hnodes. rewrite Hperm. by constructor. }
    assert (Hnode : node_from g s0 node).
    { apply Hnodes. rewrite Hperm. constructor. }
    destruct Hcases as [(_ & -> & ->)
                       |[(_ & Hgoal & -> & ->)
                        |(_ & _ & -> & Hexp)]]; simpl.
    + done.
    + split; [done|]. exists node. split; [done|]. split; [lia|done].
    + destruct Hexp as (succs & ol' & vis' & res' & Hsuccs & Hfold & ->).
      apply visit_successors_spec in Hfold
        as (pushed & Hperm' & Hst & Hn & _ & _ & _ & _ & Hplan').
      simpl in *. split; [|by rewrite Hplan'].
      intros n. rewrite Hperm'. intros [Hin|Hin]%elem_of_app; [|by auto].
      destruct (Hn n Hin) as (Hpar & Hg & _).
      rewrite (pushed_node_init n node Hpar Hg). constructor; [done|].
      exists succs. split; [done|].
      assert (Hs : SearchNode.state n ∈ SearchNode.state <$> pushed)
        by (apply list_elem_of_fmap; eauto).
      rewrite Hst in Hs. by apply list_elem_of_filter in Hs as [_ Hs].
Qed.

(** X7: a plan returned by [astar_search] is a walk on the grid: it starts
    with the initial state, every state but the first is one of the
    successor states of the one before, and the last state has collected as
    many coins as the grid has coin cells. *)
Theorem astar_search_plan_valid (g : Grid.t) (heuristic : Heuristic)
    (rounds : nat) (r : SearchResult.t) (plan : list State.t)
    (Hsearch : astar_search rounds g heuristic = Some (Ok r))
    (Hplan : SearchResult.plan r = Some plan) :
  ∃ initial_state coins goal,
    Grid.get_initial_state g = Ok (Some initial_state)
    ∧ Grid.get_coin_locations g = Ok coins
    ∧ head plan = Some initial_state
    ∧ last plan = Some goal
    ∧ size (State.coins_collected goal) = length coins
    ∧ ∀ i s t, plan !! i = Some s → plan !! S i = Some t →
               ∃ succs, Grid.get_successor_states g s = Ok succs
                        ∧ t ∈ succs.
Proof.
  apply astar_search_run in Hsearch
    as (num_coins & vars0 & counted & exit & vars & _ & Hrun & -> & _).
  apply run_nodes in Hrun as (s0 & coins & Hinit & Hcoins & _ & Hexit).
  destruct exit; [congruence|].
  destruct Hexit as (node & Hnode & Hgoal & Hplan').
  rewrite Hplan in Hplan'. injection Hplan' as ->.
  destruct (node_from_plan _ _ _ Hnode) as (Hhead & Hlast & _ & Hsteps).
  exists s0, coins, (SearchNode.state node).
  repeat (split; [done|]). exact Hsteps.
Qed.

Lemma returned_plan_inv (o : option (result SearchResult.t)) :
  returned_plan o = true →
  ∃ r plan, o = Some (Ok r) ∧ SearchResult.plan r = Some plan.
Proof.
  destruct o as [[r|]|]; [|done..]. simpl.
  destruct (SearchResult.plan r) as [plan|] eqn:Hplan; [|done]. eauto.
Qed.

Lemma returned_no_plan_inv (o : option (result SearchResult.t)) :
  returned_no_plan o = true →
  ∃ r, o = Some (Ok r) ∧ SearchResult.plan r = None.
Proof.
  destruct o as [[r|]|]; [|done..]. simpl.
  destruct (SearchResult.plan r) as [plan|] eqn:Hplan; [done|]. eauto.
Qed.

(** The search of the sample grid with the blind heuristic. *)
Lemma astar_search_plan_valid_witness :
  ∃ r plan,
    astar_search 200 sample_grid BlindHeuristic = Some (Ok r)
    ∧ SearchResult.plan r = Some plan
    ∧ head plan = Some (State.mk 3 1 ∅).
Proof.
  assert (H : returned_plan (astar_search 200 sample_grid BlindHeuristic)
              = true) by (vm_compute; reflexivity).
  apply returned_plan_inv in H as (r & plan & Hr & Hplan).
  exists r, plan. split; [exact Hr|]. split; [exact Hplan|].
  destruct (astar_search_plan_valid _ _ _ _ _ Hr Hplan)
    as (s0 & coins & goal & Hinit & _ & Hhead & _).
  rewrite Hhead. f_equal.
  assert (Hinit' : Grid.get_initial_state sample_grid
                   = Ok (Some (State.mk 3 1 ∅))) by reflexivity.
  rewrite Hinit in Hinit'. by injection Hinit' as ->.
Defined.

Lemma table_key_inj (s t : State.t) : table_key s = table_key t → s = t.
Proof. destruct s, t. unfold table_key. simpl. by intros [= -> -> ->]. Qed.

(** While the loop runs, the flagged states are no goal states, and each
    of their successor states is flagged or waits in the open list; so
    does the initial state. *)
Lemma run_closed (g : Grid.t) (heuristic : Heuristic)
    (counted : list (gset Z * Z * Z)) (vars : search_vars) :
  run_to g heuristic counted Continue vars →
  ∃ s0 coins,
    Grid.get_initial_state g = Ok (Some s0)
    ∧ Grid.get_coin_locations g = Ok coins
    ∧ (∀ s, table_key s ∈ expanded vars →
         size (State.coins_collected s) ≠ length coins
         ∧ ∀ t, successor_of g s t →
                table_key t ∈ expanded vars
                ∨ ∃ n, n ∈ open_list vars ∧ SearchNode.state n = t)
    ∧ (table_key s0 ∈ expanded vars
       ∨ ∃ n, n ∈ open_list vars ∧ SearchNode.state n = s0).
Proof.
  intros Hrun. remember Continue as exit eqn:Hexit in Hrun. revert Hexit.
  induction Hrun as [num_coins vars Hsetup
                    |num_coins vars0 counted vars exit vars' Hsetup Hrun IH
                       Hopen Hiter]; intros Hexit.
  - apply astar_setup_inv in Hsetup
      as (s0 & h0 & coins & Hinit & Hcoins & _ & _ & ->).
    exists s0, coins. split; [done|]. split; [done|]. simpl.
    split; [by intros s ?%not_elem_of_empty|].
    right. eexists. split; [by apply list_elem_of_singleton|done].
  - subst exit. destruct (IH eq_refl) as (s0 & coins & Hinit & Hcoins & Hclosed & Hs0).
    exists s0, coins. split; [done|]. split; [done|].
    apply astar_setup_inv in Hsetup
      as (s0' & h0 & coins' & _ & Hcoins' & _ & -> & _).
    rewrite Hcoins in Hcoins'. injection Hcoins' as <-.
    apply astar_iteration_cases in Hiter as (node & ol & Hpop & Hcases).
    pose proof (heappop_perm _ _ _ _ Hpop) as Hperm.
    assert (Hopen_cases : ∀ n, n ∈ open_list vars → n = node ∨ n ∈ ol).
    { intros n. rewrite Hperm. by intros ?%elem_of_cons. }
    destruct Hcases as [(Hflag & _ & ->)
                       |[(_ & _ & ? & _)
                        |(Hflag & Hgoal & _ & Hexp)]]; [|done|].
    + apply bool_decide_eq_true in Hflag. simpl.
      assert (Hwait : ∀ t,
        (table_key t ∈ expanded vars
         ∨ ∃ n, n ∈ open_list vars ∧ SearchNode.state n = t) →
        table_key t ∈ expanded vars
        ∨ ∃ n, n ∈ ol ∧ SearchNode.state n = t).
      { intros t [?|(n & Hn & <-)]; [by left|].
        destruct (Hopen_cases n Hn) as [->|Hn']; [by left|].
        right. eauto. }
      split; [|by apply Hwait].
      intros s Hs. destruct (Hclosed s Hs) as [Hsize Hsucc].
      split; [done|]. intros t Ht. by apply Hwait, Hsucc.
    + apply bool_decide_eq_false in Hflag.
      destruct Hexp as (succs & ol' & vis' & res' & Hsuccs & Hfold & ->).
      apply visit_successors_spec in Hfold as (pushed & Hperm' & Hst & _).
      simpl. unfold SearchNode.set_flag.
      assert (Hwait : ∀ t,
        (table_key t ∈ expanded vars
         ∨ ∃ n, n ∈ open_list vars ∧ SearchNode.state n = t) →
        table_key t
          ∈ ({[table_key (SearchNode.state node)]} : gset _) ∪ expanded vars
        ∨ ∃ n, n ∈ ol' ∧ SearchNode.state n = t).
      { intros t [?|(n & Hn & <-)].
        - left. apply elem_of_union. by right.
        - destruct (Hopen_cases n Hn) as [->|Hn'].
          + left. apply elem_of_union. left. by apply elem_of_singleton.
          + right. exists n. split; [|done]. rewrite Hperm'.
            apply elem_of_app. by right. }
      split; [|by apply Hwait].
      intros s [Hs%elem_of_singleton|Hs]%elem_of_union.
      * apply table_key_inj in Hs as ->. split; [lia|].
        intros t (succs' & Hsuccs' & Ht).
        rewrite Hsuccs in Hsuccs'. injection Hsuccs' as <-.
        destruct (decide (table_key t ∈ expanded vars)) as [Hin|Hnin].
        { left. apply elem_of_union. by right. }
        right.
        assert (Hin : t ∈ SearchNode.state <$> pushed)
          by (rewrite Hst; by apply list_elem_of_filter).
        apply list_elem_of_fmap in Hin as (n & -> & Hn).
        exists n. split; [|done]. rewrite Hperm'. apply elem_of_app.
        by left.
      * destruct (Hclosed s Hs) as [Hsize Hsucc].
        split; [done|]. intros t Ht. by apply Hwait, Hsucc.
Qed.

(** X8: when [astar_search] returns a result without a plan, no state that
    can be reached from the initial state through successor states has
    collected as many coins as the grid has coin cells: the search gives up
    only when there is no goal state to find. *)
Theorem astar_search_no_plan_complete (g : Grid.t) (heuristic : Heuristic)
    (rounds : nat) (r : SearchResult.t)
    (Hsearch : astar_search rounds g heuristic = Some (Ok r))
    (Hplan : SearchResult.plan r = None) :
  ∃ initial_state coins,
    Grid.get_initial_state g = Ok (Some initial_state)
    ∧ Grid.get_coin_locations g = Ok coins
    ∧ ∀ s, rtc (successor_of g) initial_state s →
           size (State.coins_collected s) ≠ length coins.
Proof.
  apply astar_search_run in Hsearch
    as (num_coins & vars0 & counted & exit & vars & _ & Hrun & -> & Hexit).
  destruct Hexit as [->|[-> Hempty]].
  { apply run_nodes in Hrun as (_ & _ & _ & _ & _ & node & _ & _ & Hsome).
    congruence. }
  apply run_closed in Hrun as (s0 & coins & Hinit & Hcoins & Hclosed & Hs0).
  exists s0, coins. split; [done|]. split; [done|].
  rewrite Hempty in *.
  assert (Hreach : ∀ s, rtc (successor_of g) s0 s →
            table_key s ∈ expanded vars).
  { apply rtc_ind_r.
    - destruct Hs0 as [|(n & Hn & _)]; [done|].
      by apply not_elem_of_nil in Hn.
    - intros s t _ Hmove Hs. destruct (Hclosed s Hs) as [_ Hsucc].
      destruct (Hsucc t Hmove) as [|(n & Hn & _)]; [done|].
      by apply not_elem_of_nil in Hn. }
  intros s Hs. by apply Hclosed, Hreach.
Qed.

(** The search of the grid whose coin is walled off. *)
Lemma astar_search_no_plan_complete_witness :
  ∃ r,
    astar_search 50 walled_grid BlindHeuristic = Some (Ok r)
    ∧ SearchResult.plan r = None
    ∧ ∀ s, rtc (successor_of walled_grid) (State.mk 1 1 ∅) s →
           size (State.coins_collected s) ≠ 1%nat.
Proof.
  assert (H : returned_no_plan (astar_search 50 walled_grid BlindHeuristic)
              = true) by (vm_compute; reflexivity).
  apply returned_no_plan_inv in H as (r & Hr & Hplan).
  exists r. split; [exact Hr|]. split; [exact Hplan|].
  destruct (astar_search_no_plan_complete _ _ _ _ Hr Hplan)
    as (s0 & coins & Hinit & Hcoins & Hnone).
  assert (Hinit' : Grid.get_initial_state walled_grid
                   = Ok (Some (State.mk 1 1 ∅))) by reflexivity.
  assert (Hcoins' : Grid.get_coin_locations walled_grid = Ok [(3, 1)])
    by reflexivity.
  rewrite Hinit in Hinit'. injection Hinit' as ->.
  rewrite Hcoins in Hcoins'. injection Hcoins' as ->.
  exact Hnone.
Defined.

(** ** The statistics and the cached estimates *)

(** The entries of [visited] and the [h] of the nodes are values of the
    heuristic; [result.visited] counts the entries but the first. *)
Lemma run_cache (g : Grid.t) (heuristic : Heuristic)
    (counted : list (gset Z * Z * Z)) (exit : loop_exit) (vars : search_vars) :
  run_to g heuristic counted exit vars →
  (∀ n, n ∈ open_list vars →
     heuristic (SearchNode.state n) = Ok (SearchNode.h n))
  ∧ (∀ s v, visited vars !! table_key s = Some v → heuristic s = Ok v)
  ∧ SearchResult.visited (result_ vars)
    = Z.of_nat (size (visited vars)) - 1.
Proof.
  induction 1 as [num_coins vars Hsetup
                 |num_coins vars0 counted vars exit vars' Hsetup Hrun IH
                    Hopen Hiter].
  - apply astar_setup_inv in Hsetup
      as (s0 & h0 & coins & _ & _ & Hh0 & _ & ->). simpl.
    split; [by intros n ->%list_elem_of_singleton|]. split.
    + intros s v Hs. apply lookup_singleton_Some in Hs as [Hkey <-].
      by apply table_key_inj in Hkey as <-.
    + by rewrite map_size_singleton.
  - destruct IH as (Inodes & Ivis & Icount).
    apply astar_iteration_cases in Hiter as (node & ol & Hpop & Hcases).
    pose proof (heappop_perm _ _ _ _ Hpop) as Hperm.
    assert (Hol : ∀ n, n ∈ ol →
              heuristic (SearchNode.state n) = Ok (SearchNode.h n)).
    { intros n Hn. apply Inodes. rewrite Hperm. by constructor. }
    destruct Hcases as [(_ & _ & ->)|[(_ & _ & _ & ->)|(_ & _ & _ & Hexp)]];
      simpl; [done|done|].
    destruct Hexp as (succs & ol' & vis' & res' & _ & Hfold & ->).
    apply visit_successors_spec in Hfold
      as (pushed & Hperm' & _ & Hn & Hold & Hnew & Hvis & _).
    simpl in *.
    assert (Ivis' : ∀ s v, vis' !! table_key s = Some v → heuristic s = Ok v).
    { intros s v Hs.
      destruct (visited vars !! table_key s) as [v'|] eqn:Hs'.
      - rewrite (Hold _ _ Hs') in Hs. injection Hs as <-. by apply Ivis.
      - destruct (Hnew _ _ Hs' Hs) as (s' & _ & Hkey & _ & Hh).
        by apply table_key_inj in Hkey as ->. }
    split; [|split; [done|lia]].
    intros n. rewrite Hperm'. intros [Hin|Hin]%elem_of_app; [|by auto].
    destruct (Hn n Hin) as (_ & _ & Hcached). by apply Ivis'.
Qed.

(** The first round counts an expansion. *)
Lemma run_counted_first (g : Grid.t) (heuristic : Heuristic)
    (counted : list (gset Z * Z * Z)) (exit : loop_exit) (vars : search_vars) :
  run_to g heuristic counted exit vars →
  counted = [] →
  expanded vars = ∅ ∧ open_list vars ≠ [] ∧ exit = Continue.
Proof.
  induction 1 as [num_coins vars Hsetup
                 |num_coins vars0 counted vars exit vars' Hsetup Hrun IH
                    Hopen Hiter].
  - apply astar_setup_inv in Hsetup as (s0 & h0 & coins & _ & _ & _ & _ & ->).
    done.
  - intros [Hcounted Hkey]%app_eq_nil. exfalso.
    destruct (IH Hcounted) as (Hexp & _ & _).
    destruct (heapq.heappop SearchNode.lt (open_list vars))
      as [[node ol]|] eqn:Hpop; [|by apply heappop_None in Hpop].
    rewrite (counted_key_flagged _ _ _ Hpop) in Hkey.
    unfold SearchNode.check_if_flagged in Hkey. rewrite Hexp in Hkey.
    by rewrite bool_decide_eq_false_2 in Hkey by apply not_elem_of_empty.
Qed.

Lemma NoDup_length_le_size (l : list (gset Z * Z * Z))
    (m : gmap (gset Z * Z * Z) Z) :
  NoDup l → (∀ k, k ∈ l → is_Some (m !! k)) → (length l ≤ size m)%nat.
Proof.
  intros Hnd Hl.
  rewrite <- (size_list_to_set (C:=gset (gset Z * Z * Z)) l) by done.
  rewrite <- size_dom. apply subseteq_size.
  intros k Hk%elem_of_list_to_set. by apply elem_of_dom, Hl.
Qed.

(** X9: the two statistics of a result that [astar_search] returns are
    related: at least one state is expanded, and at most one more state
    is expanded than visited (the count of visited states leaves out the
    initial state). *)
Theorem astar_search_statistics (g : Grid.t) (heuristic : Heuristic)
    (rounds : nat) (r : SearchResult.t)
    (Hsearch : astar_search rounds g heuristic = Some (Ok r)) :
  1 ≤ SearchResult.expansions r
  ∧ SearchResult.expansions r ≤ SearchResult.visited r + 1
  ∧ 0 ≤ SearchResult.visited r.
Proof.
  apply astar_search_run in Hsearch
    as (num_coins & vars0 & counted & exit & vars & _ & Hrun & -> & Hexit).
  destruct (run_invariant _ _ _ _ _ Hrun)
    as (_ & _ & Hnodup & _ & Hvis & Hcount).
  destruct (run_cache _ _ _ _ _ Hrun) as (_ & _ & Hvisited).
  pose proof (NoDup_length_le_size _ _ Hnodup Hvis) as Hle.
  assert (Hne : counted ≠ []).
  { intros Hnil.
    destruct (run_counted_first _ _ _ _ _ Hrun Hnil) as (_ & Hopen & Hcont).
    destruct Hexit as [->|[_ Hempty]]; done. }
  destruct counted; [done|]. simpl in *. lia.
Qed.

(** The search of the sample grid with the Manhattan-sum heuristic. *)
Lemma astar_search_statistics_witness :
  ∃ r,
    astar_search 200 sample_grid (ManhattanSumHeuristic sample_grid)
    = Some (Ok r)
    ∧ 1 ≤ SearchResult.expansions r
    ∧ SearchResult.expansions r ≤ SearchResult.visited r + 1.
Proof.
  assert (H : returned_plan
                (astar_search 200 sample_grid
                   (ManhattanSumHeuristic sample_grid)) = true)
    by (vm_compute; reflexivity).
  apply returned_plan_inv in H as (r & plan & Hr & _).
  exists r. split; [exact Hr|].
  destruct (astar_search_statistics _ _ _ _ Hr) as (H1 & H2 & _).
  split; [exact H1 | exact H2].
Defined.

(** X10: at every point of every run of the loop, each node of the open
    list carries the heuristic's value for its state as [h] and the number
    of moves of its plan as [g], and each entry of [visited] is the
    heuristic's value for the state of its key; [result.visited] is the
    number of entries but one. *)
Theorem nodes_carry_estimate_and_depth (g : Grid.t) (heuristic : Heuristic)
    (counted : list (gset Z * Z * Z)) (exit : loop_exit) (vars : search_vars)
    (Hrun : run_to g heuristic counted exit vars) :
  (∀ n, n ∈ open_list vars →
     heuristic (SearchNode.state n) = Ok (SearchNode.h n)
     ∧ SearchNode.g n
       = Z.of_nat (length (SearchNode.extract_plan n)) - 1
     ∧ last (SearchNode.extract_plan n) = Some (SearchNode.state n))
  ∧ (∀ s v, visited vars !! table_key s = Some v → heuristic s = Ok v)
  ∧ SearchResult.visited (result_ vars)
    = Z.of_nat (size (visited vars)) - 1.
Proof.
  destruct (run_cache _ _ _ _ _ Hrun) as (Hh & Hvis & Hcount).
  destruct (run_nodes _ _ _ _ _ Hrun) as (s0 & coins & _ & _ & Hnodes & _).
  split; [|done]. intros n Hn. split; [by apply Hh|].
  destruct (node_from_plan _ _ _ (Hnodes n Hn)) as (_ & Hlast & Hlen & _).
  split; [lia|done].
Qed.

(** The first two rounds of the search of the sample grid with the
    Manhattan-max heuristic. *)
Lemma nodes_carry_estimate_and_depth_witness :
  ∃ counted vars,
    run_to sample_grid (ManhattanMaxHeuristic sample_grid) counted
      Continue vars
    ∧ SearchResult.visited (result_ vars)
      = Z.of_nat (size (visited vars)) - 1.
Proof.
  pose (h := ManhattanMaxHeuristic sample_grid).
  pose (vars0 := mk_vars [SearchNode.__init__ (State.mk 3 1 ∅) 7 None] ∅
                   {[table_key (State.mk 3 1 ∅) := 7]}
                   (SearchResult.mk 0 0 None)).
  assert (Hsetup : astar_setup sample_grid h = Ok (1, vars0))
    by reflexivity.
  pose (vars1 := next_vars sample_grid h 1 vars0).
  assert (H1 : continues sample_grid h 1 vars0 = true)
    by (vm_compute; reflexivity).
  assert (H2 : continues sample_grid h 1 vars1 = true)
    by (vm_compute; reflexivity).
  apply continues_round in H1 as [Hopen1 Hiter1].
  apply continues_round in H2 as [Hopen2 Hiter2].
  pose proof (run_round _ _ _ _ _ _ _ _ Hsetup
                (run_round _ _ _ _ _ _ _ _ Hsetup
                   (run_setup _ _ _ _ Hsetup) Hopen1 Hiter1)
                Hopen2 Hiter2) as Hrun.
  destruct (nodes_carry_estimate_and_depth _ _ _ _ _ Hrun)
    as (_ & _ & Hcount).
  eexists _, _. split; [exact Hrun | exact Hcount].
Defined.

(** ** Exceptions of the search *)

Lemma ManhattanOrderedSumHeuristic_returns (g : Grid.t) (Hwf : Grid_wf g)
    (s : State.t) :
  ∃ v, ManhattanOrderedSumHeuristic g s = Ok v.
Proof.
  unfold ManhattanOrderedSumHeuristic.
  rewrite get_coin_locations_eq by done. cbn [bind].
  destruct (nearest_coin_loop g Hwf s (coin_cells g) (32 ^ 32, 0, 0))
    as ([[dist c1x] c1y] & Hloop & _); [done|].
  cbv zeta in Hloop. rewrite Hloop. cbn [bind].
  rewrite (uncollected_loop g Hwf s (coin_cells g) []) by done.
  cbn [bind app]. rewrite path_length_loop. cbn [bind]. by eexists.
Qed.

Section no_exception.
Context (g : Grid.t) (Hwf : Grid_wf g) (heuristic : Heuristic).
Context (Htotal : ∀ s, ∃ v, heuristic s = Ok v) (num_coins : Z).

Lemma visit_successors_total (node : SearchNode.t)
    (E : gset (gset Z * Z * Z)) (succs : list State.t)
    (acc : list SearchNode.t * gmap (gset Z * Z * Z) Z * SearchResult.t) :
  ∃ acc', for_fold succs (visit_successor heuristic node E) acc = Ok acc'.
Proof.
  revert acc. induction succs as [|succ succs IH]; intros [[ol vis] res].
  { by eexists. }
  cbn [for_fold].
  assert (Hone : ∃ acc',
            visit_successor heuristic node E (ol, vis, res) succ = Ok acc').
  { unfold visit_successor. case_bool_decide; [by eexists|].
    destruct (vis !! table_key succ); [by eexists|].
    destruct (Htotal succ) as [v ->]. by eexists. }
  destruct Hone as [acc' ->]. cbn [bind]. by apply IH.
Qed.

Lemma astar_iteration_total (vars : search_vars) :
  open_list vars ≠ [] →
  ∃ exit vars', astar_iteration g heuristic num_coins vars = Ok (exit, vars').
Proof.
  intros Hopen. unfold astar_iteration.
  destruct (heapq.heappop SearchNode.lt (open_list vars))
    as [[node ol]|] eqn:Hpop; [|by apply heappop_None in Hpop].
  destruct (SearchNode.check_if_flagged node (expanded vars));
    [by eexists _, _|].
  case_bool_decide; [by eexists _, _|].
  rewrite get_successor_states_eq by done. cbn [bind].
  match goal with
  | |- context [for_fold ?l (visit_successor _ _ ?E) ?acc] =>
      destruct (visit_successors_total node E l acc) as [[[ol' vis'] res'] ->]
  end.
  cbn [bind]. by eexists _, _.
Qed.

Lemma astar_loop_no_exception (rounds : nat) (vars : search_vars)
    (e : PyError) :
  astar_loop rounds g heuristic num_coins vars ≠ Some (Raise e).
Proof.
  revert vars. induction rounds as [|rounds IH]; intros vars; simpl.
  - by destruct (open_list vars).
  - destruct (open_list vars) eqn:Hol; [done|].
    destruct (astar_iteration_total vars) as (exit & vars' & ->);
      [by rewrite Hol|].
    destruct exit; [by apply IH|done].
Qed.
End no_exception.

(** X11: on a well-formed grid, with a heuristic that raises for no state,
    [astar_search] raises exactly when the grid has no start cell, and then
    an [AssertionError]; with a start cell it returns a result.  The blind
    heuristic and the three Manhattan heuristics on integers raise for no
    state of a well-formed grid. *)
Theorem astar_search_raises_iff_no_start (g : Grid.t) (Hwf : Grid_wf g) :
  (∀ heuristic : Heuristic,
     (∀ s, ∃ v, heuristic s = Ok v) →
     (has_start_cell g →
      ∃ r rounds0, ∀ rounds, (rounds0 ≤ rounds)%nat →
        astar_search rounds g heuristic = Some (Ok r))
     ∧ (¬ has_start_cell g →
        ∀ rounds, astar_search rounds g heuristic
                  = Some (Raise AssertionError)))
  ∧ ∀ heuristic : Heuristic,
      heuristic ∈ [BlindHeuristic; ManhattanMaxHeuristic g;
                   ManhattanSumHeuristic g; ManhattanOrderedSumHeuristic g] →
      ∀ s, ∃ v, heuristic s = Ok v.
Proof.
  split.
  - intros heuristic Htotal.
    destruct (get_initial_state_cases g Hwf) as (r0 & Hr0 & Hspec).
    unfold astar_search, astar_setup. rewrite Hr0.
    rewrite get_coin_locations_eq by done. cbn [bind].
    split; intros Hstart.
    + destruct r0 as [s0|]; [|done].
      destruct Hspec as (Hs0 & Hb & _).
      destruct (Htotal s0) as [h0 ->]. cbn [bind].
      set (vars0 := mk_vars _ _ _ _).
      destruct (astar_loop_terminates g Hwf heuristic
                  (Z.of_nat (length (coin_cells g)))
                  (rounds_bound g vars0) vars0) as [r Hr]; [|done|].
      { simpl. intros n ->%list_elem_of_singleton. split; [|done].
        rewrite Hs0. simpl. apply empty_subseteq. }
      destruct r as [r|e].
      * by exists r, (rounds_bound g vars0).
      * exfalso.
        apply (astar_loop_no_exception g Hwf heuristic Htotal
                 (Z.of_nat (length (coin_cells g)))
                 (rounds_bound g vars0) vars0 e).
        by apply Hr.
    + destruct r0 as [s0|]; [|done].
      destruct Hspec as (_ & Hb & Hcell & _). exfalso. apply Hstart.
      by exists (State.x s0), (State.y s0).
  - intros heuristic Hin s.
    repeat (apply elem_of_cons in Hin as [->|Hin]).
    + by eexists.
    + rewrite manhattan_max_fold by done. by eexists.
    + rewrite manhattan_sum_fold by done. by eexists.
    + by apply ManhattanOrderedSumHeuristic_returns.
    + by apply not_elem_of_nil in Hin.
Qed.

(** The searches of the sample grid, which has a start cell, with the
    ordered-sum heuristic, and of a grid without a start cell with the
    blind one. *)
Lemma astar_search_raises_iff_no_start_witness :
  (∃ r rounds0, ∀ rounds, (rounds0 ≤ rounds)%nat →
     astar_search rounds sample_grid
       (ManhattanOrderedSumHeuristic sample_grid) = Some (Ok r))
  ∧ astar_search 0 grid_no_start BlindHeuristic
    = Some (Raise AssertionError).
Proof.
  split.
  - destruct (astar_search_raises_iff_no_start sample_grid sample_grid_wf)
      as [Hsearch Hmodule].
    apply (Hsearch (ManhattanOrderedSumHeuristic sample_grid)).
    + apply Hmodule. do 3 right. left.
    + apply sample_grid_has_start.
  - destruct (astar_search_raises_iff_no_start grid_no_start
                grid_no_start_wf) as [Hsearch Hmodule].
    apply (Hsearch BlindHeuristic).
    + apply Hmodule. left.
    + apply grid_no_start_has_none.
Defined.

(** ** Plans without repetition *)

Lemma ancestors_unfold (n : SearchNode.t) :
  SearchNode.ancestors n
  = SearchNode.state n
    :: match SearchNode.parent n with
       | Some q => SearchNode.ancestors q
       | None => []
       end.
Proof. by destruct n. Qed.

(** The states above a node of the open list are pairwise different and
    different from the node's, and they are flagged as expanded; what is
    flagged has been counted. *)
Lemma run_ancestors (g : Grid.t) (Hwf : Grid_wf g) (heuristic : Heuristic)
    (counted : list (gset Z * Z * Z)) (exit : loop_exit) (vars : search_vars) :
  run_to g heuristic counted exit vars →
  (∀ n, n ∈ open_list vars →
     NoDup (SearchNode.ancestors n)
     ∧ ∀ s, s ∈ tail (SearchNode.ancestors n) →
            table_key s ∈ expanded vars)
  ∧ (∀ k, k ∈ expanded vars → k ∈ counted)
  ∧ ∀ plan, SearchResult.plan (result_ vars) = Some plan →
            NoDup plan ∧ (length plan ≤ length counted)%nat.
Proof.
  induction 1 as [num_coins vars Hsetup
                 |num_coins vars0 counted vars exit vars' Hsetup Hrun IH
                    Hopen Hiter].
  - apply astar_setup_inv in Hsetup
      as (s0 & h0 & coins & _ & _ & _ & _ & ->). simpl.
    split; [|done]. intros n ->%list_elem_of_singleton. simpl.
    split; [apply NoDup_singleton|]. by intros s ?%not_elem_of_nil.
  - destruct IH as (Inodes & Iexp & Iplan).
    apply astar_iteration_cases in Hiter as (node & ol & Hpop & Hcases).
    pose proof (heappop_perm _ _ _ _ Hpop) as Hperm.
    rewrite (counted_key_flagged _ _ _ Hpop).
    assert (Hol : ∀ n, n ∈ ol →
              NoDup (SearchNode.ancestors n)
              ∧ ∀ s, s ∈ tail (SearchNode.ancestors n) →
                     table_key s ∈ expanded vars).
    { intros n Hn. apply Inodes. rewrite Hperm. by constructor. }
    destruct (Inodes node) as [Hnd Hanc]; [rewrite Hperm; constructor|].
    destruct Hcases as [(-> & _ & ->)
                       |[(-> & _ & _ & ->)
                        |(Hflag & _ & _ & Hexp)]]; simpl.
    + rewrite app_nil_r. done.
    + split; [done|]. split.
      { intros k Hk. apply elem_of_app. left. by apply Iexp. }
      intros plan [= <-]. unfold SearchNode.extract_plan.
      split; [by rewrite reverse_Permutation|]. rewrite length_reverse.
      rewrite <- (length_fmap table_key).
      apply submseteq_length, NoDup_submseteq.
      { apply (NoDup_fmap_2_strong table_key); [|done].
        intros s t _ _. apply table_key_inj. }
      intros k (s & -> & Hs)%list_elem_of_fmap.
      rewrite ancestors_unfold in Hs. apply elem_of_app.
      apply elem_of_cons in Hs as [->|Hs]; [right; constructor|].
      left. apply Iexp, Hanc. by rewrite ancestors_unfold.
    + rewrite Hflag.
      destruct Hexp as (succs & ol' & vis' & res' & Hsuccs & Hfold & ->).
      apply visit_successors_spec in Hfold
        as (pushed & Hperm' & Hst & Hn & _ & _ & _ & _ & Hplan').
      simpl in *.
      apply bool_decide_eq_false in Hflag.
      unfold SearchNode.set_flag.
      split; [|split].
      * intros n. rewrite Hperm'. intros [Hin|Hin]%elem_of_app.
        -- destruct (Hn n Hin) as (Hpar & _ & _).
           assert (Hs : SearchNode.state n ∈ SearchNode.state <$> pushed)
             by (apply list_elem_of_fmap; eauto).
           rewrite Hst in Hs. apply list_elem_of_filter in Hs as [Hnew Hs].
           rewrite get_successor_states_eq in Hsuccs by done.
           injection Hsuccs as <-.
           apply elem_of_successors in Hs as (Hmove & _).
           rewrite (ancestors_unfold n), Hpar. cbn [tail]. split.
           ++ apply NoDup_cons. split; [|done].
              rewrite ancestors_unfold.
              intros [Heq|Hs]%elem_of_cons.
              ** rewrite Heq in Hmove. lia.
              ** apply Hnew, Hanc. by rewrite ancestors_unfold.
           ++ intros s. rewrite ancestors_unfold.
              intros [->|Hs]%elem_of_cons.
              ** apply elem_of_union. left. by apply elem_of_singleton.
              ** apply elem_of_union. right. apply Hanc.
                 by rewrite ancestors_unfold.
        -- destruct (Hol n Hin) as [Hnd' Hanc']. split; [done|].
           intros s Hs. apply elem_of_union. right. by apply Hanc'.
      * intros k [Hk%elem_of_singleton|Hk]%elem_of_union; apply elem_of_app.
        -- right. rewrite Hk. constructor.
        -- left. by apply Iexp.
      * intros plan Hplan. rewrite Hplan' in Hplan. simpl in Hplan.
        destruct (Iplan plan Hplan) as [Hnd' Hlen]. split; [done|].
        rewrite length_app. lia.
Qed.

(** X12: on a well-formed grid, a plan returned by [astar_search] goes
    through no state twice, and it has at most as many states as the
    result counts expansions. *)
Theorem astar_search_plan_no_repetition (g : Grid.t) (Hwf : Grid_wf g)
    (heuristic : Heuristic) (rounds : nat) (r : SearchResult.t)
    (plan : list State.t)
    (Hsearch : astar_search rounds g heuristic = Some (Ok r))
    (Hplan : SearchResult.plan r = Some plan) :
  NoDup plan ∧ Z.of_nat (length plan) ≤ SearchResult.expansions r.
Proof.
  apply astar_search_run in Hsearch
    as (num_coins & vars0 & counted & exit & vars & _ & Hrun & -> & _).
  destruct (run_invariant _ _ _ _ _ Hrun) as (_ & _ & _ & _ & _ & Hcount).
  destruct (run_ancestors _ Hwf _ _ _ _ Hrun) as (_ & _ & Hplans).
  destruct (Hplans plan Hplan) as [Hnd Hlen]. split; [done|]. lia.
Qed.

(** The search of the sample grid with the Manhattan-max heuristic. *)
Lemma astar_search_plan_no_repetition_witness :
  ∃ r plan,
    astar_search 200 sample_grid (ManhattanMaxHeuristic sample_grid)
    = Some (Ok r)
    ∧ SearchResult.plan r = Some plan
    ∧ NoDup plan ∧ Z.of_nat (length plan) ≤ SearchResult.expansions r.
Proof.
  assert (H : returned_plan
                (astar_search 200 sample_grid
                   (ManhattanMaxHeuristic sample_grid)) = true)
    by (vm_compute; reflexivity).
  apply returned_plan_inv in H as (r & plan & Hr & Hplan).
  exists r, plan. split; [exact Hr|]. split; [exact Hplan|].
  exact (astar_search_plan_no_repetition sample_grid sample_grid_wf _ _ _ _
           Hr Hplan).
Defined.

(** ** The comparisons of states and of search nodes *)

(** X13: the comparison methods of [State] agree with each other:
    [a > b] is [b < a], [a >= b] is [b <= a], [a <= b] is [a < b or a == b],
    and [a == b] holds for equal positions and coin sets only. *)
Theorem State_comparisons_consistent (s t : State.t) :
  State.gt s t = State.lt t s
  ∧ State.ge s t = State.le t s
  ∧ State.le s t = State.lt s t || State.eq s t
  ∧ (State.eq s t = true ↔ s = t).
Proof.
  split; [|split; [|split; [|apply State_eq_spec]]].
  - unfold State.gt, State.lt. rewrite !Z.gtb_ltb.
    repeat case_bool_decide; simpl; congruence.
  - unfold State.ge, State.le. rewrite !Z.geb_leb.
    repeat case_bool_decide; simpl; congruence.
  - unfold State.le, State.lt, State.eq.
    destruct (Z.leb_spec (State.x s) (State.x t)),
      (Z.ltb_spec (State.x s) (State.x t)),
      (Z.leb_spec (State.y s) (State.y t)),
      (Z.ltb_spec (State.y s) (State.y t));
      repeat case_bool_decide; simpl; try done; try lia; exfalso.
    all: match goal with
         | Hs : _ ⊂ _, Hn : _ ⊈ _ |- _ => by destruct Hs as [? _]
         | Hn : _ ⊄ _, Hsub : _ ⊆ _, Hne : _ ≠ _ |- _ =>
             apply Hn; split; [done|]; intros ?; apply Hne;
             by apply (anti_symm (⊆))
         end.
Qed.

Lemma SearchNode_lt_trans (a b c : SearchNode.t) :
  SearchNode.lt a b = true → SearchNode.lt b c = true →
  SearchNode.lt a c = true.
Proof.
  rewrite !SearchNode_lt_spec.
  intros [?|[[]|(? & ? & H)]] [?|[[]|(? & ? & H')]];
    try (left; lia); try (right; left; lia).
  right; right. split; [lia|]. split; [lia|]. by eapply State_lt_trans.
Qed.

(** X14: [SearchNode.__lt__] is a strict partial order on search nodes:
    no node is less than itself and the comparison is transitive.  Two
    nodes are unordered exactly when they have the same f-value and the
    same g and their states are unordered. *)
Theorem SearchNode_lt_strict_order (a b c : SearchNode.t) :
  SearchNode.lt a a = false
  ∧ (SearchNode.lt a b = true → SearchNode.lt b c = true →
     SearchNode.lt a c = true)
  ∧ (SearchNode.lt a b = false ∧ SearchNode.lt b a = false
     ↔ SearchNode.get_f_value a = SearchNode.get_f_value b
       ∧ SearchNode.g a = SearchNode.g b
       ∧ State.lt (SearchNode.state a) (SearchNode.state b) = false
       ∧ State.lt (SearchNode.state b) (SearchNode.state a) = false).
Proof.
  split; [|split; [apply SearchNode_lt_trans|]].
  - apply not_true_iff_false. rewrite SearchNode_lt_spec.
    rewrite State_lt_irrefl. intros [?|[[]|(_ & _ & ?)]]; (done || lia).
  - rewrite <- !not_true_iff_false, !SearchNode_lt_spec. split.
    + intros [Hab Hba].
      assert (SearchNode.get_f_value a = SearchNode.get_f_value b) as Hf
        by (apply Z.le_antisymm; apply Z.le_ngt; intros ?;
            [apply Hba|apply Hab]; by left).
      assert (SearchNode.g a = SearchNode.g b) as Hg
        by (apply Z.le_antisymm; apply Z.le_ngt; intros ?;
            [apply Hba|apply Hab]; right; left; split; (done || lia)).
      split; [done|]. split; [done|].
      split; intros Hlt; [apply Hab|apply Hba]; right; right; done.
    + intros (Hf & Hg & Hab & Hba).
      split; intros [?|[[]|(_ & _ & ?)]]; (congruence || lia).
Qed.

(** ** Coins *)

(** X15: on a well-formed grid, [has_collected_coin_at_location] returns
    for a coin cell within the boundaries whether the state holds the id
    of its coin, and raises an [AssertionError] for every other cell and
    for coordinates outside the boundaries. *)
Theorem has_collected_coin_at_location_spec (g : Grid.t) (Hwf : Grid_wf g)
    (s : State.t) (x y : Z) :
  if Grid.is_within_boundaries g x y then
    ∃ c, Grid.cell_at g x y = Ok c
         ∧ has_collected_coin_at_location g s x y
           = match c with
             | Int n => Ok (State.has_collected_coin s n)
             | Sym _ => Raise AssertionError
             end
  else has_collected_coin_at_location g s x y = Raise AssertionError.
Proof.
  destruct (Grid.is_within_boundaries g x y) eqn:Hb.
  - destruct (is_coin_in_bounds g Hwf x y Hb) as (c & Hc & Hcoin & _).
    exists c. split; [done|].
    destruct c as [sym|n].
    + unfold has_collected_coin_at_location. by rewrite Hcoin.
    + by apply has_collected_at_coin.
  - unfold has_collected_coin_at_location, Grid.is_coin, Grid.lookup.
    by rewrite Hb.
Qed.

(** The coin of the sample grid, and the cell of its agent. *)
Lemma has_collected_coin_at_location_spec_witness :
  has_collected_coin_at_location sample_grid (State.mk 3 1 {[0]}) 7 4
  = Ok true
  ∧ has_collected_coin_at_location sample_grid (State.mk 3 1 ∅) 3 1
    = Raise AssertionError.
Proof.
  pose proof (has_collected_coin_at_location_spec sample_grid sample_grid_wf
                (State.mk 3 1 {[0]}) 7 4) as H1.
  pose proof (has_collected_coin_at_location_spec sample_grid sample_grid_wf
                (State.mk 3 1 ∅) 3 1) as H2.
  cbn in H1, H2.
  destruct H1 as (c1 & [= <-] & H1). destruct H2 as (c2 & [= <-] & H2).
  split; [exact H1 | exact H2].
Defined.

Lemma size_list_to_set_le (l : list Z) :
  (size (list_to_set (C:=gset Z) l) ≤ length l)%nat.
Proof.
  induction l as [|a l IH]; cbn [list_to_set length].
  { by rewrite size_empty. }
  rewrite size_union_alt, size_singleton.
  pose proof (subseteq_size (list_to_set (C:=gset Z) l ∖ {[a]})
                (list_to_set l)
                ltac:(by apply subseteq_difference_l)). lia.
Qed.

Lemma size_list_to_set_NoDup (l : list Z) :
  size (list_to_set (C:=gset Z) l) = length l → NoDup l.
Proof.
  induction l as [|a l IH]; cbn [list_to_set length]; [constructor|].
  intros Hsize. pose proof (size_list_to_set_le l) as Hle.
  destruct (decide (a ∈ l)) as [Ha|Ha].
  - exfalso.
    assert ({[a]} ∪ list_to_set (C:=gset Z) l = list_to_set l) as Heq
      by (by apply subseteq_union_1_L, singleton_subseteq_l,
               elem_of_list_to_set).
    rewrite Heq in Hsize. lia.
  - rewrite size_union in Hsize
      by (by apply disjoint_singleton_l; rewrite elem_of_list_to_set).
    rewrite size_singleton in Hsize.
    constructor; [done|]. apply IH. lia.
Qed.

Lemma NoDup_bind_inj {A B : Type} (f : A → list B) (l : list A)
    (a b : A) (v : B) :
  NoDup (l ≫= f) → a ∈ l → b ∈ l → v ∈ f a → v ∈ f b → a = b.
Proof.
  induction l as [|c l IH]; [by intros _ ?%not_elem_of_nil|].
  cbn [mbind list_bind]. intros (_ & Hdisj & Hnd)%NoDup_app Ha Hb Hva Hvb.
  apply elem_of_cons in Ha as [->|Ha]; apply elem_of_cons in Hb as [->|Hb].
  - done.
  - exfalso. apply (Hdisj v Hva). apply list_elem_of_bind. eauto.
  - exfalso. apply (Hdisj v Hvb). apply list_elem_of_bind. eauto.
  - by apply IH.
Qed.

Lemma grid_coin_ids_length (g : Grid.t) :
  length (grid_coin_ids g) = length (coin_cells g).
Proof.
  unfold grid_coin_ids.
  assert (H : ∀ c, c ∈ coin_cells g →
            ∃ n, Grid.cell_at g c.1 c.2 = Ok (Int n)).
  { intros [x y] Hc. unfold coin_cells, coin_cells_of_column in Hc.
    apply list_elem_of_bind in Hc as (x' & Hc & _).
    apply list_elem_of_bind in Hc as (y' & Hc & _).
    destruct (Grid.cell_at g x' y') as [[|n]|] eqn:Hcell;
      try by apply not_elem_of_nil in Hc.
    apply list_elem_of_singleton in Hc as [= -> ->]. eauto. }
  induction (coin_cells g) as [|c l IH]; [done|].
  cbn [mbind list_bind]. rewrite length_app.
  destruct (H c ltac:(constructor)) as [n ->]. simpl. f_equal.
  apply IH. intros c' Hc'. apply H. by constructor.
Qed.

Lemma node_from_in_grid (g : Grid.t) (Hwf : Grid_wf g) (s0 : State.t)
    (n : SearchNode.t) :
  Grid.get_initial_state g = Ok (Some s0) →
  node_from g s0 n → state_in_grid g (SearchNode.state n).
Proof.
  intros Hinit. induction 1 as [h|p s h Hp IH (succs & Hsuccs & Hs)]; simpl.
  - destruct (get_initial_state_cases g Hwf) as (r0 & Hr0 & Hspec).
    rewrite Hinit in Hr0. injection Hr0 as <-.
    destruct Hspec as (Hs0 & Hb & _). split; [|done].
    rewrite Hs0. simpl. apply empty_subseteq.
  - by eapply successors_in_grid.
Qed.

(** A state of the grid that holds as many coin ids as the grid has coin
    cells holds them all, and the ids of the cells are pairwise
    distinct. *)
Lemma goal_state_holds_all (g : Grid.t) (s : State.t) :
  state_in_grid g s →
  size (State.coins_collected s) = length (coin_cells g) →
  State.coins_collected s = list_to_set (grid_coin_ids g)
  ∧ distinct_coin_ids g.
Proof.
  intros [Hsub _] Hgoal.
  rewrite <- grid_coin_ids_length in Hgoal.
  pose proof (size_list_to_set_le (grid_coin_ids g)) as Hle.
  pose proof (subseteq_size _ _ Hsub) as Hle'.
  split; [apply set_subseteq_size_eq; [done|lia]|].
  assert (Hnd : NoDup (grid_coin_ids g))
    by (apply size_list_to_set_NoDup; lia).
  intros x y x' y' n Hb Hb' Hc Hc'.
  assert (Hxy : (x, y) = (x', y')); [|by injection Hxy].
  apply (NoDup_bind_inj _ (coin_cells g) _ _ n Hnd).
  - apply elem_of_coin_cells; eauto.
  - apply elem_of_coin_cells; eauto.
  - simpl. rewrite Hc. by apply list_elem_of_singleton.
  - simpl. rewrite Hc'. by apply list_elem_of_singleton.
Qed.

Lemma elem_of_grid_coin_ids_inv (g : Grid.t) (n : Z) :
  n ∈ grid_coin_ids g →
  ∃ x y, Grid.is_within_boundaries g x y = true
         ∧ Grid.cell_at g x y = Ok (Int n).
Proof.
  unfold grid_coin_ids. rewrite list_elem_of_bind.
  intros ([x y] & Hn & Hc). simpl in Hn.
  apply elem_of_coin_cells in Hc as [Hb _].
  destruct (Grid.cell_at g x y) as [[|n']|] eqn:Hcell;
    try by apply not_elem_of_nil in Hn.
  apply list_elem_of_singleton in Hn as ->. eauto.
Qed.

(** X16: on a well-formed grid, the last state of a plan that
    [astar_search] returns holds the id of every coin cell of the grid,
    and ids of coin cells only; and a plan is returned only when no two
    coin cells carry the same id (the goal test compares the number of
    collected ids with the number of coin cells). *)
Theorem astar_search_plan_collects_all (g : Grid.t) (Hwf : Grid_wf g)
    (heuristic : Heuristic) (rounds : nat) (r : SearchResult.t)
    (plan : list State.t)
    (Hsearch : astar_search rounds g heuristic = Some (Ok r))
    (Hplan : SearchResult.plan r = Some plan) :
  ∃ goal,
    last plan = Some goal
    ∧ (∀ n, n ∈ State.coins_collected goal
            ↔ ∃ x y, Grid.is_within_boundaries g x y = true
                     ∧ Grid.cell_at g x y = Ok (Int n))
    ∧ distinct_coin_ids g.
Proof.
  apply astar_search_run in Hsearch
    as (num_coins & vars0 & counted & exit & vars & _ & Hrun & -> & _).
  apply run_nodes in Hrun as (s0 & coins & Hinit & Hcoins & _ & Hexit).
  destruct exit; [congruence|].
  destruct Hexit as (node & Hnode & Hgoal & Hplan').
  rewrite Hplan in Hplan'. injection Hplan' as ->.
  destruct (node_from_plan _ _ _ Hnode) as (_ & Hlast & _).
  rewrite get_coin_locations_eq in Hcoins by done. injection Hcoins as <-.
  destruct (goal_state_holds_all g (SearchNode.state node)
              (node_from_in_grid g Hwf _ _ Hinit Hnode) Hgoal)
    as [Heq Hids].
  exists (SearchNode.state node). split; [done|]. split; [|done].
  intros n. rewrite Heq, elem_of_list_to_set. split.
  - apply elem_of_grid_coin_ids_inv.
  - intros (x & y & Hb & Hcell). by eapply elem_of_grid_coin_ids.
Qed.

(** The search of the sample grid with the ordered-sum heuristic. *)
Lemma astar_search_plan_collects_all_witness :
  ∃ r plan goal,
    astar_search 200 sample_grid (ManhattanOrderedSumHeuristic sample_grid)
    = Some (Ok r)
    ∧ SearchResult.plan r = Some plan
    ∧ last plan = Some goal
    ∧ 0 ∈ State.coins_collected goal.
Proof.
  assert (H : returned_plan
                (astar_search 200 sample_grid
                   (ManhattanOrderedSumHeuristic sample_grid)) = true)
    by (vm_compute; reflexivity).
  apply returned_plan_inv in H as (r & plan & Hr & Hplan).
  destruct (astar_search_plan_collects_all sample_grid sample_grid_wf
              _ _ _ _ Hr Hplan) as (goal & Hlast & Hall & _).
  exists r, plan, goal. split; [exact Hr|]. split; [exact Hplan|].
  split; [exact Hlast|]. apply Hall. exists 7, 4. split; reflexivity.
Defined.

(** ** The order of the open list *)

Lemma div2_child (k pos : nat) :
  (0 < k)%nat →
  Nat.div2 (k - 1) = pos ↔ k = (2 * pos + 1)%nat ∨ k = (2 * pos + 2)%nat.
Proof.
  intros Hk. split.
  - intros <-. pose proof (Nat.div2_odd (k - 1)) as H.
    destruct (Nat.odd (k - 1)); simpl in H; lia.
  - intros [->| ->].
    + replace (2 * pos + 1 - 1)%nat with (2 * pos)%nat by lia.
      apply Nat.div2_double.
    + replace (2 * pos + 2 - 1)%nat with (S (2 * pos)) by lia.
      apply Nat.div2_succ_double.
Qed.

Section heap_order.
Context {A : Type} (lt : A → A → bool) (le : A → A → Prop).
Context (Hrefl : ∀ a, le a a).
Context (Htrans : ∀ a b c, le a b → le b c → le a c).
Context (Hlt : ∀ a b, lt a b = true → le a b).
Context (Hnlt : ∀ a b, lt a b = false → le b a).
Implicit Types heap : list A.

(** The first item of an ordered heap is below every item. *)
Lemma heap_ordered_root heap (r : A) :
  heap_ordered_by le heap → heap !! 0%nat = Some r →
  ∀ x, x ∈ heap → le r x.
Proof.
  intros Hheap Hr x [k Hk]%list_elem_of_lookup_1. revert x Hk.
  induction (lt_wf k) as [k _ IH]. intros x Hk.
  destruct (decide (k = 0%nat)) as [->|Hne].
  { rewrite Hr in Hk. injection Hk as <-. apply Hrefl. }
  pose proof (div2_pred_lt k ltac:(lia)) as Hpar.
  pose proof (lookup_lt_Some _ _ _ Hk) as Hlen.
  destruct (lookup_lt_is_Some_2 heap (Nat.div2 (k - 1)) ltac:(lia))
    as [p Hp].
  apply (Htrans _ p); [by apply (IH _ Hpar p)|].
  apply (Hheap k); [lia|done..].
Qed.

(** Filling the hole with an item that fits between the items above and
    below it. *)
Lemma insert_hole_ordered heap (pos : nat) (v : A) :
  (pos < length heap)%nat →
  hole_ordered_by le heap pos →
  (∀ k c, (0 < k)%nat → Nat.div2 (k - 1) = pos → heap !! k = Some c →
          le v c) →
  (∀ p, (0 < pos)%nat → heap !! Nat.div2 (pos - 1) = Some p →
        le p v) →
  heap_ordered_by le (<[pos := v]> heap).
Proof.
  intros Hpos [Ha Hb] Hchildren Hparent k c p Hk Hc Hp.
  pose proof (div2_pred_lt k Hk) as Hpar.
  apply list_lookup_insert_Some in Hc as [(Hkpos & Hv & _)|[Hne Hc]];
    apply list_lookup_insert_Some in Hp as [(Hppos & Hv' & _)|[Hne' Hp]].
  - lia.
  - subst k v. by apply Hparent.
  - subst v. by apply (Hchildren k).
  - by apply (Ha k).
Qed.

(** [_siftdown] from the hole at [pos] to the root. *)
Lemma siftdown_loop_ordered (rounds : nat) heap (pos : nat) (newitem : A) :
  (pos ≤ rounds)%nat → (pos < length heap)%nat →
  hole_ordered_by le heap pos →
  (∀ k c, (0 < k)%nat → Nat.div2 (k - 1) = pos → heap !! k = Some c →
          le newitem c) →
  heap_ordered_by le (heapq.siftdown_loop lt rounds heap 0 pos newitem).
Proof.
  revert heap pos.
  induction rounds as [|rounds IH];
    intros heap pos Hrounds Hpos Hhole Hchildren; simpl.
  { apply insert_hole_ordered; [done..|]. intros p ?. lia. }
  case_decide as Hlt0;
    [|apply insert_hole_ordered; [done..|intros p ?; lia]].
  pose proof (div2_pred_lt pos Hlt0) as Hpar.
  destruct (heap !! Nat.div2 (pos - 1)) as [parent|] eqn:Hparent;
    [|apply lookup_ge_None in Hparent; lia].
  destruct (lt newitem parent) eqn:Hcmp.
  - destruct Hhole as [Ha Hb]. apply Hlt in Hcmp.
    apply IH; [lia|rewrite length_insert; lia| |].
    + split.
      * intros k c p Hk Hkne Hpne Hc Hp.
        apply list_lookup_insert_Some in Hc as [(Hkpos & Hv & _)|[Hne Hc]];
          [by subst k|].
        apply list_lookup_insert_Some in Hp as [(Hppos & Hv & _)|[Hne' Hp]].
        -- subst p. by apply (Hb k c parent).
        -- by apply (Ha k).
      * intros k c p Hk Hkpar Hgp Hc Hp.
        pose proof (div2_pred_lt _ Hgp) as Hgpar.
        rewrite list_lookup_insert_ne in Hp by lia.
        assert (le p parent) as Hle
          by (apply (Ha (Nat.div2 (pos - 1))); (done || lia)).
        apply list_lookup_insert_Some in Hc as [(Hkpos & Hv & _)|[Hne Hc]];
          [by subst c|].
        apply (Htrans _ parent); [done|].
        apply (Ha k); [done|done|lia|done|by rewrite Hkpar].
    + intros k c Hk Hkpar Hc.
      apply list_lookup_insert_Some in Hc as [(Hkpos & Hv & _)|[Hne Hc]];
        [by subst c|].
      apply (Htrans _ parent); [done|].
      apply (Ha k); [done|done|lia|done|by rewrite Hkpar].
  - apply insert_hole_ordered; [done..|]. intros p _ Hp.
    rewrite Hparent in Hp. injection Hp as <-. by apply Hnlt.
Qed.

Lemma heappush_ordered heap (item : A) :
  heap_ordered_by le heap → heap_ordered_by le (heapq.heappush lt heap item).
Proof.
  intros Hheap. unfold heapq.heappush, heapq._siftdown.
  rewrite lookup_app_r by done. rewrite Nat.sub_diag. simpl.
  assert (Hleaf : ∀ k c, (0 < k)%nat → Nat.div2 (k - 1) = length heap →
            (heap ++ [item]) !! k = Some c → False).
  { intros k c Hk Hkpar Hc. apply lookup_lt_Some in Hc.
    rewrite length_app in Hc. simpl in Hc.
    apply div2_child in Hkpar; lia. }
  apply siftdown_loop_ordered.
  - done.
  - rewrite length_app. simpl. lia.
  - split.
    + intros k c p Hk Hkne Hpne Hc Hp.
      pose proof (lookup_lt_Some _ _ _ Hc) as Hlen.
      rewrite length_app in Hlen. simpl in Hlen.
      pose proof (div2_pred_lt k Hk) as Hpar.
      rewrite lookup_app_l in Hc by lia. rewrite lookup_app_l in Hp by lia.
      by apply (Hheap k).
    + intros k c p Hk Hkpar _ Hc _. by destruct (Hleaf k c).
  - intros k c Hk Hkpar Hc. by destruct (Hleaf k c).
Qed.

Lemma smaller_child_spec heap (childpos : nat) :
  (childpos < length heap)%nat →
  ∃ cv,
    heap !! heapq.smaller_child lt heap (length heap) childpos = Some cv
    ∧ (heapq.smaller_child lt heap (length heap) childpos = childpos
       ∨ heapq.smaller_child lt heap (length heap) childpos
         = (childpos + 1)%nat)
    ∧ ∀ k v, k = childpos ∨ k = (childpos + 1)%nat →
             heap !! k = Some v → le cv v.
Proof.
  intros Hchild. unfold heapq.smaller_child.
  destruct (lookup_lt_is_Some_2 heap childpos Hchild) as [l Hl].
  case_decide as Hright.
  - destruct (lookup_lt_is_Some_2 heap (childpos + 1) Hright) as [r Hr].
    rewrite Hl, Hr. destruct (lt l r) eqn:Hcmp.
    + exists l. split; [done|]. split; [by left|].
      intros k v [->| ->] Hv; rewrite Hv in *.
      * injection Hl as ->. apply Hrefl.
      * injection Hr as ->. by apply Hlt.
    + exists r. split; [done|]. split; [by right|].
      intros k v [->| ->] Hv; rewrite Hv in *.
      * injection Hl as ->. by apply Hnlt.
      * injection Hr as ->. apply Hrefl.
  - exists l. split; [done|]. split; [by left|].
    intros k v [->| ->] Hv.
    + rewrite Hv in Hl. injection Hl as ->. apply Hrefl.
    + apply lookup_lt_Some in Hv. lia.
Qed.

(** The loop of [_siftup] moves the hole to a leaf. *)
Lemma siftup_loop_ordered (rounds : nat) heap (endpos pos : nat) heap'
    (leaf : nat) :
  endpos = length heap → (endpos ≤ rounds + pos)%nat → (pos < endpos)%nat →
  hole_ordered_by le heap pos →
  heapq.siftup_loop lt rounds heap endpos pos = (heap', leaf) →
  length heap' = endpos ∧ (leaf < endpos)%nat
  ∧ hole_ordered_by le heap' leaf ∧ (endpos ≤ 2 * leaf + 1)%nat.
Proof.
  revert heap pos.
  induction rounds as [|rounds IH];
    intros heap pos Hend Hrounds Hpos Hhole; cbn [heapq.siftup_loop].
  { lia. }
  case_decide as Hchild;
    [|intros [= <- <-]; split; [lia|split; [lia|split; [done|lia]]]].
  subst endpos.
  destruct (smaller_child_spec heap (2 * pos + 1) Hchild)
    as (cv & Hcv & Hcases & Hsmaller).
  rewrite Hcv. pose proof (lookup_lt_Some _ _ _ Hcv) as Hclen.
  set (c := heapq.smaller_child lt heap (length heap) (2 * pos + 1)) in *.
  intros Hloop.
  apply IH in Hloop; [done|by rewrite length_insert|lia|done|].
  destruct Hhole as [Ha Hb]. split.
  - intros k v p Hk Hkne Hpne Hv Hp.
    apply list_lookup_insert_Some in Hv as [(Hkpos & Hv & _)|[Hne Hv]].
    + subst k v.
      rewrite list_lookup_insert_ne in Hp
        by (pose proof (div2_pred_lt pos Hk); lia).
      apply (Hb c cv p); [lia| |done..].
      apply div2_child; lia.
    + apply list_lookup_insert_Some in Hp as [(Hppos & Hp & _)|[Hne' Hp]].
      * subst p. apply (Hsmaller k v); [|done].
        symmetry in Hppos. apply div2_child in Hppos; lia.
      * by apply (Ha k).
  - intros k v p Hk Hkpar Hc0 Hv Hp.
    assert (Hcpar : Nat.div2 (c - 1) = pos) by (apply div2_child; lia).
    rewrite Hcpar in Hp.
    rewrite list_lookup_insert_eq in Hp by lia. injection Hp as <-.
    apply div2_child in Hkpar as Hk'; [|done].
    rewrite list_lookup_insert_ne in Hv by lia.
    apply (Ha k); [done|lia|lia|done|by rewrite Hkpar].
Qed.

Lemma heappop_ordered heap (item : A) (rest : list A) :
  heap_ordered_by le heap →
  heapq.heappop lt heap = Some (item, rest) →
  heap_ordered_by le rest ∧ ∀ x, x ∈ heap → le item x.
Proof.
  unfold heapq.heappop.
  destruct (last heap) as [lastelt|] eqn:Hlast; [|done].
  apply last_Some in Hlast as [front ->].
  rewrite length_app. simpl.
  replace (length front + 1 - 1)%nat with (length front) by lia.
  rewrite take_app_length.
  destruct front as [|returnitem front].
  { intros _ [= <- <-]. split; [by intros k c p _ ?|].
    intros x ->%list_elem_of_singleton. apply Hrefl. }
  intros Hheap [= <- <-]. split; [|by apply (heap_ordered_root _ _ Hheap)].
  cbn [insert list_insert]. unfold heapq._siftup. cbn [lookup list_lookup].
  destruct (heapq.siftup_loop lt _ _ _ 0) as [heap' leaf] eqn:Hloop.
  apply siftup_loop_ordered in Hloop
    as (Hlen & Hleaf & [Ha Hb] & Hnochild); [|done|lia|simpl; lia|].
  - unfold heapq._siftdown. rewrite list_lookup_insert_eq by lia.
    assert (Hnone : ∀ k c, (0 < k)%nat → Nat.div2 (k - 1) = leaf →
              <[leaf := lastelt]> heap' !! k = Some c → False).
    { intros k c Hk Hkpar Hc. apply lookup_lt_Some in Hc.
      rewrite length_insert in Hc. apply div2_child in Hkpar; lia. }
    apply siftdown_loop_ordered;
      [done|rewrite length_insert; lia| |by intros k c ???; destruct (Hnone k c)].
    split; [|by intros k c p ?? _ ? _; destruct (Hnone k c)].
    intros k c p Hk Hkne Hpne Hc Hp.
    rewrite list_lookup_insert_ne in Hc by done.
    rewrite list_lookup_insert_ne in Hp by done.
    by apply (Ha k).
  - split; [|intros; lia].
    intros k c p Hk Hkne Hpne Hc Hp.
    destruct k as [|k]; [lia|].
    destruct (Nat.div2 (S k - 1)) as [|j] eqn:Hj; [done|].
    apply (Hheap (S k) c p); [lia| |rewrite Hj].
    + cbn [lookup list_lookup app] in Hc |- *.
      by apply lookup_app_l_Some.
    + cbn [lookup list_lookup app] in Hp |- *.
      by apply lookup_app_l_Some.
Qed.
(** Popping until the heap is empty returns its items in order. *)
Lemma pop_all_sorted (fuel : nat) heap :
  length heap = fuel → heap_ordered_by le heap →
  StronglySorted le (pop_all lt fuel heap) ∧ pop_all lt fuel heap ≡ₚ heap.
Proof.
  revert heap. induction fuel as [|fuel IH]; intros heap Hlen Hheap; simpl.
  { apply nil_length_inv in Hlen as ->. split; [constructor|done]. }
  destruct (heapq.heappop lt heap) as [[item rest]|] eqn:Hpop.
  - pose proof (heappop_perm lt _ _ _ Hpop) as Hperm.
    destruct (heappop_ordered _ _ _ Hheap Hpop) as [Hrest Hmin].
    destruct (IH rest) as [Hsorted Hperm']; [|done|].
    { rewrite Hperm in Hlen. simpl in Hlen. lia. }
    split; [|by rewrite Hperm, Hperm'].
    constructor; [done|]. apply Forall_forall. intros x Hx.
    apply Hmin. rewrite Hperm. apply elem_of_cons. right.
    by rewrite <- Hperm'.
  - apply heappop_None in Hpop as ->. done.
Qed.
End heap_order.

(** ** Shortest plans *)

Lemma fg_le_refl (a : SearchNode.t) : fg_le a a.
Proof. unfold fg_le. lia. Qed.

Lemma fg_le_trans (a b c : SearchNode.t) : fg_le a b → fg_le b c → fg_le a c.
Proof. unfold fg_le. lia. Qed.

Lemma SearchNode_lt_fg (a b : SearchNode.t) :
  SearchNode.lt a b = true → fg_le a b.
Proof. rewrite SearchNode_lt_spec. unfold fg_le. lia. Qed.

Lemma SearchNode_not_lt_fg (a b : SearchNode.t) :
  SearchNode.lt a b = false → fg_le b a.
Proof.
  intros H%not_true_iff_false. rewrite SearchNode_lt_spec in H.
  unfold fg_le.
  destruct (Z.lt_trichotomy (SearchNode.get_f_value a)
              (SearchNode.get_f_value b)) as [?|[?|?]]; [tauto| |lia].
  destruct (Z.lt_ge_cases (SearchNode.g a) (SearchNode.g b)); [tauto|lia].
Qed.

Lemma fg_le_f (a b : SearchNode.t) :
  fg_le a b → SearchNode.get_f_value a ≤ SearchNode.get_f_value b.
Proof. unfold fg_le. lia. Qed.

Lemma heap_ordered_by_f (heap : list SearchNode.t) :
  heap_ordered_by fg_le heap → heap_ordered SearchNode.get_f_value heap.
Proof. intros Hheap k c p Hk Hc Hp. by apply fg_le_f, (Hheap k). Qed.

Lemma heappush_fg (heap : list SearchNode.t) (item : SearchNode.t) :
  heap_ordered_by fg_le heap →
  heap_ordered_by fg_le (heapq.heappush SearchNode.lt heap item).
Proof.
  apply heappush_ordered;
    [apply fg_le_trans|apply SearchNode_lt_fg|apply SearchNode_not_lt_fg].
Qed.

Lemma heappop_fg (heap : list SearchNode.t) (node : SearchNode.t)
    (rest : list SearchNode.t) :
  heap_ordered_by fg_le heap →
  heapq.heappop SearchNode.lt heap = Some (node, rest) →
  heap_ordered_by fg_le rest ∧ ∀ x, x ∈ heap → fg_le node x.
Proof.
  apply heappop_ordered;
    [apply fg_le_refl|apply fg_le_trans|apply SearchNode_lt_fg
    |apply SearchNode_not_lt_fg].
Qed.

Lemma heappop_nonempty (heap : list SearchNode.t) :
  heap ≠ [] →
  ∃ node ol, heapq.heappop SearchNode.lt heap = Some (node, ol).
Proof.
  intros Hne.
  destruct (heapq.heappop SearchNode.lt heap) as [[node ol]|] eqn:Hpop;
    [by eauto|by apply heappop_None in Hpop].
Qed.

Lemma visit_successors_ordered (heuristic : Heuristic) (node : SearchNode.t)
    (E : gset (gset Z * Z * Z)) (succs : list State.t)
    (ol : list SearchNode.t) (vis : gmap (gset Z * Z * Z) Z)
    (res : SearchResult.t) ol' vis' res' :
  for_fold succs (visit_successor heuristic node E) (ol, vis, res)
  = Ok (ol', vis', res') →
  heap_ordered_by fg_le ol → heap_ordered_by fg_le ol'.
Proof.
  revert ol vis res.
  induction succs as [|succ succs IH]; intros ol vis res; cbn [for_fold].
  { by intros [= <- <- <-]. }
  destruct (visit_successor heuristic node E (ol, vis, res) succ)
    as [[[ol1 vis1] res1]|] eqn:Hone; cbn [bind]; [|done].
  intros Hfold Hheap. apply (IH _ _ _ Hfold).
  unfold visit_successor in Hone.
  case_bool_decide; [by injection Hone as <- <- <-|].
  destruct (vis !! table_key succ).
  - injection Hone as <- <- <-. by apply heappush_fg.
  - destruct (heuristic succ); cbn [bind] in Hone; [|done].
    injection Hone as <- <- <-. by apply heappush_fg.
Qed.

(** The open list is a heap ordered by f-value, and by [g] among nodes of
    the same f-value, at every point of a run. *)
Lemma run_heap_fg (g : Grid.t) (heuristic : Heuristic)
    (counted : list (gset Z * Z * Z)) (exit : loop_exit) (vars : search_vars) :
  run_to g heuristic counted exit vars →
  heap_ordered_by fg_le (open_list vars).
Proof.
  induction 1 as [num_coins vars Hsetup
                 |num_coins vars0 counted vars exit vars' Hsetup Hrun IH
                    Hopen Hiter].
  - apply astar_setup_inv in Hsetup
      as (s0 & h0 & coins & _ & _ & _ & _ & ->). simpl.
    intros [|k] c p Hk Hc Hp; [lia|done].
  - apply astar_iteration_cases in Hiter as (node & ol & Hpop & Hcases).
    destruct (heappop_fg _ _ _ IH Hpop) as [Hol _].
    destruct Hcases as [(_ & _ & ->)|[(_ & _ & _ & ->)|(_ & _ & _ & Hexp)]];
      [done|done|].
    destruct Hexp as (succs & ol' & vis' & res' & _ & Hfold & ->). simpl.
    by eapply visit_successors_ordered.
Qed.

Lemma run_heap (g : Grid.t) (heuristic : Heuristic)
    (counted : list (gset Z * Z * Z)) (exit : loop_exit) (vars : search_vars) :
  run_to g heuristic counted exit vars →
  heap_ordered SearchNode.get_f_value (open_list vars).
Proof. intros Hrun. by eapply heap_ordered_by_f, run_heap_fg. Qed.

Lemma StronglySorted_lookup_lt {A : Type} (R : relation A) (l : list A)
    (i j : nat) (x y : A) :
  StronglySorted R l → l !! i = Some x → l !! j = Some y → (i < j)%nat →
  R x y.
Proof.
  intros Hsorted. revert i j.
  induction Hsorted as [|z l Hsorted IH Hall]; intros i j Hi Hj Hij;
    [done|].
  destruct j as [|j]; [lia|]. destruct i as [|i]; simpl in *.
  - injection Hi as <-. rewrite Forall_forall in Hall.
    by eapply Hall, list_elem_of_lookup_2.
  - apply (IH i j); (done || lia).
Qed.

(** C1 (amended): [SearchNode.__lt__] orders the nodes by [(f, g, state)]:
    lower f first, ties in f broken by the smaller g, remaining ties by
    [State.__lt__].  For two nodes [a] and [b] with [a.f = b.f] and
    [a.g < b.g], [a] compares less than [b], [b] does not compare less
    than [a], and [a] is popped before [b] from every open list that
    holds the two, as it is when [a.f < b.f]: every open list of a
    search, as every heap that [heappush] and [heappop] build from the
    empty list, is a heap ordered by [(f, g)]; from such a list [heappop]
    does not return [b] while [a] is in it, and [b] stays in the list;
    and when the list is popped until it is empty, [a] comes out before
    [b].  A list of two nodes is popped in the order of
    [SearchNode.__lt__], whatever the tie. *)
Theorem smaller_g_popped_first (a b : SearchNode.t) :
  (SearchNode.lt a b = true ↔
     SearchNode.get_f_value a < SearchNode.get_f_value b
     ∨ (SearchNode.get_f_value a = SearchNode.get_f_value b
        ∧ SearchNode.g a < SearchNode.g b)
     ∨ (SearchNode.get_f_value a = SearchNode.get_f_value b
        ∧ SearchNode.g a = SearchNode.g b
        ∧ State.lt (SearchNode.state a) (SearchNode.state b) = true))
  ∧ (SearchNode.lt a b = true →
     SearchNode.lt b a = false ∧ popped_first a b)
  ∧ (SearchNode.get_f_value a = SearchNode.get_f_value b →
     SearchNode.g a < SearchNode.g b →
     SearchNode.lt a b = true ∧ SearchNode.lt b a = false
     ∧ popped_first a b)
  ∧ (SearchNode.get_f_value a < SearchNode.get_f_value b
     ∨ (SearchNode.get_f_value a = SearchNode.get_f_value b
        ∧ SearchNode.g a < SearchNode.g b) →
     ∀ open_list,
       heap_ordered_by fg_le open_list →
       a ∈ open_list → b ∈ open_list →
       (∀ node rest,
          heapq.heappop SearchNode.lt open_list = Some (node, rest) →
          node ≠ b ∧ fg_le node a ∧ b ∈ rest
          ∧ heap_ordered_by fg_le rest)
       ∧ pop_all SearchNode.lt (length open_list) open_list ≡ₚ open_list
       ∧ ∀ i j,
           pop_all SearchNode.lt (length open_list) open_list !! i
           = Some a →
           pop_all SearchNode.lt (length open_list) open_list !! j
           = Some b →
           (i < j)%nat)
  ∧ heap_ordered_by fg_le []
  ∧ (∀ open_list item,
       heap_ordered_by fg_le open_list →
       heap_ordered_by fg_le (heapq.heappush SearchNode.lt open_list item))
  ∧ (∀ open_list node rest,
       heap_ordered_by fg_le open_list →
       heapq.heappop SearchNode.lt open_list = Some (node, rest) →
       heap_ordered_by fg_le rest)
  ∧ (∀ g heuristic counted exit vars,
       run_to g heuristic counted exit vars →
       heap_ordered_by fg_le (open_list vars)).
Proof.
  split; [apply SearchNode_lt_spec|].
  split.
  { intros H. split; [by apply SearchNode_lt_asym | by apply heappop_two]. }
  split.
  { intros Hf Hg.
    assert (H : SearchNode.lt a b = true)
      by (apply SearchNode_lt_spec; right; left; done).
    split; [done|].
    split; [by apply SearchNode_lt_asym | by apply heappop_two]. }
  split.
  { intros Hab open_list Hheap Ha Hb.
    assert (Hba : ¬ fg_le b a) by (unfold fg_le; lia).
    split; [|split].
    - intros node rest Hpop.
      destruct (heappop_fg _ _ _ Hheap Hpop) as [Hrest Hmin].
      assert (Hne : node ≠ b) by (intros ->; by apply Hba, Hmin).
      split; [done|]. split; [by apply Hmin|]. split; [|done].
      rewrite (heappop_perm _ _ _ _ Hpop) in Hb.
      by apply elem_of_cons in Hb as [->|Hb].
    - by apply (pop_all_sorted SearchNode.lt fg_le fg_le_refl fg_le_trans
                  SearchNode_lt_fg SearchNode_not_lt_fg).
    - intros i j Hi Hj.
      destruct (pop_all_sorted SearchNode.lt fg_le fg_le_refl fg_le_trans
                  SearchNode_lt_fg SearchNode_not_lt_fg
                  (length open_list) open_list eq_refl Hheap)
        as [Hsorted _].
      destruct (Nat.lt_trichotomy i j) as [Hlt|[->|Hgt]]; [done| |].
      + rewrite Hi in Hj. injection Hj as ->. lia.
      + exfalso. apply Hba.
        by apply (StronglySorted_lookup_lt _ _ j i _ _ Hsorted). }
  split; [by intros k c p _ ?|].
  split; [apply heappush_fg|].
  split.
  { intros open_list node rest Hheap Hpop.
    by destruct (heappop_fg _ _ _ Hheap Hpop). }
  apply run_heap_fg.
Qed.

(** [node_root] and [node_child], with the same f-value, in an open list
    of three nodes. *)
Lemma smaller_g_popped_first_witness :
  ∃ node rest,
    heapq.heappop SearchNode.lt
      (heapq.heappush SearchNode.lt
         (heapq.heappush SearchNode.lt
            (heapq.heappush SearchNode.lt [] node_child)
            (node_coins {[1]}))
         node_root)
    = Some (node, rest)
    ∧ node ≠ node_child ∧ node_child ∈ rest.
Proof.
  destruct (heappop_nonempty
              (heapq.heappush SearchNode.lt
                 (heapq.heappush SearchNode.lt
                    (heapq.heappush SearchNode.lt [] node_child)
                    (node_coins {[1]}))
                 node_root))
    as (node & rest & Hpop).
  { intros Hnil.
    pose proof (heappush_perm SearchNode.lt
                  (heapq.heappush SearchNode.lt
                     (heapq.heappush SearchNode.lt [] node_child)
                     (node_coins {[1]}))
                  node_root) as Hperm.
    rewrite Hnil in Hperm. by apply Permutation_nil_cons in Hperm. }
  exists node, rest. split; [exact Hpop|].
  destruct (smaller_g_popped_first node_root node_child)
    as (_ & _ & _ & Hlist & Hnil & Hpush & _).
  destruct (Hlist (or_intror (conj eq_refl eq_refl)) _
              (Hpush _ node_root
                 (Hpush _ (node_coins {[1]}) (Hpush _ node_child Hnil))))
    as (Hfirst & _).
  - rewrite heappush_perm. constructor.
  - rewrite !heappush_perm. do 2 constructor. constructor.
  - destruct (Hfirst node rest Hpop) as (Hne & _ & Hin & _).
    split; [exact Hne | exact Hin].
Defined.

Lemma walk_rtc (g : Grid.t) (s t : State.t) (k : nat) :
  walk g s k t → rtc (successor_of g) s t.
Proof.
  induction 1 as [|k t u _ IH Hmove]; [done|]. by eapply rtc_r.
Qed.

Lemma node_from_reachable (g : Grid.t) (s0 : State.t) (n : SearchNode.t) :
  node_from g s0 n → rtc (successor_of g) s0 (SearchNode.state n).
Proof.
  induction 1 as [h|p s h _ IH Hmove]; simpl; [done|]. by eapply rtc_r.
Qed.

Section shortest.
Context (g : Grid.t) (heuristic : Heuristic) (s0 : State.t).
Context (coins : list (Z * Z)).
Context (Hinit : Grid.get_initial_state g = Ok (Some s0)).
Context (Hcoins : Grid.get_coin_locations g = Ok coins).
Context (Hcons : ∀ s t, rtc (successor_of g) s0 s → successor_of g s t →
           ∃ v w, heuristic s = Ok v ∧ heuristic t = Ok w ∧ v ≤ w + 1).
Context (Hgoal : ∀ t v, rtc (successor_of g) s0 t →
           size (State.coins_collected t) = length coins →
           heuristic t = Ok v → v = 0).

(** Along a walk the estimate falls by at most one with each move. *)
Lemma walk_heuristic (s t : State.t) (k : nat) (v : Z) :
  rtc (successor_of g) s0 s → walk g s k t → heuristic s = Ok v →
  ∃ w, heuristic t = Ok w ∧ v ≤ w + Z.of_nat k.
Proof.
  intros Hs Hwalk Hv.
  induction Hwalk as [|k t u Hwalk IH Hmove].
  { exists v. split; [done|lia]. }
  destruct IH as (w & Hw & Hle).
  destruct (Hcons t u) as (v' & w' & Hv' & Hw' & Hle'); [|done|].
  { etrans; [done|]. by eapply walk_rtc. }
  exists w'. split; [done|]. rewrite Hw in Hv'. injection Hv' as <-. lia.
Qed.

(** On every walk to a state that is not flagged, the open list has a
    node for a state of the walk, with a [g] no larger than the moves to
    this state. *)
Lemma frontier_node (O : list SearchNode.t) (E : gset (gset Z * Z * Z))
    (k : nat) (t : State.t) :
  frontier_ok g s0 O E → walk g s0 k t → table_key t ∉ E →
  ∃ i m, (i ≤ k)%nat ∧ walk g s0 i (SearchNode.state m)
         ∧ walk g (SearchNode.state m) (k - i) t
         ∧ m ∈ O ∧ SearchNode.g m ≤ Z.of_nat i.
Proof.
  intros [Hroot Hborder] Hwalk.
  induction Hwalk as [|k t u Hwalk IH Hmove]; intros Ht.
  - destruct (Hroot Ht) as (m & Hm & Hst & Hg).
    exists 0%nat, m. rewrite Hst. simpl.
    split; [done|]. split; [constructor|]. split; [constructor|].
    split; [done|lia].
  - destruct (decide (table_key t ∈ E)) as [HE|HE].
    + destruct (Hborder k t u Hwalk HE Hmove Ht) as (m & Hm & Hst & Hg).
      exists (S k), m. rewrite Hst, Nat.sub_diag.
      split; [done|]. split; [by econstructor|]. split; [constructor|].
      split; [done|lia].
    + destruct (IH HE) as (i & m & Hi & Hto & Hfrom & Hm & Hg).
      exists i, m. split; [lia|]. split; [done|].
      split; [|done].
      replace (S k - i)%nat with (S (k - i)) by lia. by econstructor.
Qed.

(** The f-value of a node with the least f-value of the open list is no
    more than the moves of a walk to a state that is not flagged plus the
    estimate for this state. *)
Lemma pop_bound (O : list SearchNode.t) (E : gset (gset Z * Z * Z))
    (n : SearchNode.t) (k : nat) (t : State.t) :
  frontier_ok g s0 O E →
  (∀ m, m ∈ O → SearchNode.get_f_value n ≤ SearchNode.get_f_value m) →
  (∀ m, m ∈ O → heuristic (SearchNode.state m) = Ok (SearchNode.h m)) →
  walk g s0 k t → table_key t ∉ E →
  ∃ w, heuristic t = Ok w ∧ SearchNode.get_f_value n ≤ Z.of_nat k + w.
Proof.
  intros Hfront Hmin Hcache Hwalk Ht.
  destruct (frontier_node O E k t Hfront Hwalk Ht)
    as (i & m & Hi & Hto & Hfrom & Hm & Hg).
  destruct (walk_heuristic _ _ _ _ (walk_rtc _ _ _ _ Hto) Hfrom
              (Hcache m Hm)) as (w & Hw & Hle).
  exists w. split; [done|].
  pose proof (Hmin m Hm) as Hf. unfold SearchNode.get_f_value in *. lia.
Qed.

(** The invariant of the loop that makes the plans shortest. *)
Lemma run_shortest (counted : list (gset Z * Z * Z)) (exit : loop_exit)
    (vars : search_vars) :
  run_to g heuristic counted exit vars →
  (exit = Continue →
   frontier_ok g s0 (open_list vars) (expanded vars)
   ∧ ∀ s, table_key s ∈ expanded vars →
          size (State.coins_collected s) ≠ length coins)
  ∧ ∀ plan, SearchResult.plan (result_ vars) = Some plan →
      ∀ k t, walk g s0 k t →
             size (State.coins_collected t) = length coins →
             (length plan ≤ S k)%nat.
Proof.
  induction 1 as [num_coins vars Hsetup
                 |num_coins vars0 counted vars exit vars' Hsetup Hrun IH
                    Hopen Hiter].
  - apply astar_setup_inv in Hsetup
      as (s0' & h0 & coins' & Hinit' & _ & _ & _ & ->).
    rewrite Hinit in Hinit'. injection Hinit' as <-. simpl.
    split; [|done]. intros _. split; [|by intros s ?%not_elem_of_empty].
    split.
    + intros _. exists (SearchNode.__init__ s0 h0 None).
      split; [by apply list_elem_of_singleton|done].
    + by intros k s t _ ?%not_elem_of_empty.
  - destruct IH as [IH Iplan]. destruct (IH eq_refl) as [Ifront Igoal].
    pose proof (run_heap_fg _ _ _ _ _ Hrun) as Hheap.
    destruct (run_cache _ _ _ _ _ Hrun) as (Hcache & _).
    destruct (run_nodes _ _ _ _ _ Hrun)
      as (s0' & coins' & Hinit' & Hcoins' & Hnodes & _).
    rewrite Hinit in Hinit'. injection Hinit' as <-.
    rewrite Hcoins in Hcoins'. injection Hcoins' as <-.
    apply astar_setup_inv in Hsetup
      as (s0' & h0 & coins' & _ & Hcoins' & _ & -> & _).
    rewrite Hcoins in Hcoins'. injection Hcoins' as <-.
    apply astar_iteration_cases in Hiter as (node & ol & Hpop & Hcases).
    pose proof (heappop_perm _ _ _ _ Hpop) as Hperm.
    assert (Hmin : ∀ x, x ∈ open_list vars →
              SearchNode.get_f_value node ≤ SearchNode.get_f_value x).
    { intros x Hx. by apply fg_le_f, (heappop_fg _ _ _ Hheap Hpop). }
    assert (Hnode : node ∈ open_list vars) by (rewrite Hperm; constructor).
    assert (Hrest : ∀ m s, m ∈ open_list vars → SearchNode.state m = s →
              table_key s ≠ table_key (SearchNode.state node) → m ∈ ol).
    { intros m s Hm Hst Hne. rewrite Hperm in Hm.
      apply elem_of_cons in Hm as [->|Hm]; [|done]. by subst s. }
    destruct Ifront as [Hroot Hborder].
    destruct Hcases as [(Hflag & -> & ->)
                       |[(Hflag & Hisgoal & -> & ->)
                        |(Hflag & Hnotgoal & -> & Hexp)]]; simpl.
    + (* a flagged node is dropped *)
      apply bool_decide_eq_true in Hflag.
      split; [|done]. intros _. split; [|done]. split.
      * intros Hs0. destruct (Hroot Hs0) as (m & Hm & Hst & Hg).
        exists m. split; [|done]. apply (Hrest m s0 Hm Hst).
        intros Heq. apply Hs0. by rewrite Heq.
      * intros k s t Hwalk Hs Hmove Ht.
        destruct (Hborder k s t Hwalk Hs Hmove Ht) as (m & Hm & Hst & Hg).
        exists m. split; [|done]. apply (Hrest m t Hm Hst).
        intros Heq. apply Ht. by rewrite Heq.
    + (* the goal is popped *)
      apply bool_decide_eq_false in Hflag.
      split; [done|]. intros plan [= <-] k t Hwalk Ht.
      destruct (node_from_plan _ _ _ (Hnodes node Hnode))
        as (_ & _ & Hlen & _).
      destruct (pop_bound (open_list vars) (expanded vars) node k t)
        as (w & Hw & Hle); [done|done|done|done| |].
      { intros HE. by apply Igoal in HE. }
      apply (Hgoal t w (walk_rtc _ _ _ _ Hwalk) Ht) in Hw as ->.
      assert (SearchNode.h node = 0) as Hh.
      { apply (Hgoal (SearchNode.state node)); [|lia|by apply Hcache].
        apply node_from_reachable, Hnodes, Hnode. }
      unfold SearchNode.get_f_value in Hle. lia.
    + (* the node is expanded *)
      apply bool_decide_eq_false in Hflag.
      destruct Hexp as (succs & ol' & vis' & res' & Hsuccs & Hfold & ->).
      apply visit_successors_spec in Hfold
        as (pushed & Hperm' & Hst & Hn & _ & _ & _ & _ & Hplan').
      simpl in *. unfold SearchNode.set_flag.
      split; [|by rewrite Hplan'].
      intros _. split; [split|].
      * intros Hs0. apply not_elem_of_union in Hs0 as [Hne Hs0].
        destruct (Hroot Hs0) as (m & Hm & Hstm & Hg).
        exists m. split; [|done]. rewrite Hperm'. apply elem_of_app. right.
        apply (Hrest m s0 Hm Hstm). intros Heq. apply Hne.
        by apply elem_of_singleton.
      * intros k s t Hwalk Hs Hmove Ht.
        apply not_elem_of_union in Ht as [Hne Ht].
        apply elem_of_union in Hs as [Hs%elem_of_singleton|Hs].
        -- apply table_key_inj in Hs as ->.
           destruct Hmove as (succs' & Hsuccs' & Hin).
           rewrite Hsuccs in Hsuccs'. injection Hsuccs' as <-.
           assert (Hpushed : t ∈ SearchNode.state <$> pushed).
           { rewrite Hst. by apply list_elem_of_filter. }
           apply list_elem_of_fmap in Hpushed as (n' & -> & Hn').
           destruct (Hn n' Hn') as (_ & Hg & _).
           exists n'. split; [rewrite Hperm', elem_of_app; by left|].
           split; [done|].
           destruct (pop_bound (open_list vars) (expanded vars) node k
                       (SearchNode.state node))
             as (w & Hw & Hle); [done|done|done|done|done|].
           rewrite (Hcache node Hnode) in Hw. injection Hw as <-.
           unfold SearchNode.get_f_value in Hle. lia.
        -- destruct (Hborder k s t Hwalk Hs Hmove Ht)
             as (m & Hm & Hstm & Hg).
           exists m. split; [|done]. rewrite Hperm'. apply elem_of_app.
           right. apply (Hrest m t Hm Hstm). intros Heq. apply Hne.
           by apply elem_of_singleton.
      * intros s [Hs%elem_of_singleton|Hs]%elem_of_union; [|by apply Igoal].
        apply table_key_inj in Hs as ->. lia.
Qed.

(** What [astar_search] returns with a consistent heuristic. *)
Lemma astar_shortest (rounds : nat) (r : SearchResult.t)
    (plan : list State.t) (k : nat) (t : State.t) :
  astar_search rounds g heuristic = Some (Ok r) →
  SearchResult.plan r = Some plan →
  walk g s0 k t → size (State.coins_collected t) = length coins →
  (length plan ≤ S k)%nat.
Proof.
  intros Hsearch Hplan.
  apply astar_search_run in Hsearch
    as (num_coins & vars0 & counted & exit & vars & _ & Hrun & -> & _).
  destruct (run_shortest _ _ _ Hrun) as [_ Hshort]. by apply Hshort.
Qed.
End shortest.

(** X17: with a heuristic that is consistent on the states that can be
    reached from the initial state (its value falls by at most one with a
    move) and that is zero on those of them that hold as many coins as the
    grid has coin cells, a plan that [astar_search] returns is a shortest
    one: no walk from the initial state to such a state has fewer
    states. *)
Theorem astar_search_shortest_plan (g : Grid.t) (heuristic : Heuristic)
    (s0 : State.t) (coins : list (Z * Z)) (rounds : nat)
    (r : SearchResult.t) (plan : list State.t)
    (Hinit : Grid.get_initial_state g = Ok (Some s0))
    (Hcoins : Grid.get_coin_locations g = Ok coins)
    (Hcons : ∀ s t, rtc (successor_of g) s0 s → successor_of g s t →
       ∃ v w, heuristic s = Ok v ∧ heuristic t = Ok w ∧ v ≤ w + 1)
    (Hgoal : ∀ t v, rtc (successor_of g) s0 t →
       size (State.coins_collected t) = length coins →
       heuristic t = Ok v → v = 0)
    (Hsearch : astar_search rounds g heuristic = Some (Ok r))
    (Hplan : SearchResult.plan r = Some plan) :
  ∀ k t, walk g s0 k t →
         size (State.coins_collected t) = length coins →
         (length plan ≤ S k)%nat.
Proof.
  intros k t. by apply (astar_shortest g heuristic s0 coins) with rounds r.
Qed.

(** The search of the sample grid with the blind heuristic. *)
Lemma astar_search_shortest_plan_witness :
  ∃ r plan,
    astar_search 200 sample_grid BlindHeuristic = Some (Ok r)
    ∧ SearchResult.plan r = Some plan
    ∧ ∀ k t, walk sample_grid (State.mk 3 1 ∅) k t →
             size (State.coins_collected t) = 1%nat →
             (length plan ≤ S k)%nat.
Proof.
  assert (H : returned_plan (astar_search 200 sample_grid BlindHeuristic)
              = true) by (vm_compute; reflexivity).
  apply returned_plan_inv in H as (r & plan & Hr & Hplan).
  exists r, plan. split; [exact Hr|]. split; [exact Hplan|].
  apply (astar_search_shortest_plan sample_grid BlindHeuristic
           (State.mk 3 1 ∅) [(7, 4)] 200 r plan).
  - reflexivity.
  - reflexivity.
  - intros s t _ _. exists 0, 0. split; [reflexivity|].
    split; [reflexivity|lia].
  - intros t v _ _ Hv. injection Hv as <-. reflexivity.
  - exact Hr.
  - exact Hplan.
Defined.

Lemma reachable_in_grid (g : Grid.t) (Hwf : Grid_wf g) (s0 t : State.t) :
  Grid.get_initial_state g = Ok (Some s0) →
  rtc (successor_of g) s0 t → state_in_grid g t.
Proof.
  intros Hinit Hreach. revert t Hreach.
  apply (rtc_ind_r (state_in_grid g)).
  - destruct (get_initial_state_cases g Hwf) as (r0 & Hr0 & Hspec).
    rewrite Hinit in Hr0. injection Hr0 as <-.
    destruct Hspec as (Hs0 & Hb & _). split; [|done].
    rewrite Hs0. simpl. apply empty_subseteq.
  - intros s t _ (succs & Hsuccs & Ht) IH. by eapply successors_in_grid.
Qed.

(** The Manhattan-max estimate of a state that holds every coin. *)
Lemma manhattan_max_goal (g : Grid.t) (Hwf : Grid_wf g) (t : State.t) :
  state_in_grid g t →
  size (State.coins_collected t) = length (coin_cells g) →
  ManhattanMaxHeuristic g t = Ok 0.
Proof.
  intros Hgrid Hgoal.
  destruct (goal_state_holds_all g t Hgrid Hgoal) as [Heq _].
  rewrite manhattan_max_fold by done.
  destruct (uncollected_cells g t) as [|[x y] l] eqn:Hcells; [done|].
  exfalso.
  assert (Hxy : (x, y) ∈ uncollected_cells g t)
    by (rewrite Hcells; constructor).
  apply elem_of_uncollected_cells in Hxy as (Hb & n & Hn & Hnot).
  apply Hnot. rewrite Heq. apply elem_of_list_to_set.
  by eapply elem_of_grid_coin_ids.
Qed.

(** X18: on a well-formed grid, a plan that [astar_search] returns with
    [BlindHeuristic] or with [ManhattanMaxHeuristic] is a shortest one: no
    walk from the initial state to a state that holds as many coins as the
    grid has coin cells has fewer states than the plan. *)
Theorem astar_search_blind_and_max_shortest (g : Grid.t) (Hwf : Grid_wf g)
    (heuristic : Heuristic) (rounds : nat) (r : SearchResult.t)
    (plan : list State.t)
    (Hheuristic : heuristic ∈ [BlindHeuristic; ManhattanMaxHeuristic g])
    (Hsearch : astar_search rounds g heuristic = Some (Ok r))
    (Hplan : SearchResult.plan r = Some plan) :
  ∃ initial_state coins,
    Grid.get_initial_state g = Ok (Some initial_state)
    ∧ Grid.get_coin_locations g = Ok coins
    ∧ ∀ k t, walk g initial_state k t →
             size (State.coins_collected t) = length coins →
             (length plan ≤ S k)%nat.
Proof.
  pose proof Hsearch as Hsearch'.
  apply astar_search_run in Hsearch'
    as (num_coins & vars0 & counted & exit & vars & _ & Hrun & -> & _).
  apply run_nodes in Hrun as (s0 & coins & Hinit & Hcoins & _ & Hexit).
  destruct exit; [congruence|].
  destruct Hexit as (node & Hnode & Hgoal & _).
  exists s0, coins. split; [done|]. split; [done|]. intros k t.
  eapply (astar_shortest g heuristic s0 coins Hinit Hcoins);
    [| |exact Hsearch|exact Hplan].
  - intros s t' Hs Hmove.
    apply elem_of_cons in Hheuristic as [->|Hheuristic].
    { exists 0, 0. split; [done|]. split; [done|lia]. }
    apply list_elem_of_singleton in Hheuristic as ->.
    rewrite get_coin_locations_eq in Hcoins by done. injection Hcoins as <-.
    destruct (goal_state_holds_all g (SearchNode.state node)
                (node_from_in_grid g Hwf _ _ Hinit Hnode) Hgoal)
      as [_ Hids].
    destruct (manhattan_max_move g Hwf Hids s t' Hmove)
      as (m & m' & Hm & Hm' & Hle & _).
    by exists m, m'.
  - intros t' v Ht' Hsize Hv.
    apply elem_of_cons in Hheuristic as [->|Hheuristic].
    { by injection Hv as <-. }
    apply list_elem_of_singleton in Hheuristic as ->.
    rewrite get_coin_locations_eq in Hcoins by done. injection Hcoins as <-.
    rewrite (manhattan_max_goal g Hwf t') in Hv;
      [by injection Hv as <-| |done].
    by eapply reachable_in_grid.
Qed.

(** The search of the sample grid with the Manhattan-max heuristic. *)
Lemma astar_search_blind_and_max_shortest_witness :
  ∃ r plan,
    astar_search 200 sample_grid (ManhattanMaxHeuristic sample_grid)
    = Some (Ok r)
    ∧ SearchResult.plan r = Some plan
    ∧ ∀ k t, walk sample_grid (State.mk 3 1 ∅) k t →
             size (State.coins_collected t) = 1%nat →
             (length plan ≤ S k)%nat.
Proof.
  assert (H : returned_plan
                (astar_search 200 sample_grid
                   (ManhattanMaxHeuristic sample_grid)) = true)
    by (vm_compute; reflexivity).
  apply returned_plan_inv in H as (r & plan & Hr & Hplan).
  exists r, plan. split; [exact Hr|]. split; [exact Hplan|].
  destruct (astar_search_blind_and_max_shortest sample_grid sample_grid_wf
              (ManhattanMaxHeuristic sample_grid) 200 r plan)
    as (s0 & coins & Hinit & Hcoins & Hshort).
  - right. left.
  - exact Hr.
  - exact Hplan.
  - assert (Hinit' : Grid.get_initial_state sample_grid
                     = Ok (Some (State.mk 3 1 ∅))) by reflexivity.
    assert (Hcoins' : Grid.get_coin_locations sample_grid = Ok [(7, 4)])
      by reflexivity.
    rewrite Hinit in Hinit'. injection Hinit' as ->.
    rewrite Hcoins in Hcoins'. injection Hcoins' as ->.
    exact Hshort.
Defined.

(** X19: the node that a round of the loop pops has the least f-value of
    the open list: at every point of every run the open list is a heap
    ordered by f-value, which the pushes and the pops of [heapq] keep. *)
Theorem popped_node_has_least_f (g : Grid.t) (heuristic : Heuristic)
    (counted : list (gset Z * Z * Z)) (vars : search_vars)
    (node : SearchNode.t) (ol : list SearchNode.t)
    (Hrun : run_to g heuristic counted Continue vars)
    (Hpop : heapq.heappop SearchNode.lt (open_list vars) = Some (node, ol)) :
  heap_ordered SearchNode.get_f_value (open_list vars)
  ∧ heap_ordered SearchNode.get_f_value ol
  ∧ ∀ m, m ∈ open_list vars →
         SearchNode.get_f_value node ≤ SearchNode.get_f_value m.
Proof.
  pose proof (run_heap_fg _ _ _ _ _ Hrun) as Hheap.
  destruct (heappop_fg _ _ _ Hheap Hpop) as [Hol Hmin].
  split; [by apply heap_ordered_by_f|]. split; [by apply heap_ordered_by_f|].
  intros m Hm. by apply fg_le_f, Hmin.
Qed.

(** The second round of the search of the sample grid with the
    Manhattan-sum heuristic. *)
Lemma popped_node_has_least_f_witness :
  ∃ counted vars node ol,
    run_to sample_grid (ManhattanSumHeuristic sample_grid) counted
      Continue vars
    ∧ heapq.heappop SearchNode.lt (open_list vars) = Some (node, ol)
    ∧ ∀ m, m ∈ open_list vars →
           SearchNode.get_f_value node ≤ SearchNode.get_f_value m.
Proof.
  pose (h := ManhattanSumHeuristic sample_grid).
  pose (vars0 := mk_vars [SearchNode.__init__ (State.mk 3 1 ∅) 7 None] ∅
                   {[table_key (State.mk 3 1 ∅) := 7]}
                   (SearchResult.mk 0 0 None)).
  assert (Hsetup : astar_setup sample_grid h = Ok (1, vars0))
    by reflexivity.
  assert (H1 : continues sample_grid h 1 vars0 = true)
    by (vm_compute; reflexivity).
  apply continues_round in H1 as [Hopen1 Hiter1].
  pose proof (run_round _ _ _ _ _ _ _ _ Hsetup
                (run_setup _ _ _ _ Hsetup) Hopen1 Hiter1) as Hrun.
  assert (H2 : continues sample_grid h 1 (next_vars sample_grid h 1 vars0)
               = true) by (vm_compute; reflexivity).
  apply continues_round in H2 as [Hopen2 _].
  destruct (heappop_nonempty _ Hopen2) as (node & ol & Hpop).
  eexists _, _, node, ol. split; [exact Hrun|]. split; [exact Hpop|].
  destruct (popped_node_has_least_f _ _ _ _ _ _ Hrun Hpop) as (_ & _ & Hmin).
  exact Hmin.
Defined.

(** ** Two runs on the same grid with the same heuristic instance *)


